(** * The documentation synchronisation script of next.js-docs

    A shallow embedding of the content synchronisation script (the third
    document of [astro.config.mjs]): the name normalisation [stripPrefix],
    the recursive renamer [renameAll] and the linear pipeline around them
    (cache reset, three [git] invocations, rename, destination reset, copy).

    Strings are [string] (a list of 8-bit code units); the regular
    expression [/^\d+-/] only inspects ASCII code units, so the byte view
    and JavaScript's UTF-16 view agree on everything the script looks at.

    The file system is a tree of regular files and directories with POSIX
    semantics for [path.join] and [rename]; what [git] does is a parameter
    of the script.  Console output, permissions and symbolic links are not
    modelled. *)

From Stdlib Require Import Strings.String Strings.Ascii Lists.List Bool.Bool.
From Stdlib Require Import Arith.PeanoNat NArith.NArith ZArith.ZArith micromega.Lia.
Import ListNotations.
Local Open Scope list_scope.
Local Open Scope string_scope.

(** ** A small backtracking matcher for the regular expressions in use *)

Module Regex.

(** One-character matchers: [\d], a literal character, and [.]. *)
Inductive atom : Type :=
| Digit
| Lit (c : ascii)
| Dot.

(** A pattern is a sequence of pieces, each an atom or a greedy [atom+]. *)
Inductive piece : Type :=
| One (a : atom)
| Plus (a : atom).

(** [\d] without the [u] flag: the ten ASCII digits, code units 48 to 57. *)
Definition is_digit (c : ascii) : bool :=
  (48 <=? N_of_ascii c)%N && (N_of_ascii c <=? 57)%N.

(** [.] matches every code unit but the line terminators LF and CR (the two
    other ECMAScript line terminators, U+2028 and U+2029, are not single
    units of this alphabet). *)
Definition is_line_terminator (c : ascii) : bool :=
  (N_of_ascii c =? 10)%N || (N_of_ascii c =? 13)%N.

Definition atom_matches (a : atom) (c : ascii) : bool :=
  match a with
  | Digit => is_digit c
  | Lit d => Ascii.eqb c d
  | Dot => negb (is_line_terminator c)
  end.

(** Greedy [a+] followed by the continuation [k]: take one character, then
    prefer taking more, and fall back to the continuation on failure. *)
Fixpoint match_plus {R : Type} (a : atom) (k : string -> option R)
    (s : string) : option R :=
  match s with
  | EmptyString => None
  | String c s' =>
      if atom_matches a c then
        match match_plus a k s' with
        | Some r => Some r
        | None => k s'
        end
      else None
  end.

(** Match the pieces at the head of [s], then hand the rest of the input to
    the continuation. *)
Fixpoint match_pieces {R : Type} (re : list piece) (k : string -> option R)
    (s : string) : option R :=
  match re with
  | [] => k s
  | One a :: re' =>
      match s with
      | EmptyString => None
      | String c s' => if atom_matches a c then match_pieces re' k s' else None
      end
  | Plus a :: re' => match_plus a (match_pieces re' k) s
  end.

(** A pattern anchored with [^] (no [m] flag) can only match at index 0;
    [exec_at_start] returns the input that follows the match. *)
Definition exec_at_start (re : list piece) (s : string) : option string :=
  match_pieces re (fun rest => Some rest) s.

(** [s.replace(/^re/, replacement)] for a replacement without [$] patterns:
    the matched prefix is replaced, a string without a match is returned
    as it is. *)
Definition replace_at_start (re : list piece) (replacement s : string) : string :=
  match exec_at_start re s with
  | Some rest => replacement ++ rest
  | None => s
  end.

End Regex.

Import Regex.

(** ** Name normalisation *)

(** The regular expression literal [/^\d+-/] of [stripPrefix]. *)
Definition numeric_prefix : list piece := [Plus Digit; One (Lit "-")].

(** [function stripPrefix(name) { return name.replace(/^\d+-/, ""); }] *)
Definition stripPrefix (name : string) : string :=
  replace_at_start numeric_prefix "" name.

(** The pattern [^[0-9]+-(.+)$] of the specification's testable properties,
    read with the same matcher: the result is the captured group [\1].  The
    group runs to the end of the input ([$] without the [m] flag), so it is
    the input that follows the hyphen, provided [.+] matches all of it. *)
Definition numbered_name_capture (f : string) : option string :=
  match_pieces [Plus Digit; One (Lit "-")]
    (fun group =>
       match_pieces [Plus Dot]
         (fun rest => match rest with EmptyString => Some group | _ => None end)
         group)
    f.

Fixpoint no_line_terminator (s : string) : bool :=
  match s with
  | EmptyString => true
  | String c s' => negb (is_line_terminator c) && no_line_terminator s'
  end.

(** Plain-language reading of "the name begins with one or more ASCII digits
    immediately followed by a hyphen". *)
Fixpoint all_digits (s : string) : bool :=
  match s with
  | EmptyString => true
  | String c s' => is_digit c && all_digits s'
  end.

Definition begins_with_numeric_prefix (name : string) : Prop :=
  exists ds rest,
    ds <> "" /\ all_digits ds = true /\ name = ds ++ "-" ++ rest.

(** [t] is a suffix of [s]. *)
Definition is_suffix (t s : string) : Prop := exists p, s = p ++ t.

(** The same test as a boolean: skip the digit run, then look for the hyphen. *)
Fixpoint after_digits (s : string) : option string :=
  match s with
  | EmptyString => None
  | String c s' =>
      if is_digit c then after_digits s'
      else if Ascii.eqb c "-" then Some s' else None
  end.

Definition numeric_prefix_rest (name : string) : option string :=
  match name with
  | EmptyString => None
  | String c s' => if is_digit c then after_digits s' else None
  end.

Definition has_numeric_prefix (name : string) : bool :=
  match numeric_prefix_rest name with Some _ => true | None => false end.

(** ** Paths

    A path is the list of its segments below the root; the script only
    builds absolute paths, from [__dirname].  [path_join] is POSIX
    [path.join(base, rel)] for a normalised absolute [base]: the relative
    part is split at the slashes and normalised segment by segment. *)

Definition path : Type := list string.

Fixpoint split_slash (s : string) : list string :=
  match s with
  | EmptyString => [EmptyString]
  | String c s' =>
      if Ascii.eqb c "/" then EmptyString :: split_slash s'
      else
        match split_slash s' with
        | [] => [String c EmptyString]
        | seg :: segs => String c seg :: segs
        end
  end.

Definition path_step (p : path) (seg : string) : path :=
  if String.eqb seg "" then p
  else if String.eqb seg "." then p
  else if String.eqb seg ".." then removelast p
  else (p ++ [seg])%list.

Definition path_join (base : path) (rel : string) : path :=
  fold_left path_step (split_slash rel) base.

Definition path_eqb (p q : path) : bool :=
  if list_eq_dec string_dec p q then true else false.

Fixpoint is_prefix (p q : path) : bool :=
  match p, q with
  | [], _ => true
  | s :: p', t :: q' => String.eqb s t && is_prefix p' q'
  | _ :: _, [] => false
  end.

(** The path as the string handed to [git clone]. *)
Fixpoint render (p : path) : string :=
  match p with
  | [] => ""
  | s :: p' => "/" ++ s ++ render p'
  end.

(** A name as [readdir] can return it, and for which [path_join] appends
    one segment: not empty, not [.] or [..], and without a slash. *)
Fixpoint has_slash (s : string) : bool :=
  match s with
  | EmptyString => false
  | String c s' => Ascii.eqb c "/" || has_slash s'
  end.

Definition proper_name (s : string) : bool :=
  negb (String.eqb s "") && negb (String.eqb s ".")
  && negb (String.eqb s "..") && negb (has_slash s).

(** ** The file system

    Regular files and directories (no symbolic links, no permissions); a
    directory keeps its entries in the order [readdir] lists them. *)

Unset Elimination Schemes.
Inductive node : Type :=
| File (content : string)
| Dir (entries : list (string * node)).
Set Elimination Schemes.

Definition is_dir (n : node) : bool :=
  match n with Dir _ => true | File _ => false end.

Section Entries.
Variable A : Type.

Fixpoint assoc (k : string) (es : list (string * A)) : option A :=
  match es with
  | [] => None
  | (k', v) :: es' => if String.eqb k' k then Some v else assoc k es'
  end.

Definition remove_entry (k : string) (es : list (string * A)) : list (string * A) :=
  filter (fun e => negb (String.eqb (fst e) k)) es.

(** Replace the entry in place, or add it after the others. *)
Fixpoint set_entry (k : string) (v : A) (es : list (string * A)) : list (string * A) :=
  match es with
  | [] => [(k, v)]
  | (k', v') :: es' =>
      if String.eqb k' k then (k, v) :: es' else (k', v') :: set_entry k v es'
  end.
End Entries.

Arguments assoc {A} k es.
Arguments remove_entry {A} k es.
Arguments set_entry {A} k v es.

Fixpoint lookup (p : path) (n : node) : option node :=
  match p with
  | [] => Some n
  | s :: p' =>
      match n with
      | Dir es =>
          match assoc s es with
          | Some c => lookup p' c
          | None => None
          end
      | File _ => None
      end
  end.

(** Remove the node at [p], with all below it; nothing happens when there
    is none (and the root stays). *)
Fixpoint remove (p : path) (n : node) : node :=
  match p, n with
  | [], _ => n
  | _, File _ => n
  | [s], Dir es => Dir (remove_entry s es)
  | s :: p', Dir es =>
      match assoc s es with
      | Some c => Dir (set_entry s (remove p' c) es)
      | None => n
      end
  end.

(** Put [new] at [p], over what is there; the parent must be a directory. *)
Fixpoint put (p : path) (new : node) (n : node) : option node :=
  match p, n with
  | [], _ => None
  | _, File _ => None
  | [s], Dir es => Some (Dir (set_entry s new es))
  | s :: p', Dir es =>
      match assoc s es with
      | Some c =>
          match put p' new c with
          | Some c' => Some (Dir (set_entry s c' es))
          | None => None
          end
      | None => None
      end
  end.

(** A chain of fresh directories, and [mkdir -p]. *)
Fixpoint fresh_dirs (p : path) : node :=
  match p with
  | [] => Dir []
  | s :: p' => Dir [(s, fresh_dirs p')]
  end.

Fixpoint mkdir_p (p : path) (n : node) : option node :=
  match n with
  | File _ => None
  | Dir es =>
      match p with
      | [] => Some n
      | s :: p' =>
          match assoc s es with
          | Some c =>
              match mkdir_p p' c with
              | Some c' => Some (Dir (set_entry s c' es))
              | None => None
              end
          | None => Some (Dir (set_entry s (fresh_dirs p') es))
          end
      end
  end.

(** Recursive copy of [src] over [dst] ([None]: nothing there yet) with
    [force: true] and [errorOnExist: false]: files are overwritten,
    directories are merged, a file does not replace a directory nor a
    directory a file. *)
Fixpoint cp_onto (src : node) (dst : option node) : option node :=
  match src with
  | File c =>
      match dst with
      | Some (Dir _) => None
      | _ => Some (File c)
      end
  | Dir ses =>
      match dst with
      | Some (File _) => None
      | _ =>
          let des := match dst with Some (Dir des) => des | _ => [] end in
          option_map Dir
            ((fix copy_entries (ses : list (string * node))
                  (des : list (string * node)) : option (list (string * node)) :=
                match ses with
                | [] => Some des
                | (k, c) :: ses' =>
                    match cp_onto c (assoc k des) with
                    | Some c' => copy_entries ses' (set_entry k c' des)
                    | None => None
                    end
                end) ses des)
      end
  end.

(** Replace the node at [p], if there is one. *)
Fixpoint graft (p : path) (new : node) (n : node) : node :=
  match p, n with
  | [], _ => new
  | _, File _ => n
  | s :: p', Dir es =>
      match assoc s es with
      | Some c => Dir (set_entry s (graft p' new c) es)
      | None => n
      end
  end.

(** *** Trees and their normalised image *)

(** Every name of the tree below [n] with its numeric prefix stripped. *)
Fixpoint normalize (n : node) : node :=
  match n with
  | File c => File c
  | Dir es => Dir (map (fun e => (stripPrefix (fst e), normalize (snd e))) es)
  end.

(** Nesting depth: the number of directories on the longest chain. *)
Fixpoint depth (n : node) : nat :=
  match n with
  | File _ => 0
  | Dir es => S (list_max (map (fun e => depth (snd e)) es))
  end.

Fixpoint distinct (ks : list string) : bool :=
  match ks with
  | [] => true
  | k :: ks' => negb (existsb (String.eqb k) ks') && distinct ks'
  end.

(** A tree as a file system holds it: no name twice in a directory. *)
Fixpoint well_formed (n : node) : bool :=
  match n with
  | File _ => true
  | Dir es => distinct (map fst es) && forallb (fun e => well_formed (snd e)) es
  end.

(** The names of one directory normalise without a clash: no two of them
    have the same stripped name, and no stripped name is the name of
    another entry. *)
Definition clash_free (ks : list string) : bool :=
  distinct (map stripPrefix ks)
  && forallb (fun k =>
       forallb (fun k' => implb (String.eqb (stripPrefix k) k') (String.eqb k k')) ks)
     ks.

(** A tree without clashes, in which every stripped name is still a name. *)
Fixpoint tidy (n : node) : bool :=
  match n with
  | File _ => true
  | Dir es =>
      clash_free (map fst es)
      && forallb (fun e => proper_name (stripPrefix (fst e)) && tidy (snd e)) es
  end.

(** What is at a path: nothing, a directory, or a file with its content. *)
Inductive entry_kind : Type :=
| IsDir
| IsFile (content : string).

Definition kind_of (n : node) : entry_kind :=
  match n with
  | File c => IsFile c
  | Dir _ => IsDir
  end.

Definition kind_at (p : path) (n : node) : option entry_kind :=
  option_map kind_of (lookup p n).

(** The same paths, with the same kinds and contents. *)
Definition same_tree (a b : node) : Prop :=
  forall p, kind_at p a = kind_at p b.

(** ** The process: state, exceptions, exit *)

(** What [fs] and [process] calls throw. *)
Inductive exn : Type :=
| ENOENT | ENOTDIR | EISDIR | ENOTEMPTY | EINVAL | ERR_FS_CP.

(** The calls the script makes on [fs], [process] and [cross-spawn], in
    the order they are made (console output is not recorded). *)
Inductive event : Type :=
| EvExists (p : path)
| EvRm (p : path)
| EvSpawn (command : string) (args : list string)
| EvChdir (p : path)
| EvReaddir (p : path)
| EvRename (oldPath newPath : path)
| EvCp (src dst : path).

Record world : Type := {
  w_fs : node;
  w_cwd : path;
  w_log : list event
}.

(** How a computation ends: normally, by an uncaught exception, by
    [process.exit], or (in the model only) by running out of fuel. *)
Inductive outcome (A : Type) : Type :=
| Done (a : A)
| Thrown (e : exn)
| Exited (code : Z)
| Starved.

Arguments Done {A} a.
Arguments Thrown {A} e.
Arguments Exited {A} code.
Arguments Starved {A}.

Definition M (A : Type) : Type := world -> outcome A * world.

Definition ret {A : Type} (a : A) : M A := fun w => (Done a, w).

Definition bind {A B : Type} (m : M A) (f : A -> M B) : M B :=
  fun w =>
    match m w with
    | (Done a, w') => f a w'
    | (Thrown e, w') => (Thrown e, w')
    | (Exited c, w') => (Exited c, w')
    | (Starved, w') => (Starved, w')
    end.

Declare Scope proc_scope.
Delimit Scope proc_scope with proc.
Notation "x <- m ;; k" := (bind m (fun x => k))
  (at level 61, m at next level, right associativity) : proc_scope.
Notation "m ;; k" := (bind m (fun _ => k))
  (at level 61, right associativity) : proc_scope.
Local Open Scope proc_scope.

Definition throw {A : Type} (e : exn) : M A := fun w => (Thrown e, w).
Definition process_exit {A : Type} (code : Z) : M A := fun w => (Exited code, w).
Definition starve {A : Type} : M A := fun w => (Starved, w).

Definition logged (e : event) (w : world) : world :=
  {| w_fs := w_fs w; w_cwd := w_cwd w; w_log := (w_log w ++ [e])%list |}.

Definition with_fs (n : node) (w : world) : world :=
  {| w_fs := n; w_cwd := w_cwd w; w_log := w_log w |}.

Definition with_cwd (p : path) (w : world) : world :=
  {| w_fs := w_fs w; w_cwd := p; w_log := w_log w |}.

Definition emit (e : event) : M unit := fun w => (Done tt, logged e w).

Definition get_fs : M node := fun w => (Done (w_fs w), w).

Definition set_fs (n : node) : M unit := fun w => (Done tt, with_fs n w).

Definition set_cwd (p : path) : M unit := fun w => (Done tt, with_cwd p w).

Fixpoint for_each {A : Type} (items : list A) (body : A -> M unit) : M unit :=
  match items with
  | [] => ret tt
  | item :: items' => body item ;; for_each items' body
  end.

(** The exit code the operating system sees: 0 after a normal end, 1 after
    an uncaught exception, the argument of [process.exit] otherwise. *)
Definition exit_code {A : Type} (o : outcome A) : option Z :=
  match o with
  | Done _ => Some 0%Z
  | Thrown _ => Some 1%Z
  | Exited c => Some c
  | Starved => None
  end.

(** ** The [fs] and [process] calls *)

Definition existsSync (p : path) : M bool :=
  emit (EvExists p) ;;
  fs <- get_fs ;;
  ret (match lookup p fs with Some _ => true | None => false end).

(** [fs.rmSync(p, { recursive: true, force: true })] *)
Definition rmSync (p : path) : M unit :=
  emit (EvRm p) ;;
  fs <- get_fs ;;
  set_fs (remove p fs).

Definition chdir (p : path) : M unit :=
  emit (EvChdir p) ;;
  fs <- get_fs ;;
  match lookup p fs with
  | Some (Dir _) => set_cwd p
  | Some (File _) => throw ENOTDIR
  | None => throw ENOENT
  end.

Record Dirent : Type := { name : string; isDirectory : bool }.

Definition dirent_of (e : string * node) : Dirent :=
  {| name := fst e; isDirectory := is_dir (snd e) |}.

(** [fs.readdirSync(p, { withFileTypes: true })] *)
Definition readdirSync (p : path) : M (list Dirent) :=
  emit (EvReaddir p) ;;
  fs <- get_fs ;;
  match lookup p fs with
  | Some (Dir es) => ret (map dirent_of es)
  | Some (File _) => throw ENOTDIR
  | None => throw ENOENT
  end.

(** [rename(2)] on a tree: the source must exist; a directory is not moved
    below itself, and nothing onto a directory it lies in; an existing
    target is replaced when it is a file under a file or an empty directory
    under a directory. *)
Definition rename_in (oldPath newPath : path) (fs : node) : exn + node :=
  match lookup oldPath fs with
  | None => inl ENOENT
  | Some src =>
      if path_eqb oldPath newPath then inr fs
      else if is_dir src && is_prefix oldPath newPath then inl EINVAL
      else if is_prefix newPath oldPath then inl ENOTEMPTY
      else
        match lookup newPath fs, src with
        | Some (Dir _), File _ => inl EISDIR
        | Some (Dir (_ :: _)), Dir _ => inl ENOTEMPTY
        | Some (File _), Dir _ => inl ENOTDIR
        | _, _ =>
            match put newPath src (remove oldPath fs) with
            | Some fs' => inr fs'
            | None => inl ENOENT
            end
        end
  end.

Definition renameSync (oldPath newPath : path) : M unit :=
  emit (EvRename oldPath newPath) ;;
  fs <- get_fs ;;
  match rename_in oldPath newPath fs with
  | inr fs' => set_fs fs'
  | inl e => throw e
  end.

(** [fs.cpSync(src, dst, { recursive: true, force: true, errorOnExist: false })]:
    missing parents of the destination are created. *)
Definition cp_in (src dst : path) (fs : node) : exn + node :=
  match lookup src fs with
  | None => inl ENOENT
  | Some s =>
      if is_prefix src dst then inl EINVAL
      else
        match mkdir_p (removelast dst) fs with
        | None => inl ENOTDIR
        | Some fs1 =>
            match cp_onto s (lookup dst fs1) with
            | None => inl ERR_FS_CP
            | Some d =>
                match put dst d fs1 with
                | Some fs2 => inr fs2
                | None => inl ERR_FS_CP
                end
            end
        end
  end.

Definition cpSync (src dst : path) : M unit :=
  emit (EvCp src dst) ;;
  fs <- get_fs ;;
  match cp_in src dst fs with
  | inr fs' => set_fs fs'
  | inl e => throw e
  end.

(** What [spawn.sync] returns: the exit status ([null] when a signal ended
    the child), and [error] when the child could not be run. *)
Record spawn_result : Type := {
  status : option Z;
  error : option string
}.

(** ** The script *)

Section Script.

(** The directory of the script file. *)
Variable __dirname : path.

(** The environment: what running a command in a working directory does
    to the file system, and what it reports. *)
Variable spawn_sync :
  string -> list string -> path -> node -> spawn_result * node.

Definition dirname : path := path_join __dirname "../".
Definition cacheDir : path := path_join dirname ".cache/next".
Definition docsDir : path := path_join cacheDir "docs".

(** [spawn.sync(command, args, { stdio: "inherit" })] *)
Definition spawn (command : string) (args : list string) : M spawn_result :=
  emit (EvSpawn command args) ;;
  fun w =>
    let (result, fs') := spawn_sync command args (w_cwd w) (w_fs w) in
    (Done result, with_fs fs' w).

(** [function run(command, args)]: the process exits with code 1 when the
    result has an [error]; the [status] of the result is not looked at. *)
Definition run (command : string) (args : list string) : M unit :=
  result <- spawn command args ;;
  match error result with
  | Some _ => process_exit 1
  | None => ret tt
  end.

Definition clone_args : list string :=
  ["clone"; "--depth"; "1"; "--no-checkout";
   "https://github.com/vercel/next.js"; render cacheDir].

(** [function renameAll(dirPath)]: the directory is listed once, then each
    item is renamed if its stripped name gives another path, and entered
    under the new path if it is a directory.  The recursion follows the
    directories as they are on disk when it reaches them; [fuel] bounds
    its depth. *)
Fixpoint renameAll (fuel : nat) (dirPath : path) : M unit :=
  match fuel with
  | O => starve
  | S fuel' =>
      items <- readdirSync dirPath ;;
      for_each items (fun item =>
        let oldPath := path_join dirPath (name item) in
        let newName := stripPrefix (name item) in
        let newPath := path_join dirPath newName in
        (if negb (path_eqb oldPath newPath)
         then renameSync oldPath newPath
         else ret tt) ;;
        (if isDirectory item
         then renameAll fuel' newPath
         else ret tt))
  end.

Definition contentPath : path := path_join dirname "src/content/docs".
Definition docsPath : path := path_join dirname "src/content/docs/docs".

(** The first half of the script: cache reset, clone, [process.chdir] and
    the two other [git] commands. *)
Definition fetch : M unit :=
  cached <- existsSync cacheDir ;;
  (if cached then rmSync cacheDir else ret tt) ;;
  run "git" clone_args ;;
  chdir cacheDir ;;
  run "git" ["sparse-checkout"; "set"; "docs"] ;;
  run "git" ["checkout"].

(** The second half: [renameAll(docsDir)], destination reset and copy. *)
Definition publish (fuel : nat) : M unit :=
  renameAll fuel docsDir ;;
  published <- existsSync docsPath ;;
  (if published then rmSync docsPath else ret tt) ;;
  cpSync docsDir docsPath.

(** The script, top to bottom. *)
Definition main (fuel : nat) : M unit :=
  fetch ;; publish fuel.

End Script.

(** ** Sample environments

    A project at [/proj] with the script in [/proj/scripts] and a page
    published by an earlier run, and three [git] executables. *)

Definition script_dir : path := ["proj"; "scripts"].

Definition project : node :=
  Dir [("proj",
        Dir [("scripts", Dir [("sync.mjs", File "")]);
             ("src",
              Dir [("content",
                    Dir [("docs",
                          Dir [("docs", Dir [("old.mdx", File "old")])])])])])].

Definition start : world :=
  {| w_fs := project; w_cwd := ["proj"]; w_log := [] |}.

(** [mkdir -p] of the parent, then the node itself. *)
Definition place (p : path) (n : node) (fs : node) : node :=
  match mkdir_p (removelast p) fs with
  | Some fs1 =>
      match put p n fs1 with
      | Some fs2 => fs2
      | None => fs
      end
  | None => fs
  end.

Definition upstream_docs : node :=
  Dir [("01-app",
        Dir [("01-getting-started",
              Dir [("01-installation.mdx", File "install")]);
             ("index.mdx", File "index")]);
       ("02-pages", Dir [("01-routing.mdx", File "routing")])].

Definition exited (code : Z) : spawn_result :=
  {| status := Some code; error := None |}.

(** A [git] that does what it is asked, and reports the given statuses for
    the clone and for [sparse-checkout]: the clone creates the repository
    in the cache directory of the sample project, the checkout fills
    [docs] below the working directory. *)
Definition git_of (docs : node) (clone_status sparse_status : Z)
    (command : string) (args : list string) (cwd : path) (fs : node)
  : spawn_result * node :=
  match args with
  | "clone" :: _ =>
      (exited clone_status,
       place ["proj"; ".cache"; "next"] (Dir [(".git", Dir [])]) fs)
  | "sparse-checkout" :: _ => (exited sparse_status, fs)
  | "checkout" :: _ => (exited 0, place (cwd ++ ["docs"])%list docs fs)
  | _ => (exited 1, fs)
  end.

(** No [git] on the path: nothing can be launched. *)
Definition no_git (command : string) (args : list string) (cwd : path)
    (fs : node) : spawn_result * node :=
  ({| status := None; error := Some "ENOENT" |}, fs).

(** A clone that reports failure and leaves nothing behind. *)
Definition unreachable_git (command : string) (args : list string)
    (cwd : path) (fs : node) : spawn_result * node :=
  (exited 128, fs).

(** A checkout in which one stripped name is the name of a sibling, listed
    in the order [readdir] gives on POSIX (by byte value). *)
Definition colliding_docs : node :=
  Dir [("1-2-a", File "first"); ("2-a", File "second")].

(** A checkout in which two entries have the same stripped name. *)
Definition twin_docs : node :=
  Dir [("1-a", File "first"); ("2-a", File "second")].

(** A checkout with a numbered directory and, listed after it, a stray
    entry whose name is a number and a hyphen. *)
Definition stray_docs : node :=
  Dir [("01-app", Dir [("01-page.mdx", File "page")]);
       ("123-", File "stray")].

(** ** The vocabulary of the properties *)

(** The [spawn.sync] calls in a log, in order. *)
Definition spawn_calls (log : list event) : list (string * list string) :=
  flat_map (fun e => match e with
                     | EvSpawn command args => [(command, args)]
                     | _ => []
                     end) log.

(** A computation that runs no command. *)
Definition quiet {A : Type} (m : M A) : Prop :=
  forall w, spawn_calls (w_log (snd (m w))) = spawn_calls (w_log w).

(** The three [git] command lines of the script. *)
Definition git_invocations (__dirname : path) : list (string * list string) :=
  [("git", ["clone"; "--depth"; "1"; "--no-checkout";
            "https://github.com/vercel/next.js"; render (cacheDir __dirname)]);
   ("git", ["sparse-checkout"; "set"; "docs"]);
   ("git", ["checkout"])].

(** A call of [renameAll] is justified by the calls before it when it is
    - the renaming of an entry [name] (a name as a directory holds it) of
      a directory [d] listed before, whose stripped name is another name,
      from [d/name] to the join of [d] and the stripped name, which is
      [d/stripPrefix(name)] whenever the stripped name is still a name, or
    - the listing of [d/stripPrefix(name)] for such an entry whose
      stripped name is still a name: either the entry did not need a
      renaming, or the call right before the listing is the renaming of
      [d/name] to the very path that is listed. *)
Definition justified (hist : list event) (e : event) : Prop :=
  match e with
  | EvRename oldPath newPath =>
      exists d name,
        In (EvReaddir d) hist
        /\ proper_name name = true
        /\ stripPrefix name <> name
        /\ oldPath = (d ++ [name])%list
        /\ newPath = path_join d (stripPrefix name)
        /\ (proper_name (stripPrefix name) = true ->
            newPath = (d ++ [stripPrefix name])%list)
  | EvReaddir p =>
      exists d name,
        In (EvReaddir d) hist
        /\ proper_name name = true
        /\ proper_name (stripPrefix name) = true
        /\ p = (d ++ [stripPrefix name])%list
        /\ (stripPrefix name = name
            \/ exists h, hist = (h ++ [EvRename (d ++ [name]) p])%list)
  | _ => False
  end.

(** Every call of the trace is justified by the history before it. *)
Fixpoint top_down (hist : list event) (tr : list event) : Prop :=
  match tr with
  | [] => True
  | e :: tr' => justified hist e /\ top_down (hist ++ [e]) tr'
  end.

(** The calls of one [renameAll] that has fuel to start: the listing of
    the directory, followed by justified calls only. *)
Definition renames_top_down (dirPath : path) (tr : list event) : Prop :=
  exists tr', tr = EvReaddir dirPath :: tr' /\ top_down [EvReaddir dirPath] tr'.

(** The calls of a top-down renaming of the tree [T] found at [d], as the
    specification words it: [d] is listed; then, for each entry in the
    order of the listing, the entry is renamed if stripping changes its
    name, and after that, if it is a directory, its own tree is dealt
    with in the same way under the new path. *)
Fixpoint top_down_calls (d : path) (T : node) : list event :=
  match T with
  | File _ => []
  | Dir es =>
      EvReaddir d ::
      flat_map (fun e =>
        (if String.eqb (stripPrefix (fst e)) (fst e) then []
         else [EvRename (d ++ [fst e]) (d ++ [stripPrefix (fst e)])])
        ++ top_down_calls (d ++ [stripPrefix (fst e)]) (snd e))%list es
  end.

(** The entries of a directory once the loop has dealt with the entry [k],
    whose node has become [c']. *)
Definition entries_after (k : string) (c' : node)
    (cur : list (string * node)) : list (string * node) :=
  set_entry (stripPrefix k) c'
    (if String.eqb (stripPrefix k) k then cur else remove_entry k cur).

(** The tree at [d] has been replaced by a well-formed tree with the paths
    and contents of the normalised [T]; nothing else has changed. *)
Definition renamed_to (d : path) (T : node) (w w' : world) : Prop :=
  exists T',
    w_fs w' = graft d T' (w_fs w)
    /\ same_tree T' (normalize T)
    /\ well_formed T' = true
    /\ is_dir T' = true.

(** Between two rounds: the entries still to do are as they were, the
    entries done are under their stripped names, renamed below, and there
    is nothing else in the directory. *)
Definition between (done todo cur : list (string * node)) : Prop :=
  NoDup (map fst cur)
  /\ (forall k c, In (k, c) todo -> assoc k cur = Some c)
  /\ (forall k c, In (k, c) done ->
        exists c', assoc (stripPrefix k) cur = Some c'
                   /\ same_tree c' (normalize c)
                   /\ well_formed c' = true)
  /\ (forall x, assoc x cur <> None ->
        In x (map fst todo) \/ In x (map stripPrefix (map fst done))).

(** [D] is the segment-wise normalised image of [T]: every path of [T],
    with each segment stripped, is a path of [D] to a node of the same kind
    and content, and [D] has no other path. *)
Definition normalized_image (T D : node) : Prop :=
  (forall p n, lookup p T = Some n ->
     kind_at (map stripPrefix p) D = Some (kind_of n))
  /\ (forall q, lookup q D <> None ->
        exists p, lookup p T <> None /\ q = map stripPrefix p).


(** ** More vocabulary: names, places, steps *)

(** Every name in the tree is one a directory can hold. *)
Fixpoint proper_names (n : node) : bool :=
  match n with
  | File _ => true
  | Dir es => forallb (fun e => proper_name (fst e) && proper_names (snd e)) es
  end.

(** No name in the tree carries a numeric prefix. *)
Fixpoint settled (n : node) : bool :=
  match n with
  | File _ => true
  | Dir es =>
      forallb (fun e => negb (has_numeric_prefix (fst e)) && settled (snd e)) es
  end.

(** Two places of which neither lies in the other. *)
Definition apart (p q : path) : bool :=
  negb (is_prefix p q) && negb (is_prefix q p).

(** The first statement of the script (lines 79 to 82): the cache of an
    earlier run is removed. *)
Definition reset_cache (__dirname : path) : M unit :=
  cached <- existsSync (cacheDir __dirname) ;;
  (if cached then rmSync (cacheDir __dirname) else ret tt).

(** What follows the cache reset in the first half of the script. *)
Definition after_reset (__dirname : path)
    (spawn_sync : string -> list string -> path -> node -> spawn_result * node)
  : M unit :=
  run spawn_sync "git" (clone_args __dirname) ;;
  chdir (cacheDir __dirname) ;;
  run spawn_sync "git" ["sparse-checkout"; "set"; "docs"] ;;
  run spawn_sync "git" ["checkout"].

(** The script up to the end of the renaming, before it turns to the
    destination. *)
Definition before_publishing (__dirname : path)
    (spawn_sync : string -> list string -> path -> node -> spawn_result * node)
    (fuel : nat) : M unit :=
  fetch __dirname spawn_sync ;; renameAll fuel (docsDir __dirname).

(** A computation that ends the process, if it does, with exit code 1. *)
Definition exits_with_1 {A : Type} (m : M A) : Prop :=
  forall w c, fst (m w) = Exited c -> c = 1%Z.

(** A computation that keeps a property of the file system. *)
Definition keeps {A : Type} (P : node -> Prop) (m : M A) : Prop :=
  forall w, P (w_fs w) -> P (w_fs (snd (m w))).

(** An event that is a renaming. *)
Definition is_rename (e : event) : bool :=
  match e with EvRename _ _ => true | _ => false end.

(** The world after some more calls that left the tree as it was. *)
Definition later (tr : list event) (w : world) : world :=
  {| w_fs := w_fs w; w_cwd := w_cwd w; w_log := (w_log w ++ tr)%list |}.

(** The depth of what is at a place; 0 when nothing is there. *)
Definition depth_at (p : path) (fs : node) : nat :=
  match lookup p fs with
  | Some n => depth n
  | None => 0
  end.

(** From [fs] to [fs'] only the node at [d] has changed, it has not grown
    deeper, and the names are proper. *)
Definition shrinks (d : path) (fs fs' : node) : Prop :=
  proper_names fs' = true
  /\ (exists new, fs' = graft d new fs)
  /\ depth_at d fs' <= depth_at d fs.

(** * Name normalisation: what [stripPrefix] computes *)

Section StripPrefix.

Lemma digit_not_hyphen (c : ascii) :
  is_digit c = true -> Ascii.eqb c "-" = false.
Proof.
  intros Hd. destruct (Ascii.eqb_spec c "-") as [->|]; [discriminate Hd | reflexivity].
Qed.

(** After the first digit the greedy loop and its fallback together behave
    like one scan over the digit run. *)
Lemma match_plus_digits {R : Type} (k : string -> option R) (s : string) :
  let K := match_pieces [One (Lit "-")] k in
  match match_plus Digit K s with
  | Some r => Some r
  | None => K s
  end
  = match after_digits s with Some rest => k rest | None => None end.
Proof.
  intros K. induction s as [|c s IH]; [reflexivity|].
  cbn [match_plus atom_matches after_digits].
  destruct (is_digit c) eqn:Hc.
  - rewrite IH. subst K. cbn [match_pieces atom_matches].
    rewrite (digit_not_hyphen _ Hc).
    destruct (after_digits s) as [rest|]; [destruct (k rest)|]; reflexivity.
  - subst K. cbn [match_pieces atom_matches].
    destruct (Ascii.eqb c "-"); reflexivity.
Qed.

Lemma match_numeric_prefix {R : Type} (k : string -> option R) (s : string) :
  match_pieces numeric_prefix k s
  = match numeric_prefix_rest s with Some rest => k rest | None => None end.
Proof.
  destruct s as [|c s]; [reflexivity|].
  unfold numeric_prefix. cbn [match_pieces match_plus numeric_prefix_rest atom_matches].
  destruct (is_digit c); [|reflexivity].
  apply (match_plus_digits k s).
Qed.

(** [stripPrefix] drops the digit run and the hyphen, or nothing. *)
Lemma stripPrefix_rest (name : string) :
  stripPrefix name
  = match numeric_prefix_rest name with Some rest => rest | None => name end.
Proof.
  unfold stripPrefix, replace_at_start, exec_at_start.
  rewrite match_numeric_prefix.
  destruct (numeric_prefix_rest name); reflexivity.
Qed.

Lemma after_digits_split (s rest : string) :
  after_digits s = Some rest ->
  exists ds, all_digits ds = true /\ s = ds ++ "-" ++ rest.
Proof.
  revert rest. induction s as [|c s IH]; intros rest H; [discriminate|].
  cbn [after_digits] in H. destruct (is_digit c) eqn:Hc.
  - destruct (IH _ H) as (ds & Hds & ->).
    exists (String c ds). cbn [all_digits]. rewrite Hc, Hds. split; reflexivity.
  - destruct (Ascii.eqb_spec c "-") as [->|]; [|discriminate].
    injection H as <-. exists "". split; reflexivity.
Qed.

Lemma after_digits_append (ds rest : string) :
  all_digits ds = true -> after_digits (ds ++ "-" ++ rest) = Some rest.
Proof.
  induction ds as [|c ds IH]; intros H; [reflexivity|].
  cbn [all_digits] in H. apply andb_true_iff in H as [Hc Hds].
  cbn [append after_digits]. rewrite Hc. exact (IH Hds).
Qed.

Lemma numeric_prefix_rest_split (name rest : string) :
  numeric_prefix_rest name = Some rest ->
  exists ds, ds <> "" /\ all_digits ds = true /\ name = ds ++ "-" ++ rest.
Proof.
  destruct name as [|c s]; [discriminate|].
  cbn [numeric_prefix_rest]. destruct (is_digit c) eqn:Hc; [|discriminate].
  intros H. destruct (after_digits_split _ _ H) as (ds & Hds & ->).
  exists (String c ds). cbn [all_digits]. rewrite Hc, Hds.
  repeat split. discriminate.
Qed.

Lemma numeric_prefix_rest_append (ds rest : string) :
  ds <> "" -> all_digits ds = true ->
  numeric_prefix_rest (ds ++ "-" ++ rest) = Some rest.
Proof.
  destruct ds as [|c ds]; [congruence|]. intros _ H.
  cbn [all_digits] in H. apply andb_true_iff in H as [Hc Hds].
  cbn [append numeric_prefix_rest]. rewrite Hc.
  exact (after_digits_append ds rest Hds).
Qed.

(** The boolean test decides the plain-language reading. *)
Lemma has_numeric_prefix_iff (name : string) :
  has_numeric_prefix name = true <-> begins_with_numeric_prefix name.
Proof.
  unfold has_numeric_prefix, begins_with_numeric_prefix. split.
  - destruct (numeric_prefix_rest name) as [rest|] eqn:E; [|discriminate].
    intros _. destruct (numeric_prefix_rest_split _ _ E) as (ds & H1 & H2 & H3).
    exists ds, rest. auto.
  - intros (ds & rest & H1 & H2 & ->).
    rewrite (numeric_prefix_rest_append ds rest H1 H2). reflexivity.
Qed.

Lemma has_numeric_prefix_false (name : string) :
  has_numeric_prefix name = false <-> ~ begins_with_numeric_prefix name.
Proof.
  rewrite <- has_numeric_prefix_iff.
  destruct (has_numeric_prefix name); split; congruence.
Qed.

Lemma length_append (s t : string) :
  String.length (s ++ t) = String.length s + String.length t.
Proof. induction s as [|c s IH]; cbn; [reflexivity | now rewrite IH]. Qed.

Lemma append_assoc (s t u : string) : (s ++ t) ++ u = s ++ t ++ u.
Proof. induction s as [|c s IH]; cbn; [reflexivity | now rewrite IH]. Qed.

(** A name without the prefix is returned as it is. *)
Lemma stripPrefix_unprefixed (name : string) :
  has_numeric_prefix name = false -> stripPrefix name = name.
Proof.
  unfold has_numeric_prefix. rewrite stripPrefix_rest.
  destruct (numeric_prefix_rest name); [discriminate | reflexivity].
Qed.

(** A name with the prefix loses exactly the digits and the hyphen. *)
Lemma stripPrefix_prefixed (ds rest : string) :
  ds <> "" -> all_digits ds = true -> stripPrefix (ds ++ "-" ++ rest) = rest.
Proof.
  intros H1 H2. rewrite stripPrefix_rest.
  now rewrite (numeric_prefix_rest_append ds rest H1 H2).
Qed.

Lemma stripPrefix_fixed_iff (name : string) :
  stripPrefix name = name <-> has_numeric_prefix name = false.
Proof.
  split; [|apply stripPrefix_unprefixed].
  unfold has_numeric_prefix. rewrite stripPrefix_rest.
  destruct (numeric_prefix_rest name) as [rest|] eqn:E; [|reflexivity].
  intros ->. exfalso.
  destruct (numeric_prefix_rest_split _ _ E) as (ds & H1 & _ & H3).
  apply (f_equal String.length) in H3.
  rewrite length_append in H3. cbn in H3.
  destruct ds; [congruence|]. cbn in H3. lia.
Qed.

(** [.+$]: at least one character, none of them a line terminator. *)
Lemma match_dot_plus_end {R : Type} (r : R) (s : string) :
  match_plus Dot (fun rest => match rest with EmptyString => Some r | _ => None end) s
  = if negb (String.eqb s "") && no_line_terminator s then Some r else None.
Proof.
  induction s as [|c s IH]; [reflexivity|].
  cbn [match_plus atom_matches no_line_terminator]. rewrite IH.
  destruct (is_line_terminator c); cbn; [reflexivity|].
  destruct s as [|d s]; [reflexivity|]. cbn.
  now destruct (negb (is_line_terminator d) && no_line_terminator s).
Qed.

(** What matching [^[0-9]+-(.+)$] means: digits, a hyphen, and a non-empty
    rest without line terminators, which is the group. *)
Lemma numbered_name_capture_spec (f group : string) :
  numbered_name_capture f = Some group
  <-> exists ds,
        ds <> "" /\ all_digits ds = true /\ f = ds ++ "-" ++ group
        /\ group <> "" /\ no_line_terminator group = true.
Proof.
  unfold numbered_name_capture. fold numeric_prefix.
  rewrite match_numeric_prefix. split.
  - destruct (numeric_prefix_rest f) as [rest|] eqn:E; [|discriminate].
    cbn [match_pieces]. rewrite match_dot_plus_end.
    destruct (String.eqb_spec rest "") as [->|Hne]; cbn [negb andb]; [discriminate|].
    destruct (no_line_terminator rest) eqn:Hlt; [|discriminate].
    intros [= <-]. destruct (numeric_prefix_rest_split _ _ E) as (ds & H1 & H2 & H3).
    exists ds. auto.
  - intros (ds & H1 & H2 & -> & H4 & H5).
    rewrite (numeric_prefix_rest_append ds group H1 H2).
    cbn [match_pieces]. rewrite match_dot_plus_end, H5.
    destruct (String.eqb_spec group ""); [contradiction | reflexivity].
Qed.

End StripPrefix.

(** C3, as stated, fails: a name with two numeric prefixes loses only the
    first, and what is left still matches the pattern. *)
Lemma stripPrefix_not_idempotent :
  stripPrefix (stripPrefix "1-2-a") <> stripPrefix "1-2-a"
  /\ stripPrefix "1-2-a" = "2-a"
  /\ exec_at_start numeric_prefix (stripPrefix "1-2-a") = Some "a".
Proof. repeat split. discriminate. Qed.

(** C3, amended: [stripPrefix] removes one numeric prefix, so a second pass
    changes nothing exactly when the first result no longer begins with
    digits and a hyphen. *)
Theorem stripPrefix_twice (n : string) :
  stripPrefix (stripPrefix n) = stripPrefix n
  <-> ~ begins_with_numeric_prefix (stripPrefix n).
Proof.
  rewrite stripPrefix_fixed_iff. apply has_numeric_prefix_false.
Qed.

(** C4, as stated, fails: ["123-"] does not match [^[0-9]+-(.+)$] (the
    group needs a character), yet it is changed, to the empty name. *)
Lemma stripPrefix_changes_unmatched :
  numbered_name_capture "123-" = None
  /\ stripPrefix "123-" <> "123-"
  /\ stripPrefix "123-" = "".
Proof. repeat split. discriminate. Qed.

(** C4, amended: every name that does not begin with one or more digits and
    a hyphen (the pattern [^[0-9]+-]) is returned unchanged. *)
Theorem stripPrefix_identity (name : string) :
  ~ begins_with_numeric_prefix name -> stripPrefix name = name.
Proof.
  intros H. apply stripPrefix_unprefixed, has_numeric_prefix_false, H.
Qed.

Lemma stripPrefix_identity_witness :
  stripPrefix "README.mdx" = "README.mdx".
Proof.
  apply (stripPrefix_identity "README.mdx").
  apply has_numeric_prefix_false. reflexivity.
Defined.

(** C5: when a name matches [^[0-9]+-(.+)$], [stripPrefix] returns the
    captured group: all that follows the first run of digits and its
    hyphen, extension included. *)
Theorem stripPrefix_captured_group (f group : string) :
  numbered_name_capture f = Some group ->
  stripPrefix f = group
  /\ exists ds, ds <> "" /\ all_digits ds = true /\ f = ds ++ "-" ++ group.
Proof.
  intros H.
  apply numbered_name_capture_spec in H as (ds & Hne & Hds & -> & _ & _).
  split.
  - now apply stripPrefix_prefixed.
  - exists ds. auto.
Qed.

Lemma stripPrefix_captured_group_witness :
  stripPrefix "01-install.mdx" = "install.mdx"
  /\ exists ds, ds <> "" /\ all_digits ds = true
                /\ "01-install.mdx" = ds ++ "-" ++ "install.mdx".
Proof.
  apply (stripPrefix_captured_group "01-install.mdx" "install.mdx").
  reflexivity.
Defined.

(** C9: the result of [stripPrefix] is a suffix of the name, never longer,
    and as long exactly when the name does not begin with digits and a
    hyphen; a name whose first character is not a digit (or that is empty)
    is a fixed point. *)
Theorem stripPrefix_suffix (name : string) :
  is_suffix (stripPrefix name) name
  /\ String.length (stripPrefix name) <= String.length name
  /\ (String.length (stripPrefix name) = String.length name
      <-> ~ begins_with_numeric_prefix name)
  /\ (match name with
      | EmptyString => True
      | String c _ => is_digit c = false
      end -> stripPrefix name = name).
Proof.
  assert (Hsuf : is_suffix (stripPrefix name) name).
  { rewrite stripPrefix_rest.
    destruct (numeric_prefix_rest name) as [rest|] eqn:E.
    - destruct (numeric_prefix_rest_split _ _ E) as (ds & _ & _ & ->).
      exists (ds ++ "-"). now rewrite append_assoc.
    - now exists "". }
  assert (Hlen : String.length (stripPrefix name) <= String.length name).
  { destruct Hsuf as [p Hp]. rewrite Hp at 2. rewrite length_append. lia. }
  repeat split; trivial.
  - intros Heq. apply has_numeric_prefix_false.
    unfold has_numeric_prefix.
    destruct (numeric_prefix_rest name) as [rest|] eqn:E; [exfalso|reflexivity].
    rewrite stripPrefix_rest, E in Heq.
    destruct (numeric_prefix_rest_split _ _ E) as (ds & _ & _ & ->).
    rewrite !length_append in Heq. cbn in Heq. lia.
  - intros H. rewrite stripPrefix_unprefixed; [reflexivity|].
  now apply has_numeric_prefix_false.
  - intros H. apply stripPrefix_unprefixed. unfold has_numeric_prefix.
    destruct name as [|c s]; [reflexivity|]. cbn. now rewrite H.
Qed.

(** The two naming scenarios of the specification, and the paths of the
    sample project. *)
Example numbered_path_scenario :
  map stripPrefix ["10-getting-started"; "01-install.mdx"]
  = ["getting-started"; "install.mdx"].
Proof. reflexivity. Qed.

Example unnumbered_name_scenario : stripPrefix "README.mdx" = "README.mdx".
Proof. reflexivity. Qed.

Example sample_paths :
  dirname script_dir = ["proj"]
  /\ cacheDir script_dir = ["proj"; ".cache"; "next"]
  /\ docsDir script_dir = ["proj"; ".cache"; "next"; "docs"]
  /\ docsPath script_dir = ["proj"; "src"; "content"; "docs"; "docs"]
  /\ render (cacheDir script_dir) = "/proj/.cache/next".
Proof. repeat split. Qed.

(** * The pipeline: which commands are run *)

Lemma spawn_calls_app (l1 l2 : list event) :
  spawn_calls (l1 ++ l2) = (spawn_calls l1 ++ spawn_calls l2)%list.
Proof. apply flat_map_app. Qed.

Lemma quiet_ret {A : Type} (a : A) : quiet (ret a).
Proof. intros w. reflexivity. Qed.

Lemma quiet_bind {A B : Type} (m : M A) (f : A -> M B) :
  quiet m -> (forall a, quiet (f a)) -> quiet (bind m f).
Proof.
  intros Hm Hf w. unfold bind. specialize (Hm w).
  destruct (m w) as [[a|e|c|] w1]; cbn [snd] in *; trivial.
  now rewrite Hf.
Qed.

Lemma quiet_existsSync (p : path) : quiet (existsSync p).
Proof.
  intros w. unfold existsSync, bind, emit, get_fs. cbn.
  rewrite spawn_calls_app. apply app_nil_r.
Qed.

Lemma quiet_rmSync (p : path) : quiet (rmSync p).
Proof.
  intros w. unfold rmSync, bind, emit, get_fs. cbn.
  rewrite spawn_calls_app. apply app_nil_r.
Qed.

Lemma quiet_chdir (p : path) : quiet (chdir p).
Proof.
  intros w. unfold chdir, bind, emit, get_fs. cbn.
  destruct (lookup p (w_fs w)) as [[]|]; cbn; rewrite spawn_calls_app; apply app_nil_r.
Qed.

Lemma quiet_readdirSync (p : path) : quiet (readdirSync p).
Proof.
  intros w. unfold readdirSync, bind, emit, get_fs. cbn.
  destruct (lookup p (w_fs w)) as [[]|]; cbn; rewrite spawn_calls_app; apply app_nil_r.
Qed.

Lemma quiet_renameSync (p q : path) : quiet (renameSync p q).
Proof.
  intros w. unfold renameSync, bind, emit, get_fs. cbn.
  destruct (rename_in p q (w_fs w)); cbn; rewrite spawn_calls_app; apply app_nil_r.
Qed.

Lemma quiet_cpSync (p q : path) : quiet (cpSync p q).
Proof.
  intros w. unfold cpSync, bind, emit, get_fs. cbn.
  destruct (cp_in p q (w_fs w)); cbn; rewrite spawn_calls_app; apply app_nil_r.
Qed.

Lemma quiet_for_each {A : Type} (items : list A) (body : A -> M unit) :
  (forall item, quiet (body item)) -> quiet (for_each items body).
Proof.
  intros H. induction items as [|item items IH]; cbn [for_each].
  - apply quiet_ret.
  - apply quiet_bind; [apply H | intros _; exact IH].
Qed.

Section Commands.

Variable __dirname : path.
Variable spawn_sync :
  string -> list string -> path -> node -> spawn_result * node.

Lemma quiet_renameAll (fuel : nat) (dirPath : path) :
  quiet (renameAll fuel dirPath).
Proof.
  revert dirPath. induction fuel as [|fuel IH]; intros dirPath; cbn [renameAll].
  - intros w; reflexivity.
  - apply quiet_bind; [apply quiet_readdirSync|]. intros items.
    apply quiet_for_each. intros item.
    apply quiet_bind.
    + destruct (negb _); [apply quiet_renameSync | apply quiet_ret].
    + intros _. destruct (isDirectory item); [apply IH | apply quiet_ret].
Qed.

Lemma quiet_publish (fuel : nat) : quiet (publish __dirname fuel).
Proof.
  unfold publish.
  apply quiet_bind; [apply quiet_renameAll|]. intros _.
  apply quiet_bind; [apply quiet_existsSync|]. intros published.
  apply quiet_bind; [|intros _; apply quiet_cpSync].
  destruct published; [apply quiet_rmSync | apply quiet_ret].
Qed.

(** [run] makes its one call, and ends the process only when the result
    carries an [error]. *)
Lemma run_calls (command : string) (args : list string) (w : world) :
  let r := run spawn_sync command args w in
  spawn_calls (w_log (snd r))
  = (spawn_calls (w_log w) ++ [(command, args)])%list
  /\ (fst r = Done tt \/ fst r = Exited 1).
Proof.
  unfold run, spawn, bind, emit. cbn.
  destruct (spawn_sync command args (w_cwd w) (w_fs w)) as [result fs'].
  destruct (error result); cbn; rewrite spawn_calls_app; auto.
Qed.

End Commands.

Section Invocations.

Variable __dirname : path.
Variable spawn_sync :
  string -> list string -> path -> node -> spawn_result * node.

Local Abbreviation cache := (cacheDir __dirname).

Local Abbreviation three_calls := (git_invocations __dirname).

(** Take the next call of the sequence in [E] apart, with what its lemma
    says about the calls logged so far. *)
Local Ltac next_call E lem H :=
  match type of E with
  | context [match ?m ?w with _ => _ end] =>
      pose proof (lem w) as H; cbv zeta in H;
      destruct (m w) as [[[]|?|?|] ?]; cbn [fst snd] in H
  end.

Local Ltac calls_so_far E l :=
  injection E as <- <-; exists l;
  repeat match goal with
         | H : spawn_calls (w_log _) = _ |- _ => rewrite H; clear H
         end;
  rewrite <- ?app_assoc, ?app_nil_r;
  split; [reflexivity | split; [eexists; reflexivity | try discriminate]].

Lemma fetch_calls (w w' : world) (o : outcome unit) :
  fetch __dirname spawn_sync w = (o, w') ->
  exists l,
    spawn_calls (w_log w') = (spawn_calls (w_log w) ++ l)%list
    /\ (exists rest, three_calls = (l ++ rest)%list)
    /\ (o = Done tt -> l = three_calls).
Proof.
  intros E. unfold fetch, bind in E.
  pose proof (quiet_existsSync cache w) as H0.
  destruct (existsSync cache w) as [[cached|?|?|] w0]; cbn [fst snd] in H0;
    try solve [calls_so_far E (@nil (string * list string))].
  assert (Hreset : exists w1 o1,
             (if cached then rmSync cache else ret tt) w0 = (o1, w1)
             /\ spawn_calls (w_log w1) = spawn_calls (w_log w)).
  { destruct cached.
    - pose proof (quiet_rmSync cache w0) as H.
      destruct (rmSync cache w0) as [o1 w1]. exists w1, o1. cbn in H. split; congruence.
    - exists w0, (Done tt). split; [reflexivity | exact H0]. }
  destruct Hreset as (w1 & o1 & E1 & H1). rewrite E1 in E. clear H0 E1.
  destruct o1 as [[]|?|?|];
    try solve [calls_so_far E (@nil (string * list string))].
  next_call E (run_calls spawn_sync "git" (clone_args __dirname)) H.
  all: destruct H as [Hc Ho]; try (destruct Ho; discriminate); clear Ho.
  2: { calls_so_far E [("git", clone_args __dirname)]. }
  pose proof (quiet_chdir cache w2) as Hcd.
  destruct (chdir cache w2) as [[[]|?|?|] w3]; cbn [fst snd] in Hcd;
    rewrite Hc in Hcd; clear Hc;
    try solve [calls_so_far E [("git", clone_args __dirname)]].
  next_call E (run_calls spawn_sync "git" ["sparse-checkout"; "set"; "docs"]) H.
  all: destruct H as [Hs Ho]; try (destruct Ho; discriminate);
    rewrite Hcd in Hs; clear Hcd Ho.
  2: { calls_so_far E [("git", clone_args __dirname);
                       ("git", ["sparse-checkout"; "set"; "docs"])]. }
  pose proof (run_calls spawn_sync "git" ["checkout"] w4) as [Hk _].
  rewrite E in Hk. cbn [snd] in Hk. rewrite Hs in Hk. clear Hs.
  exists three_calls. rewrite Hk, H1, <- !app_assoc.
  split; [reflexivity | split; [exists []; reflexivity | reflexivity]].
Qed.

End Invocations.

(** * The pipeline: failing commands *)

Section Failures.

Variable __dirname : path.
Variable spawn_sync :
  string -> list string -> path -> node -> spawn_result * node.

(** A command that cannot be launched ends the process at once, with
    exit code 1. *)
Lemma run_error_exits (command : string) (args : list string) (w : world) :
  let result := spawn_sync command args (w_cwd w) (w_fs w) in
  error (fst result) <> None ->
  run spawn_sync command args w
  = (Exited 1, with_fs (snd result) (logged (EvSpawn command args) w)).
Proof.
  intros result H. subst result. unfold run, spawn, bind, emit. cbn.
  destruct (spawn_sync command args (w_cwd w) (w_fs w)) as [result fs'].
  cbn in *. destruct (error result); [reflexivity | congruence].
Qed.

(** A command that was launched lets the script go on, whatever its exit
    status. *)
Lemma run_status_ignored (command : string) (args : list string) (w : world) :
  let result := spawn_sync command args (w_cwd w) (w_fs w) in
  error (fst result) = None ->
  run spawn_sync command args w
  = (Done tt, with_fs (snd result) (logged (EvSpawn command args) w)).
Proof.
  intros result H. subst result. unfold run, spawn, bind, emit. cbn.
  destruct (spawn_sync command args (w_cwd w) (w_fs w)) as [result fs'].
  cbn in *. now rewrite H.
Qed.

End Failures.

(** C1 at the failing input: [git sparse-checkout] exits with status 1 (the
    command was launched, so the result carries no [error]); the script
    goes on with [git checkout], the renaming, the deletion of the
    destination and the copy, and ends with exit code 0. *)
Theorem nonzero_status_is_not_fatal :
  let r := main script_dir (git_of upstream_docs 0 1) 4 start in
  exit_code (fst r) = Some 0%Z
  /\ spawn_calls (w_log (snd r))
     = [("git", ["clone"; "--depth"; "1"; "--no-checkout";
                 "https://github.com/vercel/next.js"; "/proj/.cache/next"]);
        ("git", ["sparse-checkout"; "set"; "docs"]);
        ("git", ["checkout"])]
  /\ In (EvRm ["proj"; "src"; "content"; "docs"; "docs"]) (w_log (snd r))
  /\ In (EvCp ["proj"; ".cache"; "next"; "docs"]
              ["proj"; "src"; "content"; "docs"; "docs"]) (w_log (snd r)).
Proof.
  vm_compute. repeat split; auto 30.
Qed.

(** * Renaming: the order of the calls *)

Lemma top_down_app (h t1 t2 : list event) :
  top_down h t1 -> top_down (h ++ t1) t2 -> top_down h (t1 ++ t2).
Proof.
  revert h. induction t1 as [|e t1 IH]; intros h H1 H2; cbn in *.
  - now rewrite app_nil_r in H2.
  - destruct H1 as [He H1]. split; [exact He|].
    apply IH; [exact H1|]. now rewrite <- app_assoc.
Qed.

Lemma justified_weaken (h0 h : list event) (e : event) :
  justified h e -> justified (h0 ++ h) e.
Proof.
  destruct e; cbn; trivial.
  - intros (d & name & Hin & Hk & Hk' & Hp & Hlast). exists d, name.
    split; [apply in_or_app; now right|]. repeat (split; [assumption|]).
    destruct Hlast as [Heq|[h' ->]]; [now left|right].
    exists (h0 ++ h')%list. now rewrite app_assoc.
  - intros (d & name & Hin & H). exists d, name.
    split; [apply in_or_app; now right | exact H].
Qed.

Lemma top_down_weaken (h0 h tr : list event) :
  top_down h tr -> top_down (h0 ++ h) tr.
Proof.
  revert h. induction tr as [|e tr IH]; intros h; cbn; [trivial|].
  intros [He Htr]. split; [now apply justified_weaken|].
  rewrite <- app_assoc. now apply IH.
Qed.

Lemma readdirSync_log (p : path) (w : world) :
  w_log (snd (readdirSync p w)) = (w_log w ++ [EvReaddir p])%list.
Proof.
  unfold readdirSync, bind, emit, get_fs. cbn.
  destruct (lookup p (w_fs w)) as [[]|]; reflexivity.
Qed.

Lemma renameSync_log (p q : path) (w : world) :
  w_log (snd (renameSync p q w)) = (w_log w ++ [EvRename p q])%list.
Proof.
  unfold renameSync, bind, emit, get_fs. cbn.
  destruct (rename_in p q (w_fs w)); reflexivity.
Qed.

Lemma path_eqb_true (p q : path) : path_eqb p q = true <-> p = q.
Proof. unfold path_eqb. destruct (list_eq_dec string_dec p q); split; congruence. Qed.

Lemma path_eqb_false (p q : path) : path_eqb p q = false <-> p <> q.
Proof. unfold path_eqb. destruct (list_eq_dec string_dec p q); split; congruence. Qed.

(** * The file system: entries, lookups, replacements *)

Local Open Scope list_scope.

Section EntryFacts.

Variable A : Type.
Implicit Types (k : string) (v : A) (es : list (string * A)).

Lemma assoc_set_eq k v es : assoc k (set_entry k v es) = Some v.
Proof.
  induction es as [|[k' v'] es IH]; cbn.
  - now rewrite String.eqb_refl.
  - destruct (String.eqb k' k) eqn:E; cbn.
    + now rewrite String.eqb_refl.
    + now rewrite E.
Qed.

Lemma assoc_set_ne k k' v es :
  k <> k' -> assoc k (set_entry k' v es) = assoc k es.
Proof.
  intros Hne. induction es as [|[k0 v0] es IH]; cbn.
  - destruct (String.eqb_spec k' k); [congruence | reflexivity].
  - destruct (String.eqb_spec k0 k') as [->|Hk]; cbn.
    + destruct (String.eqb_spec k' k); [congruence | reflexivity].
    + destruct (String.eqb_spec k0 k); [reflexivity | exact IH].
Qed.

Lemma assoc_remove_eq k es : assoc k (remove_entry k es) = None.
Proof.
  induction es as [|[k0 v0] es IH]; cbn; [reflexivity|].
  destruct (String.eqb_spec k0 k) as [->|Hk]; cbn; [exact IH|].
  destruct (String.eqb_spec k0 k); [congruence | exact IH].
Qed.

Lemma assoc_remove_ne k k' es :
  k <> k' -> assoc k (remove_entry k' es) = assoc k es.
Proof.
  intros Hne. induction es as [|[k0 v0] es IH]; cbn; [reflexivity|].
  destruct (String.eqb_spec k0 k') as [->|Hk]; cbn.
  - destruct (String.eqb_spec k' k); [congruence | exact IH].
  - destruct (String.eqb_spec k0 k); [reflexivity | exact IH].
Qed.

Lemma assoc_In k v es : assoc k es = Some v -> In (k, v) es.
Proof.
  induction es as [|[k0 v0] es IH]; cbn; [discriminate|].
  destruct (String.eqb_spec k0 k) as [->|Hk].
  - intros [= ->]. now left.
  - intros H. right. now apply IH.
Qed.

Lemma assoc_None k es : assoc k es = None <-> ~ In k (map fst es).
Proof.
  induction es as [|[k0 v0] es IH]; cbn; [tauto|].
  destruct (String.eqb_spec k0 k) as [->|Hk].
  - split; [discriminate | tauto].
  - rewrite IH. tauto.
Qed.

Lemma assoc_Some_key k v es : assoc k es = Some v -> In k (map fst es).
Proof. intros H. apply assoc_In in H. apply (in_map fst) in H. exact H. Qed.

Lemma distinct_NoDup (ks : list string) : distinct ks = true <-> NoDup ks.
Proof.
  induction ks as [|k ks IH]; cbn.
  - split; [constructor | reflexivity].
  - rewrite andb_true_iff, negb_true_iff, IH. split.
    + intros [Hk Hks]. constructor; [|exact Hks].
      intros Hin. apply not_true_iff_false in Hk. apply Hk.
      apply existsb_exists. exists k. split; [exact Hin | apply String.eqb_refl].
    + intros H. inversion H as [|? ? Hk Hks]; subst. split; [|exact Hks].
      apply not_true_iff_false. intros Hex.
      apply existsb_exists in Hex as (k' & Hin & Heq).
      apply String.eqb_eq in Heq. now subst.
Qed.

Lemma In_assoc k v es :
  NoDup (map fst es) -> In (k, v) es -> assoc k es = Some v.
Proof.
  induction es as [|[k0 v0] es IH]; cbn; [tauto|].
  intros Hnd [Heq|Hin].
  - injection Heq as -> ->. now rewrite String.eqb_refl.
  - inversion Hnd as [|? ? Hk Hks]; subst.
    destruct (String.eqb_spec k0 k) as [->|Hne]; [|now apply IH].
    exfalso. apply Hk. apply (in_map fst) in Hin. exact Hin.
Qed.

Lemma keys_set_entry k v es :
  map fst (set_entry k v es)
  = if existsb (String.eqb k) (map fst es) then map fst es
    else (map fst es ++ [k])%list.
Proof.
  induction es as [|[k0 v0] es IH]; cbn; [reflexivity|].
  rewrite (String.eqb_sym k k0).
  destruct (String.eqb_spec k0 k) as [->|Hne]; cbn; [reflexivity|].
  rewrite IH. now destruct (existsb _ _).
Qed.

Lemma keys_remove_entry k es :
  map fst (remove_entry k es)
  = filter (fun k' => negb (String.eqb k' k)) (map fst es).
Proof.
  unfold remove_entry.
  induction es as [|[k0 v0] es IH]; cbn; [reflexivity|].
  destruct (String.eqb k0 k); cbn; now rewrite IH.
Qed.

Lemma NoDup_set_entry k v es :
  NoDup (map fst es) -> NoDup (map fst (set_entry k v es)).
Proof.
  intros H. rewrite keys_set_entry.
  destruct (existsb _ _) eqn:E; [exact H|].
  apply NoDup_app; [exact H | repeat constructor; intros [] |].
  intros k' Hin [Heq|[]]. subst k'.
  apply not_true_iff_false in E. apply E.
  apply existsb_exists. exists k. split; [exact Hin | apply String.eqb_refl].
Qed.

Lemma NoDup_remove_entry k es :
  NoDup (map fst es) -> NoDup (map fst (remove_entry k es)).
Proof. intros H. rewrite keys_remove_entry. now apply NoDup_filter. Qed.

Lemma In_set_entry k v e es :
  In e (set_entry k v es) -> e = (k, v) \/ In e es.
Proof.
  induction es as [|[k0 v0] es IH]; cbn.
  - intros [<-|[]]. now left.
  - destruct (String.eqb k0 k); cbn.
    + intros [<-|H]; auto.
    + intros [<-|H]; auto. destruct (IH H); auto.
Qed.

Lemma In_remove_entry k e es : In e (remove_entry k es) -> In e es.
Proof. unfold remove_entry. intros H. now apply filter_In in H. Qed.

Lemma set_entry_twice k v v' es :
  set_entry k v (set_entry k v' es) = set_entry k v es.
Proof.
  induction es as [|[k0 v0] es IH]; cbn.
  - now rewrite String.eqb_refl.
  - destruct (String.eqb k0 k) eqn:E; cbn.
    + now rewrite String.eqb_refl.
    + now rewrite E, IH.
Qed.

Lemma set_entry_same k v es : assoc k es = Some v -> set_entry k v es = es.
Proof.
  induction es as [|[k0 v0] es IH]; cbn; [discriminate|].
  destruct (String.eqb_spec k0 k) as [->|Hne].
  - now intros [= ->].
  - intros H. now rewrite IH.
Qed.

End EntryFacts.

(** Induction on trees, children included. *)
Lemma node_ind (P : node -> Prop) :
  (forall c, P (File c)) ->
  (forall es, Forall (fun e => P (snd e)) es -> P (Dir es)) ->
  forall n, P n.
Proof.
  intros HF HD.
  fix IH 1. intros [c|es]; [apply HF|]. apply HD.
  induction es as [|[k c] es IHes]; constructor; [apply IH | exact IHes].
Qed.

Section TreeFacts.

Implicit Types (p q d : path) (n fs new : node) (es cur : list (string * node)).

Lemma lookup_app p q n :
  lookup (p ++ q) n
  = match lookup p n with Some m => lookup q m | None => None end.
Proof.
  revert n. induction p as [|s p IH]; intros n; cbn; [reflexivity|].
  destruct n as [c|es]; [reflexivity|].
  destruct (assoc s es); [apply IH | reflexivity].
Qed.

Lemma lookup_child d k n cur :
  lookup d n = Some (Dir cur) -> lookup (d ++ [k]) n = assoc k cur.
Proof.
  intros H. rewrite lookup_app, H. cbn. now destruct (assoc k cur).
Qed.

Lemma lookup_graft d new n :
  lookup d n <> None -> lookup d (graft d new n) = Some new.
Proof.
  revert n. induction d as [|s d IH]; intros n; cbn; [reflexivity|].
  destruct n as [c|es]; [congruence|].
  destruct (assoc s es) as [c|] eqn:E; [|congruence].
  intros H. cbn. rewrite assoc_set_eq. now apply IH.
Qed.

Lemma graft_graft d new new' n :
  graft d new (graft d new' n) = graft d new n.
Proof.
  revert n. induction d as [|s d IH]; intros n; cbn; [reflexivity|].
  destruct n as [c|es]; [reflexivity|].
  destruct (assoc s es) as [c|] eqn:E; cbn; [|now rewrite E].
  now rewrite assoc_set_eq, IH, set_entry_twice.
Qed.

Lemma graft_same d n m : lookup d n = Some m -> graft d m n = n.
Proof.
  revert n. induction d as [|s d IH]; intros n; cbn; [now intros [= ->]|].
  destruct n as [c|es]; [reflexivity|].
  destruct (assoc s es) as [c|] eqn:E; [|reflexivity].
  intros H. rewrite (IH _ H). now rewrite set_entry_same.
Qed.

(** Replacing below [d] is replacing at [d]. *)
Lemma graft_app d q new n m :
  lookup d n = Some m -> graft (d ++ q) new n = graft d (graft q new m) n.
Proof.
  revert n. induction d as [|s d IH]; intros n; cbn; [now intros [= ->]|].
  destruct n as [c|es]; [discriminate|].
  destruct (assoc s es) as [c|] eqn:E; [|discriminate].
  intros H. now rewrite (IH _ H).
Qed.

Lemma remove_child d k n cur :
  lookup d n = Some (Dir cur) ->
  remove (d ++ [k]) n = graft d (Dir (remove_entry k cur)) n.
Proof.
  revert n. induction d as [|s d IH]; intros n; cbn.
  - now intros [= ->].
  - destruct n as [c|es]; [discriminate|].
    destruct (assoc s es) as [c|] eqn:E; [|discriminate].
    intros H. rewrite (IH _ H).
    destruct (d ++ [k])%list eqn:Ed; [|reflexivity].
    now destruct d.
Qed.

Lemma put_child d k new n cur :
  lookup d n = Some (Dir cur) ->
  put (d ++ [k]) new n = Some (graft d (Dir (set_entry k new cur)) n).
Proof.
  revert n. induction d as [|s d IH]; intros n; cbn.
  - now intros [= ->].
  - destruct n as [c|es]; [discriminate|].
    destruct (assoc s es) as [c|] eqn:E; [|discriminate].
    intros H. rewrite (IH _ H).
    destruct (d ++ [k])%list eqn:Ed; [|reflexivity].
    now destruct d.
Qed.

End TreeFacts.

(** * Paths and names *)

Section PathFacts.

Implicit Types (d p q : path) (s k : string).

Lemma split_slash_plain s : has_slash s = false -> split_slash s = [s].
Proof.
  induction s as [|c s IH]; cbn; [reflexivity|].
  destruct (Ascii.eqb c "/"); cbn; [discriminate|].
  intros H. now rewrite (IH H).
Qed.

(** Joining a proper name appends one segment. *)
Lemma path_join_proper d s : proper_name s = true -> path_join d s = d ++ [s].
Proof.
  unfold proper_name. rewrite !andb_true_iff, !negb_true_iff.
  intros [[[H1 H2] H3] H4].
  unfold path_join. rewrite (split_slash_plain s H4). cbn.
  unfold path_step. now rewrite H1, H2, H3.
Qed.

Lemma path_join_empty d : path_join d "" = d.
Proof. reflexivity. Qed.

Lemma is_prefix_app d q : is_prefix d (d ++ q) = true.
Proof. induction d as [|s d IH]; cbn; [reflexivity|]. now rewrite String.eqb_refl. Qed.

Lemma is_prefix_length p q : is_prefix p q = true -> List.length p <= List.length q.
Proof.
  revert q. induction p as [|s p IH]; intros [|t q]; cbn; try lia; try discriminate.
  rewrite andb_true_iff. intros [_ H]. apply IH in H. lia.
Qed.

Lemma is_prefix_longer d k : is_prefix (d ++ [k]) d = false.
Proof.
  apply not_true_iff_false. intros H. apply is_prefix_length in H.
  rewrite length_app in H. cbn in H. lia.
Qed.

Lemma is_prefix_sibling d k k' : k <> k' -> is_prefix (d ++ [k]) (d ++ [k']) = false.
Proof.
  intros Hne. induction d as [|s d IH]; cbn.
  - destruct (String.eqb_spec k k'); [congruence | reflexivity].
  - now rewrite String.eqb_refl.
Qed.

Lemma child_not_parent d k : d ++ [k] <> d.
Proof.
  intros H. apply (f_equal (@List.length string)) in H.
  rewrite length_app in H. cbn in H. lia.
Qed.

Lemma digits_no_slash s : all_digits s = true -> has_slash s = false.
Proof.
  induction s as [|c s IH]; cbn; [reflexivity|].
  rewrite andb_true_iff. intros [Hc Hs]. rewrite (IH Hs), orb_false_r.
  destruct (Ascii.eqb_spec c "/") as [->|]; [discriminate Hc | reflexivity].
Qed.

Lemma has_slash_append s t : has_slash (s ++ t)%string = has_slash s || has_slash t.
Proof. induction s as [|c s IH]; cbn; [reflexivity|]. now rewrite IH, orb_assoc. Qed.

(** A name that begins with a digit and has no slash is proper. *)
Lemma digit_first_proper c s :
  is_digit c = true -> has_slash (String c s) = false ->
  proper_name (String c s) = true.
Proof.
  intros Hc Hs. unfold proper_name. rewrite Hs. cbn.
  destruct (Ascii.eqb_spec c ".") as [->|]; [discriminate Hc|].
  reflexivity.
Qed.

End PathFacts.

(** * Single steps of the process *)

Section Steps.

Context {A B : Type}.

Lemma bind_done (m : M A) (f : A -> M B) (w w' : world) (a : A) :
  m w = (Done a, w') -> bind m f w = f a w'.
Proof. unfold bind. now intros ->. Qed.

Lemma bind_thrown (m : M A) (f : A -> M B) (w w' : world) (e : exn) :
  m w = (Thrown e, w') -> bind m f w = (Thrown e, w').
Proof. unfold bind. now intros ->. Qed.

Lemma bind_exited (m : M A) (f : A -> M B) (w w' : world) (c : Z) :
  m w = (Exited c, w') -> bind m f w = (Exited c, w').
Proof. unfold bind. now intros ->. Qed.

End Steps.

Lemma readdirSync_dir (p : path) (w : world) (es : list (string * node)) :
  lookup p (w_fs w) = Some (Dir es) ->
  readdirSync p w = (Done (map dirent_of es), logged (EvReaddir p) w).
Proof.
  intros H. unfold readdirSync, bind, emit, get_fs. cbn. now rewrite H.
Qed.

Lemma renameSync_ok (p q : path) (w : world) (fs' : node) :
  rename_in p q (w_fs w) = inr fs' ->
  renameSync p q w = (Done tt, with_fs fs' (logged (EvRename p q) w)).
Proof.
  intros H. unfold renameSync, bind, emit, get_fs. cbn. now rewrite H.
Qed.

Lemma renameSync_throws (p q : path) (w : world) (e : exn) :
  rename_in p q (w_fs w) = inl e ->
  renameSync p q w = (Thrown e, logged (EvRename p q) w).
Proof.
  intros H. unfold renameSync, bind, emit, get_fs. cbn. now rewrite H.
Qed.

(** Nothing is renamed onto a directory it lies in. *)
Lemma rename_onto_parent (d : path) (k : string) (fs n : node)
    (es : list (string * node)) :
  lookup d fs = Some (Dir es) -> assoc k es = Some n ->
  rename_in (d ++ [k]) d fs = inl ENOTEMPTY.
Proof.
  intros Hd Hk. unfold rename_in.
  rewrite (lookup_child d k fs es Hd), Hk.
  assert (E : path_eqb (d ++ [k]) d = false)
    by (apply path_eqb_false, child_not_parent).
  now rewrite E, is_prefix_longer, andb_false_r, is_prefix_app.
Qed.

(** * Renaming: a name that is all prefix *)

(** C10: a name made of digits and one final hyphen (["123-"], say) is
    stripped to the empty string; the new path [renameAll] computes for it
    is the directory itself, the test [oldPath !== newPath] passes, and the
    renaming of the entry onto its own parent directory is attempted (where
    it throws, and the run ends). *)
Theorem digits_only_name_renamed_onto_parent
    (ds : string) (fuel : nat) (dirPath : path) (w : world)
    (n : node) (es : list (string * node)) :
  ds <> ""%string -> all_digits ds = true ->
  lookup dirPath (w_fs w) = Some (Dir (((ds ++ "-")%string, n) :: es)) ->
  let item_name := (ds ++ "-")%string in
  let oldPath := path_join dirPath item_name in
  let newPath := path_join dirPath (stripPrefix item_name) in
  stripPrefix item_name = ""%string
  /\ newPath = dirPath
  /\ oldPath = dirPath ++ [item_name]
  /\ negb (path_eqb oldPath newPath) = true
  /\ renameAll (S fuel) dirPath w
     = (Thrown ENOTEMPTY,
        logged (EvRename oldPath dirPath) (logged (EvReaddir dirPath) w)).
Proof.
  intros Hne Hds Hdir item_name oldPath newPath.
  assert (Hstrip : stripPrefix item_name = ""%string).
  { subst item_name.
    replace (ds ++ "-")%string with (ds ++ "-" ++ "")%string by reflexivity.
    now apply stripPrefix_prefixed. }
  assert (Hproper : proper_name item_name = true).
  { subst item_name. destruct ds as [|c ds]; [congruence|].
    cbn [all_digits] in Hds. apply andb_true_iff in Hds as [Hc Hds'].
    apply (digit_first_proper c (ds ++ "-") Hc).
    change (has_slash (String c ds ++ "-")%string = false).
    rewrite has_slash_append, digits_no_slash; [reflexivity|].
    cbn. now rewrite Hc, Hds'. }
  assert (Hnew : newPath = dirPath).
  { subst newPath. now rewrite Hstrip. }
  assert (Hold : oldPath = dirPath ++ [item_name]).
  { subst oldPath. now apply path_join_proper. }
  assert (Hdiff : negb (path_eqb oldPath newPath) = true).
  { apply negb_true_iff, path_eqb_false. rewrite Hnew, Hold. apply child_not_parent. }
  repeat split; trivial.
  cbn [renameAll].
  rewrite (bind_done _ _ _ _ _ (readdirSync_dir dirPath w _ Hdir)).
  cbn [map for_each]. apply bind_thrown, bind_thrown.
  cbv beta zeta. cbn [name dirent_of fst snd].
  fold item_name. fold oldPath. fold newPath.
  rewrite Hdiff, Hnew. apply renameSync_throws. rewrite Hold.
  apply (rename_onto_parent dirPath item_name (w_fs w) n _ Hdir).
  cbn. now rewrite String.eqb_refl.
Qed.

Lemma digits_only_name_renamed_onto_parent_witness :
  let w := {| w_fs := Dir [("docs", Dir [("123-", File "x"); ("a.mdx", File "a")])];
              w_cwd := []; w_log := [] |} in
  stripPrefix "123-" = ""%string
  /\ path_join ["docs"] (stripPrefix "123-") = ["docs"]
  /\ path_join ["docs"] "123-" = ["docs"; "123-"]
  /\ negb (path_eqb (path_join ["docs"] "123-")
                    (path_join ["docs"] (stripPrefix "123-"))) = true
  /\ renameAll 1 ["docs"] w
     = (Thrown ENOTEMPTY,
        logged (EvRename (path_join ["docs"] "123-") ["docs"])
          (logged (EvReaddir ["docs"]) w)).
Proof.
  intros w.
  apply (digits_only_name_renamed_onto_parent "123" 0 ["docs"] w
           (File "x") [("a.mdx", File "a")]).
  - discriminate.
  - reflexivity.
  - reflexivity.
Defined.

(** * Renaming: what a tidy tree becomes *)

Section SiblingRename.

Implicit Types (d : path) (k : string) (fs c : node) (cur : list (string * node)).

(** Renaming an entry to a name that is free in the same directory. *)
Lemma rename_sibling d k k' fs c cur :
  lookup d fs = Some (Dir cur) ->
  assoc k cur = Some c -> assoc k' cur = None -> k <> k' ->
  rename_in (d ++ [k]) (d ++ [k']) fs
  = inr (graft d (Dir (set_entry k' c (remove_entry k cur))) fs).
Proof.
  intros Hd Hk Hk' Hne. unfold rename_in.
  rewrite (lookup_child d k fs cur Hd), Hk.
  assert (E : path_eqb (d ++ [k]) (d ++ [k']) = false).
  { apply path_eqb_false. intros H. apply app_inj_tail in H as [_ H]. congruence. }
  rewrite E, (is_prefix_sibling d k k' Hne), andb_false_r.
  rewrite (is_prefix_sibling d k' k) by congruence.
  rewrite (lookup_child d k' fs cur Hd), Hk'.
  rewrite (remove_child d k fs cur Hd).
  rewrite (put_child d k' c _ (remove_entry k cur)).
  - rewrite graft_graft. now destruct c.
  - apply lookup_graft. congruence.
Qed.

(** Replacing a child is replacing its entry. *)
Lemma graft_child d k fs c c' cur :
  lookup d fs = Some (Dir cur) -> assoc k cur = Some c ->
  graft (d ++ [k]) c' fs = graft d (Dir (set_entry k c' cur)) fs.
Proof.
  intros Hd Hk. rewrite (graft_app d [k] c' fs (Dir cur) Hd).
  cbn. now rewrite Hk.
Qed.

End SiblingRename.

Section TidyFacts.

Implicit Types (k : string) (n c : node) (es : list (string * node)).

(** Stripping keeps a name proper only if it was proper. *)
Lemma proper_before_strip k :
  proper_name (stripPrefix k) = true -> proper_name k = true.
Proof.
  rewrite stripPrefix_rest.
  destruct (numeric_prefix_rest k) as [rest|] eqn:E; [|trivial].
  intros H. destruct (numeric_prefix_rest_split _ _ E) as (ds & Hne & Hds & ->).
  destruct ds as [|a ds]; [congruence|].
  cbn [all_digits] in Hds. apply andb_true_iff in Hds as [Ha Hds].
  apply (digit_first_proper a (ds ++ "-" ++ rest)%string Ha).
  change (has_slash (String a ds ++ "-" ++ rest)%string = false).
  rewrite !has_slash_append, digits_no_slash by (cbn; now rewrite Ha, Hds).
  unfold proper_name in H. rewrite !andb_true_iff, !negb_true_iff in H.
  destruct H as [_ H]. now rewrite H.
Qed.

Lemma clash_free_spec (ks : list string) :
  clash_free ks = true ->
  NoDup (map stripPrefix ks)
  /\ NoDup ks
  /\ forall k k', In k ks -> In k' ks -> stripPrefix k = k' -> k = k'.
Proof.
  unfold clash_free. rewrite andb_true_iff, distinct_NoDup.
  intros [Hnd Hcl]. split; [exact Hnd|]. split; [now apply NoDup_map_inv in Hnd|].
  intros k k' Hk Hk' Heq.
  rewrite forallb_forall in Hcl. specialize (Hcl k Hk).
  rewrite forallb_forall in Hcl. specialize (Hcl k' Hk').
  apply String.eqb_eq in Heq. rewrite Heq in Hcl. cbn in Hcl.
  now apply String.eqb_eq.
Qed.

Lemma tidy_dir es :
  tidy (Dir es) = true ->
  clash_free (map fst es) = true
  /\ forall k c, In (k, c) es ->
       proper_name (stripPrefix k) = true /\ tidy c = true.
Proof.
  cbn [tidy]. rewrite andb_true_iff, forallb_forall.
  intros [Hcl Hall]. split; [exact Hcl|].
  intros k c Hin. specialize (Hall _ Hin). cbn in Hall.
  now apply andb_true_iff in Hall.
Qed.

Lemma well_formed_dir es :
  well_formed (Dir es) = true
  <-> NoDup (map fst es) /\ forall k c, In (k, c) es -> well_formed c = true.
Proof.
  cbn [well_formed]. rewrite andb_true_iff, distinct_NoDup, forallb_forall.
  split; intros [H1 H2]; (split; [exact H1|]).
  - intros k c Hin. exact (H2 _ Hin).
  - intros [k c] Hin. exact (H2 _ _ Hin).
Qed.

Lemma tidy_well_formed n : tidy n = true -> well_formed n = true.
Proof.
  induction n as [c|es IH] using node_ind; [reflexivity|].
  intros H. destruct (tidy_dir es H) as [Hcl Hall].
  apply well_formed_dir. split; [apply (clash_free_spec _ Hcl)|].
  intros k c Hin. rewrite Forall_forall in IH.
  apply (IH _ Hin). apply (Hall _ _ Hin).
Qed.

Lemma depth_child es k c (fuel : nat) :
  depth (Dir es) <= S fuel -> In (k, c) es -> depth c <= fuel.
Proof.
  cbn [depth]. intros H Hin. apply le_S_n in H.
  apply list_max_le in H. rewrite Forall_forall in H.
  apply H. apply (in_map (fun e => depth (snd e))) in Hin. exact Hin.
Qed.

End TidyFacts.

Lemma assoc_entries_after_eq (k : string) (c' : node) (cur : list (string * node)) :
  assoc (stripPrefix k) (entries_after k c' cur) = Some c'.
Proof. apply assoc_set_eq. Qed.

Lemma assoc_entries_after_ne (k x : string) (c' : node) (cur : list (string * node)) :
  x <> stripPrefix k -> x <> k ->
  assoc x (entries_after k c' cur) = assoc x cur.
Proof.
  intros H1 H2. unfold entries_after. rewrite assoc_set_ne by exact H1.
  destruct (String.eqb (stripPrefix k) k); [reflexivity|].
  now apply assoc_remove_ne.
Qed.

Lemma assoc_entries_after_some (k x : string) (c' : node) (cur : list (string * node)) :
  assoc x (entries_after k c' cur) <> None ->
  x = stripPrefix k \/ (x <> k /\ assoc x cur <> None).
Proof.
  intros H. destruct (string_dec x (stripPrefix k)) as [->|Hne]; [now left|right].
  unfold entries_after in H. rewrite assoc_set_ne in H by exact Hne.
  destruct (String.eqb_spec (stripPrefix k) k) as [E|E].
  - split; [congruence | exact H].
  - destruct (string_dec x k) as [->|Hk].
    + now rewrite assoc_remove_eq in H.
    + rewrite assoc_remove_ne in H by exact Hk. now split.
Qed.

Lemma NoDup_entries_after (k : string) (c' : node) (cur : list (string * node)) :
  NoDup (map fst cur) -> NoDup (map fst (entries_after k c' cur)).
Proof.
  intros H. unfold entries_after. apply NoDup_set_entry.
  destruct (String.eqb (stripPrefix k) k); [exact H | now apply NoDup_remove_entry].
Qed.

Lemma same_tree_file (c : string) : same_tree (File c) (normalize (File c)).
Proof. intros p. reflexivity. Qed.

Section RenameLoop.

Variable fuel : nat.
Hypothesis below :
  forall d T w,
    lookup d (w_fs w) = Some T -> is_dir T = true ->
    tidy T = true -> depth T <= fuel ->
    exists w',
      renameAll fuel d w = (Done tt, w')
      /\ renamed_to d T w w'
      /\ w_log w' = w_log w ++ top_down_calls d T.

Variable d : path.

Let body (item : Dirent) : M unit :=
  let oldPath := path_join d (name item) in
  let newName := stripPrefix (name item) in
  let newPath := path_join d newName in
  (if negb (path_eqb oldPath newPath)
   then renameSync oldPath newPath
   else ret tt) ;;
  (if isDirectory item
   then renameAll fuel newPath
   else ret tt).

(** The calls made for one entry. *)
Let calls_for (e : string * node) : list event :=
  (if String.eqb (stripPrefix (fst e)) (fst e) then []
   else [EvRename (d ++ [fst e]) (d ++ [stripPrefix (fst e)])])
  ++ top_down_calls (d ++ [stripPrefix (fst e)]) (snd e).

(** One round of the loop: the entry gets its stripped name and, if it is
    a directory, its tree is renamed in turn. *)
Lemma body_step (k : string) (c : node) (cur : list (string * node)) (w : world) :
  lookup d (w_fs w) = Some (Dir cur) ->
  assoc k cur = Some c ->
  (stripPrefix k <> k -> assoc (stripPrefix k) cur = None) ->
  proper_name (stripPrefix k) = true ->
  tidy c = true -> depth c <= fuel ->
  exists c' w',
    body (dirent_of (k, c)) w = (Done tt, w')
    /\ w_fs w' = graft d (Dir (entries_after k c' cur)) (w_fs w)
    /\ same_tree c' (normalize c)
    /\ well_formed c' = true
    /\ w_log w' = w_log w ++ calls_for (k, c).
Proof.
  intros Hd Hk Hfree Hproper Htidy Hdepth.
  pose proof (proper_before_strip k Hproper) as Hproper0.
  unfold body. cbv zeta. cbn [name isDirectory dirent_of fst snd].
  rewrite (path_join_proper d k Hproper0), (path_join_proper d _ Hproper).
  (* the renaming *)
  assert (H1 : exists w1,
             (if negb (path_eqb (d ++ [k]) (d ++ [stripPrefix k]))
              then renameSync (d ++ [k]) (d ++ [stripPrefix k])
              else ret tt) w = (Done tt, w1)
             /\ w_fs w1 = graft d (Dir (entries_after k c cur)) (w_fs w)
             /\ w_log w1
                = w_log w
                  ++ (if String.eqb (stripPrefix k) k then []
                      else [EvRename (d ++ [k]) (d ++ [stripPrefix k])])).
  { unfold entries_after.
    destruct (String.eqb_spec (stripPrefix k) k) as [E|E].
    - rewrite E. replace (path_eqb (d ++ [k]) (d ++ [k])) with true
        by (symmetry; now apply path_eqb_true).
      exists w. split; [reflexivity|]. split; [|now rewrite app_nil_r].
      rewrite (set_entry_same _ k c cur Hk). symmetry. now apply graft_same.
    - replace (path_eqb (d ++ [k]) (d ++ [stripPrefix k])) with false.
      2:{ symmetry. apply path_eqb_false. intros H.
          apply app_inj_tail in H as [_ H]. congruence. }
      cbn [negb].
      erewrite renameSync_ok
        by (apply (rename_sibling d k (stripPrefix k) (w_fs w) c cur);
            auto; congruence).
      eexists. split; [reflexivity|]. split; reflexivity. }
  destruct H1 as (w1 & E1 & Hfs1 & Hlog1).
  rewrite (bind_done _ _ _ _ _ E1).
  assert (Hd1 : lookup d (w_fs w1) = Some (Dir (entries_after k c cur))).
  { rewrite Hfs1. apply lookup_graft. congruence. }
  (* the recursion *)
  destruct (is_dir c) eqn:Hdir.
  - destruct (below (d ++ [stripPrefix k]) c w1)
      as (w2 & E2 & (T' & Hfs2 & Hsame & Hwf & _) & Hlog2); trivial.
    { rewrite (lookup_child d _ _ _ Hd1). apply assoc_entries_after_eq. }
    exists T', w2. split; [exact E2|].
    split; [|split; [exact Hsame | split; [exact Hwf|]]].
    2:{ unfold calls_for. cbn [fst snd]. now rewrite Hlog2, Hlog1, app_assoc. }
    rewrite Hfs2.
    rewrite (graft_child d (stripPrefix k) (w_fs w1) c T' _ Hd1
               (assoc_entries_after_eq k c cur)).
    rewrite Hfs1, graft_graft. unfold entries_after. now rewrite set_entry_twice.
  - exists c, w1. split; [reflexivity|]. split; [exact Hfs1|]. split; [|split].
    + destruct c; [apply same_tree_file | discriminate].
    + now apply tidy_well_formed.
    + unfold calls_for. cbn [fst snd].
      destruct c; [|discriminate]. cbn [top_down_calls]. now rewrite app_nil_r.
Qed.

(** The entries the loop started from, all free of clashes. *)
Variable es : list (string * node).
Hypothesis es_clash_free : clash_free (map fst es) = true.
Hypothesis es_tidy :
  forall k c, In (k, c) es ->
    proper_name (stripPrefix k) = true /\ tidy c = true /\ depth c <= fuel.

Lemma loop_steps (todo done cur : list (string * node)) (w : world) :
  es = done ++ todo ->
  lookup d (w_fs w) = Some (Dir cur) ->
  between done todo cur ->
  exists cur' w',
    for_each (map dirent_of todo) body w = (Done tt, w')
    /\ w_fs w' = graft d (Dir cur') (w_fs w)
    /\ between es [] cur'
    /\ w_log w' = w_log w ++ flat_map calls_for todo.
Proof.
  revert done cur w.
  induction todo as [|[k c] todo IH]; intros done cur w Hes Hd Hinv.
  - exists cur, w. rewrite app_nil_r in Hes. subst done.
    split; [reflexivity|]. split; [symmetry; now apply graft_same|].
    split; [exact Hinv | cbn; now rewrite app_nil_r].
  - destruct Hinv as (Hnd & Htodo & Hdone & Hkeys).
    destruct (clash_free_spec _ es_clash_free) as (Hstrip & Hnames & Hclash).
    rewrite Hes, map_app in Hstrip, Hnames. rewrite map_app in Hstrip.
    cbn [map fst] in Hstrip, Hnames.
    pose proof (NoDup_remove_2 _ _ _ Hnames) as Hk_fresh.
    pose proof (NoDup_remove_2 _ _ _ Hstrip) as Hk'_fresh.
    assert (Hk_in : In k (map fst es)).
    { rewrite Hes, map_app. apply in_or_app. right. now left. }
    assert (Hin_todo : forall x, In x (map fst todo) -> In x (map fst es)).
    { intros x Hx. rewrite Hes, map_app. apply in_or_app. right. now right. }
    assert (Hin_done : forall x, In x (map fst done) -> In x (map fst es)).
    { intros x Hx. rewrite Hes, map_app. apply in_or_app. now left. }
    assert (Hnot_todo : ~ In (stripPrefix k) (map fst todo)).
    { intros Hx. apply Hk_fresh. apply in_or_app. right.
      now rewrite (Hclash k (stripPrefix k) Hk_in (Hin_todo _ Hx) eq_refl) at 1. }
    assert (Hnot_done : ~ In (stripPrefix k) (map stripPrefix (map fst done))).
    { intros Hx. apply Hk'_fresh. apply in_or_app. now left. }
    destruct (es_tidy k c) as (Hproper & Htidy & Hdepth).
    { rewrite Hes. apply in_or_app. right. now left. }
    destruct (body_step k c cur w) as (c' & w1 & E1 & Hfs1 & Hsame & Hwf & Hlog1);
      trivial.
    { apply Htodo. now left. }
    { intros Hne. destruct (assoc (stripPrefix k) cur) eqn:E; [exfalso|reflexivity].
      destruct (Hkeys (stripPrefix k)) as [[Hx|Hx]|Hx]; try congruence; auto. }
    cbn [map for_each]. rewrite (bind_done _ _ _ _ _ E1).
    destruct (IH (done ++ [(k, c)]) (entries_after k c' cur) w1)
      as (cur' & w' & E2 & Hfs' & Hinv' & Hlog').
    + now rewrite <- app_assoc.
    + rewrite Hfs1. apply lookup_graft. congruence.
    + split; [now apply NoDup_entries_after|]. split; [|split].
      * intros k2 c2 Hin. rewrite assoc_entries_after_ne.
        -- apply Htodo. now right.
        -- intros ->. apply Hnot_todo. apply (in_map fst) in Hin. exact Hin.
        -- intros ->. apply Hk_fresh. apply in_or_app. right.
           apply (in_map fst) in Hin. exact Hin.
      * intros k0 c0 Hin. apply in_app_or in Hin as [Hin|[[= -> ->]|[]]].
        -- destruct (Hdone _ _ Hin) as (c0' & Hc0 & H0).
           exists c0'. split; [|exact H0].
           rewrite assoc_entries_after_ne; [exact Hc0 | |].
           ++ intros Heq. apply Hnot_done. rewrite <- Heq.
              apply in_map. apply (in_map fst) in Hin. exact Hin.
           ++ intros Heq. apply Hk_fresh. apply in_or_app. left.
              apply (in_map fst) in Hin. cbn [fst] in Hin.
              now rewrite <- (Hclash k0 k (Hin_done _ Hin) Hk_in Heq).
        -- exists c'. split; [apply assoc_entries_after_eq | now split].
      * intros x Hx. apply assoc_entries_after_some in Hx as [->|[Hxk Hx]].
        -- right. rewrite !map_app. apply in_or_app. right. now left.
        -- destruct (Hkeys x Hx) as [[Hx'|Hx']|Hx'].
           ++ cbn in Hx'. congruence.
           ++ now left.
           ++ right. rewrite !map_app. apply in_or_app. now left.
    + exists cur', w'. split; [exact E2|].
      split; [now rewrite Hfs', Hfs1, graft_graft|]. split; [exact Hinv'|].
      cbn [flat_map]. now rewrite Hlog', Hlog1, app_assoc.
Qed.

End RenameLoop.

Section NormalizedDirectory.

Variable es cur : list (string * node).
Hypothesis es_distinct : NoDup (map stripPrefix (map fst es)).
Hypothesis finished : between es [] cur.

Lemma keys_normalized :
  map fst (map (fun e => (stripPrefix (fst e), normalize (snd e))) es)
  = map stripPrefix (map fst es).
Proof. rewrite !map_map. reflexivity. Qed.

Lemma assoc_normalized (k : string) (c : node) :
  In (k, c) es ->
  assoc (stripPrefix k)
    (map (fun e => (stripPrefix (fst e), normalize (snd e))) es)
  = Some (normalize c).
Proof.
  intros Hin. apply In_assoc; [now rewrite keys_normalized|].
  apply (in_map (fun e => (stripPrefix (fst e), normalize (snd e)))) in Hin.
  exact Hin.
Qed.

(** An entry of the finished directory comes from an entry of the
    original one. *)
Lemma finished_entry (x : string) (c' : node) :
  assoc x cur = Some c' ->
  exists k c,
    In (k, c) es /\ x = stripPrefix k
    /\ same_tree c' (normalize c) /\ well_formed c' = true.
Proof.
  intros Hx. destruct finished as (_ & _ & Hdone & Hkeys).
  destruct (Hkeys x) as [[]|Hin]; [congruence|].
  rewrite map_map in Hin. apply in_map_iff in Hin as ([k c] & <- & Hin).
  destruct (Hdone _ _ Hin) as (c'' & Hc'' & Hsame & Hwf).
  cbn [fst] in Hx. rewrite Hx in Hc''. injection Hc'' as <-.
  now exists k, c.
Qed.

Lemma finished_same_tree : same_tree (Dir cur) (normalize (Dir es)).
Proof.
  intros [|x q]; [reflexivity|]. unfold kind_at. cbn [lookup normalize].
  destruct (assoc x cur) as [c'|] eqn:Hx.
  - destruct (finished_entry x c' Hx) as (k & c & Hin & -> & Hsame & _).
    rewrite (assoc_normalized k c Hin). apply Hsame.
  - replace (assoc x (map _ es)) with (@None node); [reflexivity|].
    symmetry. apply assoc_None. rewrite keys_normalized, map_map.
    intros Hin. apply in_map_iff in Hin as ([k c] & <- & Hin).
    destruct finished as (_ & _ & Hdone & _).
    destruct (Hdone _ _ Hin) as (c'' & Hc'' & _). cbn [fst] in Hx. congruence.
Qed.

Lemma finished_well_formed : well_formed (Dir cur) = true.
Proof.
  apply well_formed_dir. split; [apply finished|].
  intros x c' Hin. apply In_assoc in Hin; [|apply finished].
  now destruct (finished_entry x c' Hin) as (k & c & _ & _ & _ & Hwf).
Qed.

End NormalizedDirectory.

(** On a tidy tree [renameAll] ends normally, given fuel for its depth,
    leaves the tree with the paths and contents of its normalised image,
    and has made the calls of the top-down renaming, no other and in that
    order. *)
Lemma renameAll_tidy_run (fuel : nat) :
  forall d T w,
    lookup d (w_fs w) = Some T -> is_dir T = true ->
    tidy T = true -> depth T <= fuel ->
    exists w',
      renameAll fuel d w = (Done tt, w')
      /\ renamed_to d T w w'
      /\ w_log w' = w_log w ++ top_down_calls d T.
Proof.
  induction fuel as [|fuel IH]; intros d [c|es] w Hd Hdir Htidy Hdepth;
    try discriminate.
  - cbn in Hdepth. lia.
  - destruct (tidy_dir es Htidy) as [Hcl Hall].
    destruct (clash_free_spec _ Hcl) as (Hstrip & Hnames & _).
    cbn [renameAll].
    rewrite (bind_done _ _ _ _ _ (readdirSync_dir d w es Hd)).
    destruct (loop_steps fuel IH d es Hcl) with
      (todo := es) (done := @nil (string * node)) (cur := es)
      (w := logged (EvReaddir d) w)
      as (cur' & w' & E & Hfs & Hfin & Hlog).
    + intros k c Hin. destruct (Hall k c Hin) as [Hp Ht].
      repeat split; trivial. exact (depth_child es k c fuel Hdepth Hin).
    + reflexivity.
    + exact Hd.
    + split; [exact Hnames|]. split; [|split].
      * intros k c Hin. now apply In_assoc.
      * intros k c [].
      * intros x Hx. left.
        destruct (in_dec string_dec x (map fst es)) as [Hin|Hnin]; [exact Hin|].
        now apply assoc_None in Hnin.
    + cbv zeta in E. exists w'. split; [exact E|]. split.
      * exists (Dir cur'). split; [exact Hfs|]. split; [|split].
        -- now apply finished_same_tree.
        -- now apply (finished_well_formed es).
        -- reflexivity.
      * rewrite Hlog. cbn [logged w_log top_down_calls].
        now rewrite <- app_assoc.
Qed.

Lemma renameAll_normalizes (fuel : nat) :
  forall d T w,
    lookup d (w_fs w) = Some T -> is_dir T = true ->
    tidy T = true -> depth T <= fuel ->
    exists w', renameAll fuel d w = (Done tt, w') /\ renamed_to d T w w'.
Proof.
  intros d T w Hd Hdir Htidy Hdepth.
  destruct (renameAll_tidy_run fuel d T w Hd Hdir Htidy Hdepth) as (w' & E & H & _).
  now exists w'.
Qed.

(** * Publishing: deletion and copy *)

Section CopyFacts.

Implicit Types (p q d : path) (k : string) (n c new : node)
  (es des : list (string * node)).

Lemma lookup_put p new n n' : put p new n = Some n' -> lookup p n' = Some new.
Proof.
  revert n n'. induction p as [|s p IH]; intros n n'; cbn; [discriminate|].
  destruct n as [c|es]; [destruct p; discriminate|].
  destruct p as [|t p].
  - intros [= <-]. cbn. now rewrite assoc_set_eq.
  - destruct (assoc s es) as [c|]; [|discriminate].
    destruct (put (t :: p) new c) as [c'|] eqn:E; [|discriminate].
    intros [= <-]. cbn [lookup]. rewrite assoc_set_eq. now apply IH with (n := c).
Qed.

Lemma remove_deeper (s : string) (r : path) es :
  r <> [] ->
  remove (s :: r) (Dir es)
  = match assoc s es with
    | Some c => Dir (set_entry s (remove r c) es)
    | None => Dir es
    end.
Proof. destruct r; [congruence | reflexivity]. Qed.

(** Removing below one name leaves what is below another name alone. *)
Lemma lookup_remove_apart d k k' p q n :
  k <> k' ->
  lookup (d ++ k :: p) (remove (d ++ k' :: q) n) = lookup (d ++ k :: p) n.
Proof.
  intros Hne. revert n. induction d as [|s d IH]; intros n.
  - cbn [app]. destruct n as [c|es]; [now destruct q|].
    cbn [remove lookup]. destruct q as [|t q].
    + cbn [lookup]. now rewrite assoc_remove_ne.
    + destruct (assoc k' es) as [c|]; [|reflexivity].
      cbn [lookup]. now rewrite assoc_set_ne.
  - cbn [app]. destruct n as [c|es].
    + cbn. now destruct (d ++ k' :: q).
    + rewrite remove_deeper by (now destruct d).
      cbn [lookup].
      destruct (assoc s es) as [c|] eqn:Es; [|now rewrite Es].
      cbn [lookup]. rewrite assoc_set_eq. apply IH.
Qed.

Lemma lookup_remove_self p n : p <> [] -> lookup p (remove p n) = None.
Proof.
  revert n. induction p as [|s p IH]; intros n Hp; [congruence|].
  destruct n as [c|es]; [now destruct p|].
  cbn [remove]. destruct p as [|t p].
  - cbn. now rewrite assoc_remove_eq.
  - destruct (assoc s es) as [c|] eqn:E.
    + cbn [lookup]. rewrite assoc_set_eq. apply IH. discriminate.
    + cbn [lookup]. now rewrite E.
Qed.

Lemma lookup_fresh_dirs p k : lookup (p ++ [k]) (fresh_dirs p) = None.
Proof.
  induction p as [|s p IH]; cbn; [reflexivity|]. now rewrite String.eqb_refl.
Qed.

(** [mkdir -p] of the parent does not create the child. *)
Lemma mkdir_p_keeps_absent p k n n' :
  mkdir_p p n = Some n' ->
  lookup (p ++ [k]) n = None -> lookup (p ++ [k]) n' = None.
Proof.
  revert n n'. induction p as [|s p IH]; intros n n'.
  - destruct n as [c|es]; cbn; [discriminate|]. now intros [= <-].
  - destruct n as [c|es]; cbn [mkdir_p]; [discriminate|].
    destruct (assoc s es) as [c|] eqn:E.
    + destruct (mkdir_p p c) as [c'|] eqn:Ec; [|discriminate].
      intros [= <-]. cbn [app lookup]. rewrite E, assoc_set_eq. now apply IH.
    + intros [= <-] _. cbn [app lookup]. rewrite assoc_set_eq.
      apply lookup_fresh_dirs.
Qed.

Lemma set_entry_fresh k c des :
  assoc k des = None -> set_entry k c des = des ++ [(k, c)].
Proof.
  induction des as [|[k0 c0] des IH]; cbn; [reflexivity|].
  destruct (String.eqb k0 k); [discriminate|]. intros H. now rewrite IH.
Qed.

(** Copied to a place where nothing is, a well-formed tree is itself. *)
Lemma cp_onto_fresh n : well_formed n = true -> cp_onto n None = Some n.
Proof.
  induction n as [c|es IH] using node_ind; [reflexivity|].
  intros Hwf. apply well_formed_dir in Hwf as [Hnd Hwf].
  cbn [cp_onto].
  match goal with
  | |- option_map Dir (?F es []) = _ =>
      enough (G : forall des,
                 (forall k, In k (map fst es) -> assoc k des = None) ->
                 F es des = Some (des ++ es))
        by (rewrite G; [reflexivity | reflexivity])
  end.
  induction es as [|[k c] es IHes]; intros des Hfree.
  - now rewrite app_nil_r.
  - inversion IH as [|? ? Hc Hrest]; subst.
    inversion Hnd as [|? ? Hk Hnd']; subst.
    rewrite (Hfree k) by now left.
    cbn [snd] in Hc. rewrite Hc by (apply (Hwf k c); now left).
    rewrite IHes; trivial.
    + rewrite set_entry_fresh by (apply Hfree; now left).
      now rewrite <- app_assoc.
    + intros k2 c2 Hin. apply (Hwf k2 c2). now right.
    + intros k2 Hin. rewrite assoc_set_ne; [apply Hfree; now right|].
      intros ->. exact (Hk Hin).
Qed.

End CopyFacts.

(** * The published tree *)

Lemma kind_of_normalize (n : node) : kind_of (normalize n) = kind_of n.
Proof. now destruct n. Qed.

Lemma lookup_normalize_image (p : path) :
  forall T n,
    tidy T = true -> lookup p T = Some n ->
    lookup (map stripPrefix p) (normalize T) = Some (normalize n).
Proof.
  induction p as [|k p IH]; intros T n Htidy; cbn [lookup map].
  - now intros [= ->].
  - destruct T as [c|es]; [discriminate|].
    destruct (assoc k es) as [c|] eqn:E; [|discriminate].
    intros Hn. apply assoc_In in E.
    destruct (tidy_dir es Htidy) as [Hcl Hall].
    destruct (clash_free_spec _ Hcl) as (Hstrip & _ & _).
    cbn [normalize]. rewrite (assoc_normalized es Hstrip k c E).
    apply IH; [apply (Hall _ _ E) | exact Hn].
Qed.

Lemma lookup_normalize_source (q : path) :
  forall T m,
    tidy T = true -> lookup q (normalize T) = Some m ->
    exists p n, lookup p T = Some n /\ q = map stripPrefix p /\ m = normalize n.
Proof.
  induction q as [|x q IH]; intros T m Htidy; cbn [lookup].
  - intros [= <-]. now exists [], T.
  - destruct T as [c|es]; [discriminate|]. cbn [normalize].
    destruct (assoc x _) as [m0|] eqn:E; [|discriminate].
    intros Hm. apply assoc_In, in_map_iff in E as ([k c] & [= <- <-] & Hin).
    destruct (tidy_dir es Htidy) as [Hcl Hall].
    destruct (clash_free_spec _ Hcl) as (_ & Hnames & _).
    destruct (IH c m (proj2 (Hall _ _ Hin)) Hm) as (p & n & Hp & -> & ->).
    exists (k :: p), n. cbn [lookup map fst].
    rewrite (In_assoc _ k c es Hnames Hin). auto.
Qed.

(** A tree with the paths and contents of the normalised [T] is its
    normalised image. *)
Lemma same_tree_image (T D : node) :
  tidy T = true -> same_tree D (normalize T) -> normalized_image T D.
Proof.
  intros Htidy Hsame. split.
  - intros p n Hp. rewrite Hsame. unfold kind_at.
    rewrite (lookup_normalize_image p T n Htidy Hp). cbn.
    now rewrite kind_of_normalize.
  - intros q Hq.
    assert (Hk : kind_at q D <> None).
    { unfold kind_at. destruct (lookup q D); [discriminate | congruence]. }
    rewrite Hsame in Hk. unfold kind_at in Hk.
    destruct (lookup q (normalize T)) as [m|] eqn:E; [|now cbn in Hk].
    destruct (lookup_normalize_source q T m Htidy E) as (p & n & Hp & -> & _).
    exists p. split; [congruence | reflexivity].
Qed.

Lemma existsSync_step (p : path) (w : world) :
  existsSync p w
  = (Done (match lookup p (w_fs w) with Some _ => true | None => false end),
     logged (EvExists p) w).
Proof. reflexivity. Qed.

Lemma rmSync_step (p : path) (w : world) :
  rmSync p w = (Done tt, with_fs (remove p (w_fs w)) (logged (EvRm p) w)).
Proof. reflexivity. Qed.

Lemma cpSync_done (src dst : path) (w w' : world) :
  cpSync src dst w = (Done tt, w') -> cp_in src dst (w_fs w) = inr (w_fs w').
Proof.
  unfold cpSync, bind, emit, get_fs. cbn.
  destruct (cp_in src dst (w_fs w)); cbn; [discriminate|].
  now intros [= <-].
Qed.

(** A copy to a place where nothing is puts the source tree there. *)
Lemma cp_in_fresh (src dst : path) (k : string) (fs fs' s : node) :
  lookup src fs = Some s -> well_formed s = true ->
  lookup (dst ++ [k]) fs = None ->
  cp_in src (dst ++ [k]) fs = inr fs' ->
  lookup (dst ++ [k]) fs' = Some s.
Proof.
  intros Hs Hwf Hfree. unfold cp_in. rewrite Hs.
  destruct (is_prefix src (dst ++ [k])); [discriminate|].
  rewrite removelast_last.
  destruct (mkdir_p dst fs) as [fs1|] eqn:E1; [|discriminate].
  rewrite (mkdir_p_keeps_absent dst k fs fs1 E1 Hfree).
  rewrite (cp_onto_fresh s Hwf).
  destruct (put (dst ++ [k]) s fs1) as [fs2|] eqn:E2; [|discriminate].
  intros [= <-]. exact (lookup_put _ _ _ _ E2).
Qed.

Lemma readdirSync_file (p : path) (w : world) (c : string) :
  lookup p (w_fs w) = Some (File c) ->
  readdirSync p w = (Thrown ENOTDIR, logged (EvReaddir p) w).
Proof.
  intros H. unfold readdirSync, bind, emit, get_fs. cbn. now rewrite H.
Qed.

Lemma renameAll_on_file (fuel : nat) (p : path) (w : world) (c : string) :
  lookup p (w_fs w) = Some (File c) -> fst (renameAll fuel p w) <> Done tt.
Proof.
  intros H. destruct fuel as [|fuel]; cbn [renameAll]; [discriminate|].
  rewrite (bind_thrown _ _ _ _ _ (readdirSync_file p w c H)). discriminate.
Qed.

Section Published.

Variable __dirname : path.
Variable spawn_sync :
  string -> list string -> path -> node -> spawn_result * node.

Local Abbreviation base := (dirname __dirname).

Lemma docsDir_segments : docsDir __dirname = base ++ ".cache" :: ["next"; "docs"].
Proof. unfold docsDir, cacheDir. cbn. now rewrite <- !app_assoc. Qed.

Lemma docsPath_segments :
  docsPath __dirname = base ++ "src" :: ["content"; "docs"; "docs"].
Proof. unfold docsPath. cbn. now rewrite <- !app_assoc. Qed.

Lemma docsPath_last :
  docsPath __dirname = (base ++ ["src"; "content"; "docs"]) ++ ["docs"].
Proof. rewrite docsPath_segments. now rewrite <- app_assoc. Qed.

(** Destination reset and copy, after the renaming. *)
Lemma publish_copies (w w' : world) (s : node) :
  lookup (docsDir __dirname) (w_fs w) = Some s -> well_formed s = true ->
  ((published <- existsSync (docsPath __dirname) ;;
    (if published then rmSync (docsPath __dirname) else ret tt) ;;
    cpSync (docsDir __dirname) (docsPath __dirname)) w = (Done tt, w')) ->
  lookup (docsPath __dirname) (w_fs w') = Some s.
Proof.
  intros Hs Hwf. rewrite (bind_done _ _ _ _ _ (existsSync_step _ w)).
  set (w1 := logged (EvExists (docsPath __dirname)) w).
  assert (H2 : exists w2,
             (if match lookup (docsPath __dirname) (w_fs w) with
                 | Some _ => true | None => false end
              then rmSync (docsPath __dirname) else ret tt) w1 = (Done tt, w2)
             /\ lookup (docsDir __dirname) (w_fs w2) = Some s
             /\ lookup (docsPath __dirname) (w_fs w2) = None).
  { destruct (lookup (docsPath __dirname) (w_fs w)) eqn:E.
    - eexists. split; [apply rmSync_step|].
      unfold w1. cbn [w_fs with_fs logged]. split.
      + rewrite docsDir_segments, docsPath_segments.
        rewrite lookup_remove_apart by discriminate.
        now rewrite <- docsDir_segments.
      + apply lookup_remove_self. rewrite docsPath_segments.
        now destruct base.
    - exists w1. now split. }
  destruct H2 as (w2 & E2 & Hs2 & Hfree).
  rewrite (bind_done _ _ _ _ _ E2). intros Hcp.
  apply cpSync_done in Hcp. rewrite docsPath_last in *.
  exact (cp_in_fresh _ _ _ _ _ s Hs2 Hwf Hfree Hcp).
Qed.

(** C6, amended: after a successful run on a tidy checkout (in every
    directory, no two entries have the same stripped name, no stripped
    name is the name of another entry, and every stripped name is a proper
    file name), the destination is the segment-wise normalised image of
    the checked-out tree: each source path is there with every segment
    stripped and with the same content, and nothing else is there, so
    nothing of an earlier run is left. *)
Theorem published_tree_is_normalized_image
    (fuel : nat) (w w1 w2 : world) (T : node) :
  fetch __dirname spawn_sync w = (Done tt, w1) ->
  lookup (docsDir __dirname) (w_fs w1) = Some T ->
  tidy T = true -> depth T <= fuel ->
  main __dirname spawn_sync fuel w = (Done tt, w2) ->
  exists D,
    lookup (docsPath __dirname) (w_fs w2) = Some D /\ normalized_image T D.
Proof.
  intros Hfetch HT Htidy Hdepth Hmain.
  unfold main in Hmain. rewrite (bind_done _ _ _ _ _ Hfetch) in Hmain.
  unfold publish in Hmain.
  assert (Hdir : is_dir T = true).
  { destruct T as [c|es]; [exfalso|reflexivity].
    pose proof (renameAll_on_file fuel _ w1 c HT) as Hnot.
    unfold bind at 1 in Hmain.
    destruct (renameAll fuel (docsDir __dirname) w1) as [[[]|?|?|] ?];
      cbn [fst] in Hnot; congruence. }
  destruct (renameAll_normalizes fuel (docsDir __dirname) T w1 HT Hdir Htidy Hdepth)
    as (wR & ER & T' & Hfs & Hsame & Hwf & _).
  rewrite (bind_done _ _ _ _ _ ER) in Hmain.
  exists T'. split; [|now apply same_tree_image].
  apply (publish_copies wR w2 T'); trivial.
  rewrite Hfs. apply lookup_graft. congruence.
Qed.

End Published.

Lemma published_tree_is_normalized_image_witness :
  exists D,
    lookup (docsPath script_dir)
      (w_fs (snd (main script_dir (git_of upstream_docs 0 0) 4 start))) = Some D
    /\ normalized_image upstream_docs D.
Proof.
  apply (published_tree_is_normalized_image script_dir (git_of upstream_docs 0 0)
           4 start (snd (fetch script_dir (git_of upstream_docs 0 0) start))
           (snd (main script_dir (git_of upstream_docs 0 0) 4 start))
           upstream_docs).
  - vm_compute. reflexivity.
  - vm_compute. reflexivity.
  - vm_compute. reflexivity.
  - vm_compute. lia.
  - vm_compute. reflexivity.
Defined.

(** C6, as stated, fails: with the entries [1-2-a] and [2-a] in one
    directory the run succeeds, the first file is renamed over the second
    and then renamed again, and the destination holds the single path [a],
    with the content of [1-2-a]: the path [2-a], the normalised image of
    the source path [1-2-a], is not there. *)
Lemma colliding_names_lose_a_page :
  let r := main script_dir (git_of colliding_docs 0 0) 4 start in
  fst r = Done tt
  /\ lookup (docsPath script_dir) (w_fs (snd r)) = Some (Dir [("a", File "first")])
  /\ lookup ["1-2-a"] colliding_docs = Some (File "first")
  /\ map stripPrefix ["1-2-a"] = ["2-a"]
  /\ ~ normalized_image colliding_docs (Dir [("a", File "first")]).
Proof.
  cbv zeta. repeat split; try (vm_compute; reflexivity).
  intros [Himage _]. specialize (Himage ["1-2-a"] (File "first") eq_refl).
  discriminate Himage.
Qed.

(** Two entries with the same stripped name: the second renaming
    overwrites the result of the first, and one content is lost. *)
Lemma twin_names_lose_a_page :
  let r := main script_dir (git_of twin_docs 0 0) 4 start in
  fst r = Done tt
  /\ lookup (docsPath script_dir) (w_fs (snd r)) = Some (Dir [("a", File "second")])
  /\ ~ normalized_image twin_docs (Dir [("a", File "second")]).
Proof.
  cbv zeta. repeat split; try (vm_compute; reflexivity).
  intros [Himage _]. specialize (Himage ["1-a"] (File "first") eq_refl).
  discriminate Himage.
Qed.

(** * What does end a run *)

Section Aborts.

Variable __dirname : path.
Variable spawn_sync :
  string -> list string -> path -> node -> spawn_result * node.

Local Abbreviation cache := (cacheDir __dirname).
Local Abbreviation dest := (docsPath __dirname).

(** A command that cannot be launched is fatal: the process exits with
    code 1 and nothing that follows the call in the script is run. *)
Theorem failed_launch_ends_run {B : Type} (rest : unit -> M B)
    (command : string) (args : list string) (w : world) :
  let result := spawn_sync command args (w_cwd w) (w_fs w) in
  error (fst result) <> None ->
  bind (run spawn_sync command args) rest w
  = (Exited 1, with_fs (snd result) (logged (EvSpawn command args) w)).
Proof.
  intros result H. apply bind_exited.
  exact (run_error_exits spawn_sync command args w H).
Qed.

Lemma bind_assoc {A B C : Type} (m : M A) (f : A -> M B) (g : B -> M C)
    (w : world) :
  bind (bind m f) g w = bind m (fun a => bind (f a) g) w.
Proof. unfold bind. now destruct (m w) as [[a|e|c|] w']. Qed.

Lemma chdir_missing (p : path) (w : world) :
  lookup p (w_fs w) = None -> chdir p w = (Thrown ENOENT, logged (EvChdir p) w).
Proof.
  intros H. unfold chdir, bind, emit, get_fs. cbn. now rewrite H.
Qed.

Lemma dest_not_cache : dest <> cache.
Proof.
  rewrite docsPath_segments. unfold cacheDir. cbn.
  rewrite <- !app_assoc. intros H. apply app_inv_head in H. discriminate H.
Qed.

(** A clone that cannot be launched, or that leaves no cache directory
    behind, ends the run (by [process.exit(1)], or by the exception of
    [process.chdir]) before the destination is deleted or written: the
    file system is as the clone left it. *)
Theorem failed_clone_without_cache_aborts (fuel : nat) (w : world) :
  let fs0 :=
    match lookup cache (w_fs w) with
    | Some _ => remove cache (w_fs w)
    | None => w_fs w
    end in
  let result := spawn_sync "git" (clone_args __dirname) (w_cwd w) fs0 in
  let r := main __dirname spawn_sync fuel w in
  error (fst result) <> None \/ lookup cache (snd result) = None ->
  exit_code (fst r) = Some 1%Z
  /\ w_fs (snd r) = snd result
  /\ exists tr,
       w_log (snd r) = w_log w ++ tr
       /\ ~ In (EvRm dest) tr
       /\ ~ In (EvCp (docsDir __dirname) dest) tr.
Proof.
  intros fs0 result r H. subst r. unfold main, fetch.
  rewrite bind_assoc, (bind_done _ _ _ _ _ (existsSync_step cache w)).
  set (w0 := logged (EvExists cache) w).
  assert (H1 : exists w1 tr1,
             (if match lookup cache (w_fs w) with
                 | Some _ => true | None => false end
              then rmSync cache else ret tt) w0 = (Done tt, w1)
             /\ w_fs w1 = fs0 /\ w_cwd w1 = w_cwd w
             /\ w_log w1 = w_log w ++ tr1
             /\ ~ In (EvRm dest) tr1
             /\ ~ In (EvCp (docsDir __dirname) dest) tr1).
  { subst fs0. destruct (lookup cache (w_fs w)).
    - eexists. exists [EvExists cache; EvRm cache].
      split; [apply rmSync_step|]. unfold w0. cbn [w_fs w_cwd w_log with_fs logged].
      rewrite <- app_assoc. repeat split.
      + intros [E|[E|[]]]; [discriminate | injection E as E].
        now apply dest_not_cache.
      + intros [E|[E|[]]]; discriminate.
    - exists w0, [EvExists cache]. repeat split.
      + intros [E|[]]; discriminate.
      + intros [E|[]]; discriminate. }
  destruct H1 as (w1 & tr1 & E1 & Hfs1 & Hcwd1 & Hlog1 & Hrm1 & Hcp1).
  rewrite bind_assoc, (bind_done _ _ _ _ _ E1).
  assert (Hres : spawn_sync "git" (clone_args __dirname) (w_cwd w1) (w_fs w1) = result)
    by (now rewrite Hfs1, Hcwd1).
  destruct (error (fst result)) as [e|] eqn:Herr.
  - (* the clone could not be launched *)
    erewrite bind_exited.
    2:{ apply bind_exited. apply run_error_exits. rewrite Hres, Herr. discriminate. }
    cbn [fst snd exit_code w_fs w_log with_fs logged]. rewrite Hres, Hlog1.
    repeat split. exists (tr1 ++ [EvSpawn "git" (clone_args __dirname)]).
    rewrite app_assoc. repeat split.
    + intros Hin. apply in_app_or in Hin as [Hin|[E|[]]]; [auto | discriminate].
    + intros Hin. apply in_app_or in Hin as [Hin|[E|[]]]; [auto | discriminate].
  - (* it ran, and left no cache directory *)
    destruct H as [H|H]; [congruence|].
    rewrite bind_assoc.
    erewrite bind_done by (apply run_status_ignored; now rewrite Hres).
    erewrite bind_thrown.
    2:{ apply bind_thrown. apply chdir_missing.
        cbn [w_fs with_fs]. now rewrite Hres. }
    cbn [fst snd exit_code w_fs w_log with_fs logged]. rewrite Hres, Hlog1.
    repeat split.
    exists (tr1 ++ [EvSpawn "git" (clone_args __dirname); EvChdir cache]).
    rewrite <- !app_assoc. repeat split.
    + intros Hin. apply in_app_or in Hin as [Hin|[E|[E|[]]]]; [auto | discriminate..].
    + intros Hin. apply in_app_or in Hin as [Hin|[E|[E|[]]]]; [auto | discriminate..].
Qed.

End Aborts.

Lemma failed_launch_ends_run_witness :
  main script_dir no_git 4 start
  = (Exited 1,
     logged (EvSpawn "git" (clone_args script_dir))
       (logged (EvExists (cacheDir script_dir)) start)).
Proof.
  unfold main, fetch.
  rewrite bind_assoc, (bind_done _ _ _ _ _ (existsSync_step _ start)).
  rewrite bind_assoc. cbn [lookup start w_fs project assoc String.eqb Ascii.eqb Bool.eqb].
  rewrite (bind_done (ret tt) _ _ _ tt eq_refl).
  rewrite bind_assoc.
  apply (failed_launch_ends_run no_git).
  discriminate.
Defined.

Lemma failed_clone_without_cache_aborts_witness :
  let r := main script_dir unreachable_git 4 start in
  exit_code (fst r) = Some 1%Z
  /\ w_fs (snd r) = project
  /\ exists tr,
       w_log (snd r) = w_log start ++ tr
       /\ ~ In (EvRm (docsPath script_dir)) tr
       /\ ~ In (EvCp (docsDir script_dir) (docsPath script_dir)) tr.
Proof.
  apply (failed_clone_without_cache_aborts script_dir unreachable_git 4 start).
  right. reflexivity.
Defined.

(** * The file system: places apart, and what every step keeps *)

Section PlacesApart.

Implicit Types (p q d : path) (k s : string) (n fs new m : node)
  (es cur : list (string * node)).

Lemma apart_cons_same s p q : apart (s :: p) (s :: q) = apart p q.
Proof. unfold apart. cbn. now rewrite String.eqb_refl. Qed.

Lemma apart_sym p q : apart p q = apart q p.
Proof. unfold apart. apply andb_comm. Qed.

(** A place that is missing stays missing when one replaces it. *)
Lemma graft_absent p new n : lookup p n = None -> graft p new n = n.
Proof.
  revert n. induction p as [|s p IH]; intros n; cbn; [discriminate|].
  destruct n as [c|es]; [reflexivity|].
  destruct (assoc s es) as [c|] eqn:E; [|reflexivity].
  intros H. rewrite (IH _ H). now rewrite set_entry_same.
Qed.

(** Replacing below [d] is replacing at [d], whether [d] is there or not. *)
Lemma graft_under d q new n : exists new', graft (d ++ q) new n = graft d new' n.
Proof.
  destruct (lookup d n) as [m|] eqn:E.
  - exists (graft q new m). now apply graft_app.
  - exists new. rewrite (graft_absent d new n E).
    apply graft_absent. now rewrite lookup_app, E.
Qed.

Lemma graft_self d n : exists new, n = graft d new n.
Proof.
  destruct (lookup d n) as [m|] eqn:E.
  - exists m. symmetry. now apply graft_same.
  - exists n. symmetry. now apply graft_absent.
Qed.

(** Replacing at [d] is not seen from a place apart. *)
Lemma lookup_graft_apart d q new n :
  apart d q = true -> lookup q (graft d new n) = lookup q n.
Proof.
  revert q n. induction d as [|s d IH]; intros q n; [discriminate|].
  destruct q as [|t q]; [discriminate|].
  destruct n as [c|es]; [reflexivity|]. cbn [graft].
  destruct (assoc s es) as [c|] eqn:E; [|reflexivity].
  destruct (String.eqb_spec s t) as [<-|Hne].
  - rewrite apart_cons_same. intros H. cbn [lookup].
    rewrite assoc_set_eq, E. now apply IH.
  - intros _. cbn [lookup]. rewrite assoc_set_ne by congruence. reflexivity.
Qed.

(** Removing at [p] is not seen from a place apart. *)
Lemma lookup_remove_outside p q n :
  apart p q = true -> lookup q (remove p n) = lookup q n.
Proof.
  revert q n. induction p as [|s p IH]; intros q n; [discriminate|].
  destruct q as [|t q]; [discriminate|].
  destruct n as [c|es]; [now destruct p|].
  destruct (String.eqb_spec s t) as [<-|Hne].
  - rewrite apart_cons_same. intros H.
    assert (Hp : p <> []) by (intros ->; discriminate H).
    rewrite remove_deeper by exact Hp.
    destruct (assoc s es) as [c|] eqn:E; [|reflexivity].
    cbn [lookup]. rewrite assoc_set_eq, E. now apply IH.
  - intros _. cbn [remove lookup]. destruct p as [|u p].
    + cbn [lookup]. rewrite assoc_remove_ne by congruence. reflexivity.
    + destruct (assoc s es) as [c|]; [|reflexivity].
      cbn [lookup]. rewrite assoc_set_ne by congruence. reflexivity.
Qed.

Lemma apart_child d k q : apart d q = true -> apart (d ++ [k]) q = true.
Proof.
  revert q. induction d as [|s d IH]; intros q; [discriminate|].
  destruct q as [|t q]; [discriminate|]. cbn [app].
  destruct (String.eqb_spec s t) as [<-|Hne].
  - rewrite !apart_cons_same. apply IH.
  - intros _. unfold apart. cbn.
    destruct (String.eqb_spec s t); [congruence|].
    destruct (String.eqb_spec t s); [congruence|]. reflexivity.
Qed.

(** A child is found only in a directory. *)
Lemma lookup_child_inv d k n c :
  lookup (d ++ [k]) n = Some c ->
  exists cur, lookup d n = Some (Dir cur) /\ assoc k cur = Some c.
Proof.
  rewrite lookup_app. destruct (lookup d n) as [[x|cur]|]; cbn; try discriminate.
  destruct (assoc k cur) as [c'|] eqn:E; [|discriminate].
  intros [= <-]. now exists cur.
Qed.

Lemma is_prefix_removelast d q : is_prefix (removelast d) (d ++ q) = true.
Proof.
  induction d as [|s d IH]; [reflexivity|].
  destruct d as [|t d]; [reflexivity|].
  change (removelast (s :: t :: d)) with (s :: removelast (t :: d)).
  cbn [app is_prefix]. rewrite String.eqb_refl. exact IH.
Qed.

End PlacesApart.

Section KeptByTheTree.

Implicit Types (p q d : path) (k s : string) (n fs new m : node)
  (es cur : list (string * node)).

Lemma proper_names_dir es :
  proper_names (Dir es) = true
  <-> forall k c, In (k, c) es -> proper_name k = true /\ proper_names c = true.
Proof.
  cbn [proper_names]. rewrite forallb_forall. split.
  - intros H k c Hin. specialize (H _ Hin). now apply andb_true_iff in H.
  - intros H [k c] Hin. apply andb_true_iff. exact (H _ _ Hin).
Qed.

Lemma proper_names_set_entry k c es :
  proper_name k = true -> proper_names c = true ->
  proper_names (Dir es) = true -> proper_names (Dir (set_entry k c es)) = true.
Proof.
  rewrite !proper_names_dir. intros Hk Hc H k' c' Hin.
  apply In_set_entry in Hin as [[= -> ->]|Hin]; auto.
Qed.

Lemma proper_names_remove_entry k es :
  proper_names (Dir es) = true -> proper_names (Dir (remove_entry k es)) = true.
Proof.
  rewrite !proper_names_dir. intros H k' c' Hin.
  apply In_remove_entry in Hin. auto.
Qed.

Lemma proper_names_child k c es :
  proper_names (Dir es) = true -> assoc k es = Some c ->
  proper_name k = true /\ proper_names c = true.
Proof.
  rewrite proper_names_dir. intros H Hk. apply assoc_In in Hk. auto.
Qed.

Lemma proper_names_lookup p n m :
  proper_names n = true -> lookup p n = Some m -> proper_names m = true.
Proof.
  revert n. induction p as [|s p IH]; intros n Hn; cbn.
  - now intros [= <-].
  - destruct n as [c|es]; [discriminate|].
    destruct (assoc s es) as [c|] eqn:E; [|discriminate].
    apply IH. exact (proj2 (proper_names_child s c es Hn E)).
Qed.

Lemma proper_names_remove p n :
  proper_names n = true -> proper_names (remove p n) = true.
Proof.
  revert n. induction p as [|s p IH]; intros n Hn; [exact Hn|].
  destruct n as [c|es]; [now destruct p|].
  destruct p as [|t p].
  - now apply proper_names_remove_entry.
  - rewrite remove_deeper by discriminate.
    destruct (assoc s es) as [c|] eqn:E; [|exact Hn].
    destruct (proper_names_child s c es Hn E) as [Hs Hc].
    apply proper_names_set_entry; auto.
Qed.

Lemma put_deeper s (r : path) new es :
  r <> [] ->
  put (s :: r) new (Dir es)
  = match assoc s es with
    | Some c =>
        match put r new c with
        | Some c' => Some (Dir (set_entry s c' es))
        | None => None
        end
    | None => None
    end.
Proof. destruct r; [congruence | reflexivity]. Qed.

Lemma proper_names_put d k new n n' :
  proper_names n = true -> proper_names new = true -> proper_name k = true ->
  put (d ++ [k]) new n = Some n' -> proper_names n' = true.
Proof.
  revert n n'. induction d as [|s d IH]; intros n n' Hn Hnew Hk.
  - destruct n as [c|es]; cbn; [discriminate|]. intros [= <-].
    now apply proper_names_set_entry.
  - destruct n as [c|es]; cbn [app]; [cbn; now destruct (d ++ [k])|].
    rewrite put_deeper by (now destruct d).
    destruct (assoc s es) as [c|] eqn:E; [|discriminate].
    destruct (put (d ++ [k]) new c) as [c'|] eqn:Ep; [|discriminate].
    intros [= <-]. destruct (proper_names_child s c es Hn E) as [Hs Hc].
    apply proper_names_set_entry; auto. exact (IH c c' Hc Hnew Hk Ep).
Qed.

Lemma well_formed_set_entry k c es :
  well_formed c = true ->
  well_formed (Dir es) = true -> well_formed (Dir (set_entry k c es)) = true.
Proof.
  rewrite !well_formed_dir. intros Hc [Hnd H]. split; [now apply NoDup_set_entry|].
  intros k' c' Hin. apply In_set_entry in Hin as [[= -> ->]|Hin]; eauto.
Qed.

Lemma well_formed_remove_entry k es :
  well_formed (Dir es) = true -> well_formed (Dir (remove_entry k es)) = true.
Proof.
  rewrite !well_formed_dir. intros [Hnd H]. split; [now apply NoDup_remove_entry|].
  intros k' c' Hin. apply In_remove_entry in Hin. eauto.
Qed.

Lemma well_formed_child k c es :
  well_formed (Dir es) = true -> assoc k es = Some c -> well_formed c = true.
Proof.
  rewrite well_formed_dir. intros [_ H] Hk. apply assoc_In in Hk. eauto.
Qed.

Lemma well_formed_lookup p n m :
  well_formed n = true -> lookup p n = Some m -> well_formed m = true.
Proof.
  revert n. induction p as [|s p IH]; intros n Hn; cbn.
  - now intros [= <-].
  - destruct n as [c|es]; [discriminate|].
    destruct (assoc s es) as [c|] eqn:E; [|discriminate].
    apply IH. exact (well_formed_child s c es Hn E).
Qed.

Lemma well_formed_remove p n :
  well_formed n = true -> well_formed (remove p n) = true.
Proof.
  revert n. induction p as [|s p IH]; intros n Hn; [exact Hn|].
  destruct n as [c|es]; [now destruct p|].
  destruct p as [|t p].
  - now apply well_formed_remove_entry.
  - rewrite remove_deeper by discriminate.
    destruct (assoc s es) as [c|] eqn:E; [|exact Hn].
    apply well_formed_set_entry; [|exact Hn].
    apply IH. exact (well_formed_child s c es Hn E).
Qed.

Lemma well_formed_put p new n n' :
  well_formed n = true -> well_formed new = true ->
  put p new n = Some n' -> well_formed n' = true.
Proof.
  revert n n'. induction p as [|s p IH]; intros n n' Hn Hnew; [discriminate|].
  destruct n as [c|es]; [now destruct p|].
  destruct p as [|t p].
  - cbn. intros [= <-]. now apply well_formed_set_entry.
  - rewrite put_deeper by discriminate.
    destruct (assoc s es) as [c|] eqn:E; [|discriminate].
    destruct (put (t :: p) new c) as [c'|] eqn:Ep; [|discriminate].
    intros [= <-]. apply well_formed_set_entry; [|exact Hn].
    exact (IH c c' (well_formed_child s c es Hn E) Hnew Ep).
Qed.

(** [rename] keeps the tree well-formed. *)
Lemma rename_in_well_formed p q fs fs' :
  well_formed fs = true -> rename_in p q fs = inr fs' -> well_formed fs' = true.
Proof.
  intros Hwf. unfold rename_in.
  destruct (lookup p fs) as [src|] eqn:Es; [|discriminate].
  destruct (path_eqb p q); [now intros [= <-]|].
  destruct (is_dir src && is_prefix p q); [discriminate|].
  destruct (is_prefix q p); [discriminate|].
  assert (G : forall fs1, put q src (remove p fs) = Some fs1 -> well_formed fs1 = true).
  { intros fs1. apply well_formed_put; [now apply well_formed_remove|].
    exact (well_formed_lookup p fs src Hwf Es). }
  destruct (lookup q fs) as [[x|[|e es]]|], src;
    try discriminate;
    (destruct (put q _ (remove p fs)) as [fs1|] eqn:Ep; [|discriminate]);
    intros [= <-]; now apply G.
Qed.

(** A renaming inside a directory changes the node of that directory
    only, and keeps the names proper when the new name is. *)
Lemma rename_in_sibling d k k' fs fs' :
  rename_in (d ++ [k]) (d ++ [k']) fs = inr fs' ->
  (exists new, fs' = graft d new fs)
  /\ (proper_names fs = true -> proper_name k' = true -> proper_names fs' = true).
Proof.
  unfold rename_in.
  destruct (lookup (d ++ [k]) fs) as [src|] eqn:Es; [|discriminate].
  destruct (path_eqb (d ++ [k]) (d ++ [k'])).
  { intros [= <-]. split; [apply graft_self | trivial]. }
  destruct (is_dir src && is_prefix (d ++ [k]) (d ++ [k'])); [discriminate|].
  destruct (is_prefix (d ++ [k']) (d ++ [k])); [discriminate|].
  destruct (lookup_child_inv d k fs src Es) as (cur & Hd & Hk).
  assert (G : forall fs1,
             put (d ++ [k']) src (remove (d ++ [k]) fs) = Some fs1 ->
             (exists new, fs1 = graft d new fs)
             /\ (proper_names fs = true -> proper_name k' = true ->
                 proper_names fs1 = true)).
  { intros fs1 Hput. split.
    - rewrite (remove_child d k fs cur Hd) in Hput.
      rewrite (put_child d k' src _ (remove_entry k cur)) in Hput
        by (apply lookup_graft; congruence).
      injection Hput as <-. rewrite graft_graft. now eexists.
    - intros Hpn Hk'.
      apply (proper_names_put d k' src (remove (d ++ [k]) fs) fs1); trivial.
      + now apply proper_names_remove.
      + exact (proper_names_lookup _ fs src Hpn Es). }
  destruct (lookup (d ++ [k']) fs) as [[x|[|e es]]|], src;
    try discriminate;
    (destruct (put (d ++ [k']) _ (remove (d ++ [k]) fs)) as [fs1|] eqn:Ep;
     [|discriminate]);
    intros [= <-]; now apply G.
Qed.

(** Nothing is renamed onto a place it lies in. *)
Lemma rename_in_onto_ancestor p q fs :
  is_prefix q p = true -> path_eqb p q = false ->
  exists e, rename_in p q fs = inl e.
Proof.
  intros Hqp Hne. unfold rename_in.
  destruct (lookup p fs) as [src|]; [|now exists ENOENT].
  rewrite Hne. destruct (is_dir src && is_prefix p q); [now exists EINVAL|].
  rewrite Hqp. now exists ENOTEMPTY.
Qed.

End KeptByTheTree.

(** * Names: when the stripped name is no name *)

Section StrippedNames.

Implicit Types (k s : string).

Lemma stripPrefix_no_slash k : has_slash k = false -> has_slash (stripPrefix k) = false.
Proof.
  rewrite stripPrefix_rest.
  destruct (numeric_prefix_rest k) as [rest|] eqn:E; [|trivial].
  destruct (numeric_prefix_rest_split _ _ E) as (ds & _ & _ & ->).
  rewrite !has_slash_append. intros H.
  apply orb_false_iff in H as [_ H]. now apply orb_false_iff in H as [_ H].
Qed.

Lemma improper_cases s :
  has_slash s = false -> proper_name s = false ->
  s = ""%string \/ s = "."%string \/ s = ".."%string.
Proof.
  unfold proper_name. intros ->.
  destruct (String.eqb_spec s ""); [auto|].
  destruct (String.eqb_spec s "."); [auto|].
  destruct (String.eqb_spec s ".."); [auto|]. discriminate.
Qed.

Lemma proper_no_slash s : proper_name s = true -> has_slash s = false.
Proof.
  unfold proper_name. rewrite !andb_true_iff.
  intros [_ H]. now apply negb_true_iff in H.
Qed.

Lemma append_empty s : (s ++ "")%string = s.
Proof. induction s as [|c s IH]; cbn; [reflexivity | now rewrite IH]. Qed.

Lemma strip_improper_iff (k : string) :
  proper_name k = true ->
  (proper_name (stripPrefix k) = false
   <-> exists ds,
         ds <> ""%string /\ all_digits ds = true
         /\ (k = (ds ++ "-")%string \/ k = (ds ++ "-.")%string
             \/ k = (ds ++ "-..")%string)).
Proof.
  intros Hk. split.
  - intros Hbad.
    pose proof (stripPrefix_no_slash k (proper_no_slash k Hk)) as Hslash.
    pose proof (improper_cases _ Hslash Hbad) as Hcases.
    rewrite stripPrefix_rest in Hcases, Hbad.
    destruct (numeric_prefix_rest k) as [rest|] eqn:E; [|congruence].
    destruct (numeric_prefix_rest_split _ _ E) as (ds & Hne & Hds & ->).
    exists ds. repeat split; trivial.
    destruct Hcases as [ -> | [ -> | -> ] ]; auto.
  - intros (ds & Hne & Hds & Hcases).
    assert (H : stripPrefix k = ""%string \/ stripPrefix k = "."%string
                \/ stripPrefix k = ".."%string).
    { destruct Hcases as [ -> | [ -> | -> ] ].
      - left. apply (stripPrefix_prefixed ds "" Hne Hds).
      - right; left. apply (stripPrefix_prefixed ds "." Hne Hds).
      - right; right. apply (stripPrefix_prefixed ds ".." Hne Hds). }
    destruct H as [ -> | [ -> | -> ] ]; reflexivity.
Qed.

Lemma length_removelast (d : path) : List.length (removelast d) <= List.length d.
Proof.
  induction d as [|s d IH]; [reflexivity|].
  destruct d as [|t d]; [cbn; lia|].
  change (removelast (s :: t :: d)) with (s :: removelast (t :: d)).
  cbn [List.length] in *. lia.
Qed.

(** Where the new path of an entry lies when its stripped name is no
    name: on the directory itself, or above it. *)
Lemma improper_join (d : path) k k' :
  k' = ""%string \/ k' = "."%string \/ k' = ".."%string ->
  is_prefix (path_join d k') (d ++ [k]) = true
  /\ path_eqb (d ++ [k]) (path_join d k') = false.
Proof.
  intros H.
  assert (Hj : path_join d k' = d \/ path_join d k' = removelast d)
    by (destruct H as [ -> | [ -> | -> ] ]; auto).
  destruct Hj as [ -> | -> ]; split.
  - apply is_prefix_app.
  - apply path_eqb_false, child_not_parent.
  - apply is_prefix_removelast.
  - apply path_eqb_false. intros E.
    apply (f_equal (@List.length string)) in E.
    rewrite length_app in E. cbn in E.
    pose proof (length_removelast d). lia.
Qed.

Section ImproperEntry.

Variable fuel : nat.
Variable d : path.

Let body (item : Dirent) : M unit :=
  let oldPath := path_join d (name item) in
  let newName := stripPrefix (name item) in
  let newPath := path_join d newName in
  (if negb (path_eqb oldPath newPath)
   then renameSync oldPath newPath
   else ret tt) ;;
  (if isDirectory item
   then renameAll fuel newPath
   else ret tt).

Lemma improper_item_throws (item : Dirent) (w : world) :
  proper_name (name item) = true ->
  proper_name (stripPrefix (name item)) = false ->
  exists e w', body item w = (Thrown e, w').
Proof.
  intros Hk Hk'. unfold body. cbv zeta.
  rewrite (path_join_proper d _ Hk).
  pose proof (stripPrefix_no_slash _ (proper_no_slash _ Hk)) as Hslash.
  destruct (improper_join d (name item) _ (improper_cases _ Hslash Hk'))
    as [Hpre Hne].
  rewrite Hne. cbn [negb].
  destruct (rename_in_onto_ancestor _ _ (w_fs w) Hpre Hne) as [e E].
  rewrite (bind_thrown _ _ _ _ _ (renameSync_throws _ _ _ _ E)).
  now eexists _, _.
Qed.

Lemma improper_item_in_loop (items : list Dirent) (w : world) :
  Forall (fun item => proper_name (name item) = true) items ->
  Exists (fun item => proper_name (stripPrefix (name item)) = false) items ->
  fst (for_each items body w) <> Done tt.
Proof.
  revert w. induction items as [|item items IH]; intros w Hall Hex.
  - inversion Hex.
  - inversion Hall as [|? ? Hitem Hrest]; subst. cbn [for_each].
    inversion Hex as [? ? Hbad|? ? Hlater]; subst.
    + destruct (improper_item_throws item w Hitem Hbad) as (e & w' & E).
      rewrite (bind_thrown _ _ _ _ _ E). discriminate.
    + unfold bind. destruct (body item w) as [[[]|e|c|] w1]; cbn [fst];
        try discriminate.
      now apply IH.
Qed.

End ImproperEntry.

(** An entry name (not empty, not [.] or [..], without a slash) gives the
    old path [dirPath/name].  Its stripped name is no name exactly when it
    is digits and a hyphen followed by nothing, [.] or [..].  For every
    other name the new path is the sibling [dirPath/stripPrefix(name)].
    For those names the new path is the directory itself or the one above
    it and differs from the old path, so that the renaming is attempted;
    the file system refuses it whatever it holds; and a [renameAll] of a
    directory that lists such a name among proper ones does not end
    normally. *)
Theorem stripped_name_improper (dirPath : path) (k : string) :
  proper_name k = true ->
  path_join dirPath k = dirPath ++ [k]
  /\ (proper_name (stripPrefix k) = false
      <-> exists ds,
            ds <> ""%string /\ all_digits ds = true
            /\ (k = (ds ++ "-")%string \/ k = (ds ++ "-.")%string
                \/ k = (ds ++ "-..")%string))
  /\ (proper_name (stripPrefix k) = true ->
      path_join dirPath (stripPrefix k) = dirPath ++ [stripPrefix k])
  /\ (proper_name (stripPrefix k) = false ->
      (path_join dirPath (stripPrefix k) = dirPath
       \/ path_join dirPath (stripPrefix k) = removelast dirPath)
      /\ path_join dirPath (stripPrefix k) <> path_join dirPath k
      /\ (forall fs, exists e,
            rename_in (path_join dirPath k)
              (path_join dirPath (stripPrefix k)) fs = inl e)
      /\ (forall fuel w es,
            lookup dirPath (w_fs w) = Some (Dir es) ->
            forallb proper_name (map fst es) = true ->
            In k (map fst es) ->
            fst (renameAll (S fuel) dirPath w) <> Done tt)).
Proof.
  intros Hk. split; [now apply path_join_proper|].
  split; [now apply strip_improper_iff|].
  split; [apply path_join_proper|].
  intros Hk'.
  pose proof (stripPrefix_no_slash k (proper_no_slash k Hk)) as Hslash.
  pose proof (improper_cases _ Hslash Hk') as Hcases.
  destruct (improper_join dirPath k _ Hcases) as [Hpre Hne].
  rewrite (path_join_proper dirPath k Hk).
  split; [|split; [|split]].
  - destruct Hcases as [ -> | [ -> | -> ] ]; auto.
  - apply path_eqb_false in Hne. congruence.
  - intros fs. now apply rename_in_onto_ancestor.
  - intros fuel w es Hd Hes Hin. cbn [renameAll].
    rewrite (bind_done _ _ _ _ _ (readdirSync_dir dirPath w es Hd)).
    apply improper_item_in_loop.
    + apply Forall_forall. intros item Hitem.
      apply in_map_iff in Hitem as (e & <- & He).
      rewrite forallb_forall in Hes. exact (Hes _ (in_map fst _ _ He)).
    + apply Exists_exists.
      apply in_map_iff in Hin as (e & <- & He).
      exists (dirent_of e). split; [now apply in_map | exact Hk'].
Qed.

Lemma stripped_name_improper_witness :
  let k := "2024-"%string in
  let w := {| w_fs := Dir [("docs", Dir [("01-a.mdx", File "a"); (k, File "x")])];
              w_cwd := []; w_log := [] |} in
  proper_name (stripPrefix k) = false
  /\ path_join ["docs"] k = ["docs"; k]
  /\ path_join ["docs"] (stripPrefix k) = ["docs"]
  /\ (forall fs, exists e, rename_in ["docs"; k] ["docs"] fs = inl e)
  /\ fst (renameAll 1 ["docs"] w) <> Done tt.
Proof.
  intros k w.
  destruct (stripped_name_improper ["docs"] k eq_refl) as (Hold & _ & _ & Hbad).
  destruct (Hbad eq_refl) as (_ & _ & Hren & Hrun).
  split; [reflexivity|]. split; [exact Hold|]. split; [reflexivity|].
  split; [exact Hren|].
  apply (Hrun 0 w [("01-a.mdx", File "a"); (k, File "x")]).
  - reflexivity.
  - reflexivity.
  - right. now left.
Defined.

End StrippedNames.

(** * Steps that keep a property of the file system *)

Section Keeping.

Context {A B : Type}.
Variable P : node -> Prop.

Lemma keeps_ret (a : A) : keeps P (ret a).
Proof. intros w H. exact H. Qed.

Lemma keeps_bind (m : M A) (f : A -> M B) :
  keeps P m -> (forall a, keeps P (f a)) -> keeps P (bind m f).
Proof.
  intros Hm Hf w Hw. unfold bind. specialize (Hm w Hw).
  destruct (m w) as [[a|e|c|] w1]; cbn [snd] in *; trivial.
  now apply Hf.
Qed.

End Keeping.

Lemma keeps_for_each {A : Type} (P : node -> Prop) (items : list A)
    (body : A -> M unit) :
  (forall item, In item items -> keeps P (body item)) ->
  keeps P (for_each items body).
Proof.
  induction items as [|item items IH]; intros H; cbn [for_each].
  - apply keeps_ret.
  - apply keeps_bind; [apply H; now left|]. intros _. apply IH.
    intros it Hin. apply H. now right.
Qed.

Lemma keeps_existsSync (P : node -> Prop) (p : path) : keeps P (existsSync p).
Proof. intros w H. exact H. Qed.

Lemma keeps_readdirSync (P : node -> Prop) (p : path) : keeps P (readdirSync p).
Proof.
  intros w H. unfold readdirSync, bind, emit, get_fs. cbn.
  now destruct (lookup p (w_fs w)) as [[]|].
Qed.

Lemma keeps_chdir (P : node -> Prop) (p : path) : keeps P (chdir p).
Proof.
  intros w H. unfold chdir, bind, emit, get_fs. cbn.
  now destruct (lookup p (w_fs w)) as [[]|].
Qed.

Lemma keeps_rmSync (P : node -> Prop) (p : path) :
  (forall fs, P fs -> P (remove p fs)) -> keeps P (rmSync p).
Proof. intros H w Hw. cbn. now apply H. Qed.

Lemma keeps_renameSync (P : node -> Prop) (p q : path) :
  (forall fs fs', P fs -> rename_in p q fs = inr fs' -> P fs') ->
  keeps P (renameSync p q).
Proof.
  intros H w Hw. unfold renameSync, bind, emit, get_fs. cbn.
  destruct (rename_in p q (w_fs w)) as [e|fs'] eqn:E; cbn; [exact Hw|].
  exact (H _ _ Hw E).
Qed.

(** [renameAll] never puts a name twice into a directory. *)
Lemma renameAll_well_formed (fuel : nat) (d : path) :
  keeps (fun fs => well_formed fs = true) (renameAll fuel d).
Proof.
  revert d. induction fuel as [|fuel IH]; intros d; cbn [renameAll].
  - intros w H. exact H.
  - apply keeps_bind; [apply keeps_readdirSync|]. intros items.
    apply keeps_for_each. intros item _.
    apply keeps_bind.
    + destruct (negb _); [|apply keeps_ret].
      apply keeps_renameSync. intros fs fs'. apply rename_in_well_formed.
    + intros _. destruct (isDirectory item); [apply IH | apply keeps_ret].
Qed.

(** * Renaming stays inside its directory *)

Section StaysInside.

Variable fuel : nat.
Hypothesis below :
  forall d w,
    proper_names (w_fs w) = true ->
    (exists new, w_fs (snd (renameAll fuel d w)) = graft d new (w_fs w))
    /\ proper_names (w_fs (snd (renameAll fuel d w))) = true.

Variable d : path.

Let body (item : Dirent) : M unit :=
  let oldPath := path_join d (name item) in
  let newName := stripPrefix (name item) in
  let newPath := path_join d newName in
  (if negb (path_eqb oldPath newPath)
   then renameSync oldPath newPath
   else ret tt) ;;
  (if isDirectory item
   then renameAll fuel newPath
   else ret tt).

Lemma body_inside (item : Dirent) (w : world) :
  proper_name (name item) = true ->
  proper_names (w_fs w) = true ->
  (exists new, w_fs (snd (body item w)) = graft d new (w_fs w))
  /\ proper_names (w_fs (snd (body item w))) = true.
Proof.
  intros Hk Hw. unfold body. cbv zeta.
  rewrite (path_join_proper d _ Hk).
  set (k := name item) in *. set (k' := stripPrefix k).
  destruct (proper_name k') eqn:Hk'.
  - (* the stripped name is a name: the new path is a sibling *)
    rewrite (path_join_proper d k' Hk').
    assert (HR : exists o w1,
               (if negb (path_eqb (d ++ [k]) (d ++ [k']))
                then renameSync (d ++ [k]) (d ++ [k']) else ret tt) w = (o, w1)
               /\ (exists new, w_fs w1 = graft d new (w_fs w))
               /\ proper_names (w_fs w1) = true).
    { destruct (negb (path_eqb (d ++ [k]) (d ++ [k']))).
      - destruct (rename_in (d ++ [k]) (d ++ [k']) (w_fs w)) as [e|fs1] eqn:E.
        + rewrite (renameSync_throws _ _ _ _ E). do 2 eexists.
          split; [reflexivity|]. split; [apply graft_self | exact Hw].
        + rewrite (renameSync_ok _ _ _ _ E). do 2 eexists.
          split; [reflexivity|].
          destruct (rename_in_sibling d k k' _ _ E) as [Hg Hp]. cbn. auto.
      - exists (Done tt), w. split; [reflexivity|].
        split; [apply graft_self | exact Hw]. }
    destruct HR as (o & w1 & ER & [new1 Hg1] & Hp1).
    unfold bind. rewrite ER.
    destruct o as [[]|e|c|]; cbn [snd]; try (split; [now exists new1 | exact Hp1]).
    destruct (isDirectory item).
    + destruct (below (d ++ [k']) w1 Hp1) as [[new2 Hg2] Hp2].
      split; [|exact Hp2]. rewrite Hg2, Hg1.
      destruct (graft_under d [k'] new2 (graft d new1 (w_fs w))) as [new3 ->].
      exists new3. apply graft_graft.
    + cbn. split; [now exists new1 | exact Hp1].
  - (* it is not: the renaming is refused, and nothing has changed *)
    pose proof (stripPrefix_no_slash k (proper_no_slash k Hk)) as Hslash.
    destruct (improper_join d k k' (improper_cases k' Hslash Hk')) as [Hpre Hne].
    rewrite Hne. cbn [negb].
    destruct (rename_in_onto_ancestor _ _ (w_fs w) Hpre Hne) as [e E].
    rewrite (bind_thrown _ _ _ _ _ (renameSync_throws _ _ _ _ E)).
    cbn. split; [apply graft_self | exact Hw].
Qed.

Lemma for_each_inside (items : list Dirent) (w : world) :
  Forall (fun item => proper_name (name item) = true) items ->
  proper_names (w_fs w) = true ->
  (exists new, w_fs (snd (for_each items body w)) = graft d new (w_fs w))
  /\ proper_names (w_fs (snd (for_each items body w))) = true.
Proof.
  revert w. induction items as [|item items IH]; intros w Hitems Hw; cbn [for_each].
  - cbn. split; [apply graft_self | exact Hw].
  - inversion Hitems as [|? ? Hitem Hrest]; subst.
    destruct (body_inside item w Hitem Hw) as [[new1 Hg1] Hp1].
    unfold bind.
    destruct (body item w) as [[[]|e|c|] w1]; cbn [snd] in *;
      try (split; [now exists new1 | exact Hp1]).
    destruct (IH w1 Hrest Hp1) as [[new2 Hg2] Hp2].
    split; [|exact Hp2]. exists new2. rewrite Hg2, Hg1. apply graft_graft.
Qed.

End StaysInside.

(** Whatever [renameAll] does, it does it to the node of its directory,
    and the names stay proper. *)
Lemma renameAll_grafts (fuel : nat) :
  forall d w,
    proper_names (w_fs w) = true ->
    (exists new, w_fs (snd (renameAll fuel d w)) = graft d new (w_fs w))
    /\ proper_names (w_fs (snd (renameAll fuel d w))) = true.
Proof.
  induction fuel as [|fuel IH]; intros d w Hw.
  - cbn. split; [apply graft_self | exact Hw].
  - cbn [renameAll].
    destruct (lookup d (w_fs w)) as [[c|es]|] eqn:Hd.
    + rewrite (bind_thrown _ _ _ _ _ (readdirSync_file d w c Hd)).
      cbn. split; [apply graft_self | exact Hw].
    + rewrite (bind_done _ _ _ _ _ (readdirSync_dir d w es Hd)).
      refine (for_each_inside fuel IH d _ (logged (EvReaddir d) w) _ _).
      * pose proof (proper_names_lookup d _ _ Hw Hd) as Hes.
        rewrite proper_names_dir in Hes.
        apply Forall_forall. intros item Hin.
        apply in_map_iff in Hin as ([k c] & <- & Hin).
        exact (proj1 (Hes _ _ Hin)).
      * exact Hw.
    + unfold bind, readdirSync, emit, get_fs. cbn. rewrite Hd. cbn.
      split; [apply graft_self | exact Hw].
Qed.

(** In a file system whose names are proper, no run of [renameAll],
    finished or not, changes anything at a place apart from its
    directory. *)
Theorem renameAll_stays_inside (fuel : nat) (dirPath : path) (w : world) :
  proper_names (w_fs w) = true ->
  let w' := snd (renameAll fuel dirPath w) in
  (forall q, apart dirPath q = true -> lookup q (w_fs w') = lookup q (w_fs w))
  /\ proper_names (w_fs w') = true.
Proof.
  intros Hw w'. destruct (renameAll_grafts fuel dirPath w Hw) as [[new Hg] Hp].
  split; [|exact Hp]. intros q Hq. subst w'. rewrite Hg.
  now apply lookup_graft_apart.
Qed.

Lemma renameAll_stays_inside_witness :
  let w := {| w_fs := Dir [("docs", Dir [("01-a", Dir [("02-b.mdx", File "b")])]);
                            ("site", Dir [("01-keep.mdx", File "k")])];
              w_cwd := []; w_log := [] |} in
  let w' := snd (renameAll 3 ["docs"] w) in
  (forall q, apart ["docs"] q = true -> lookup q (w_fs w') = lookup q (w_fs w))
  /\ proper_names (w_fs w') = true.
Proof.
  intros w. apply (renameAll_stays_inside 3 ["docs"] w). reflexivity.
Defined.

(** * What a copy leaves alone *)

Lemma apart_app_same (b p q : path) : apart (b ++ p) (b ++ q) = apart p q.
Proof.
  induction b as [|s b IH]; [reflexivity|].
  cbn [app]. now rewrite apart_cons_same.
Qed.

Lemma apart_nil_r (p : path) : apart p [] = false.
Proof. now destruct p. Qed.

Lemma apart_cons_eq s t (p q : path) :
  apart (s :: p) (t :: q) = true -> s = t -> apart p q = true.
Proof. intros H <-. now rewrite apart_cons_same in H. Qed.

Lemma lookup_put_apart p q new n n' :
  put p new n = Some n' -> apart p q = true -> lookup q n' = lookup q n.
Proof.
  revert q n n'. induction p as [|s p IH]; intros q n n'; [discriminate|].
  destruct n as [c|es]; [now destruct p|].
  destruct q as [|t q]; [now rewrite apart_nil_r|].
  destruct p as [|u p].
  - cbn [put]. intros [= <-] Hap. cbn [lookup].
    destruct (String.eqb_spec s t) as [<-|Hne].
    + unfold apart in Hap. cbn in Hap. now rewrite String.eqb_refl in Hap.
    + now rewrite assoc_set_ne by congruence.
  - rewrite put_deeper by discriminate.
    destruct (assoc s es) as [c|] eqn:E; [|discriminate].
    destruct (put (u :: p) new c) as [c'|] eqn:Ec; [|discriminate].
    intros [= <-] Hap. cbn [lookup].
    destruct (String.eqb_spec s t) as [<-|Hne].
    + rewrite assoc_set_eq, E. apply (IH _ _ _ Ec).
      now rewrite apart_cons_same in Hap.
    + now rewrite assoc_set_ne by congruence.
Qed.

Lemma lookup_mkdir_p_apart p q n n' :
  mkdir_p p n = Some n' -> apart p q = true -> lookup q n' = lookup q n.
Proof.
  revert q n n'. induction p as [|s p IH]; intros q n n'.
  - intros _ H. discriminate H.
  - destruct n as [c|es]; [discriminate|].
    destruct q as [|t q]; [now rewrite apart_nil_r|].
    cbn [mkdir_p].
    destruct (assoc s es) as [c|] eqn:E.
    + destruct (mkdir_p p c) as [c'|] eqn:Ec; [|discriminate].
      intros [= <-] Hap. cbn [lookup].
      destruct (String.eqb_spec s t) as [<-|Hne].
      * rewrite assoc_set_eq, E. apply (IH _ _ _ Ec).
        now rewrite apart_cons_same in Hap.
      * now rewrite assoc_set_ne by congruence.
    + intros [= <-] Hap. cbn [lookup].
      destruct (String.eqb_spec s t) as [<-|Hne].
      * rewrite assoc_set_eq, E.
        (* the place lies below the fresh chain, or off it *)
        rewrite apart_cons_same in Hap. clear E IH.
        revert q Hap. induction p as [|u p IHp]; intros q Hap.
        { discriminate Hap. }
        destruct q as [|v q]; [now rewrite apart_nil_r in Hap|].
        cbn [fresh_dirs lookup assoc].
        destruct (String.eqb_spec u v) as [<-|Hvu]; [|reflexivity].
        rewrite apart_cons_same in Hap. now apply IHp.
      * now rewrite assoc_set_ne by congruence.
Qed.

Lemma apart_removelast (p q : path) :
  apart (removelast p) q = true -> apart p q = true.
Proof.
  revert q. induction p as [|s p IH]; intros q; [trivial|].
  destruct p as [|u p].
  - cbn [removelast]. intros H. discriminate H.
  - change (removelast (s :: u :: p)) with (s :: removelast (u :: p)).
    destruct q as [|t q]; [now rewrite apart_nil_r|].
    destruct (String.eqb_spec s t) as [<-|Hne].
    + rewrite !apart_cons_same. apply IH.
    + intros _. unfold apart. cbn.
      destruct (String.eqb_spec s t); [congruence|].
      destruct (String.eqb_spec t s); [congruence|]. reflexivity.
Qed.

(** A copy changes nothing at a place apart from the directory that is to
    hold the copy. *)
Lemma cp_in_apart (src dst q : path) (fs fs' : node) :
  cp_in src dst fs = inr fs' ->
  apart (removelast dst) q = true ->
  lookup q fs' = lookup q fs.
Proof.
  unfold cp_in. intros H Hap.
  destruct (lookup src fs) as [s|]; [|discriminate].
  destruct (is_prefix src dst); [discriminate|].
  destruct (mkdir_p (removelast dst) fs) as [fs1|] eqn:E1; [|discriminate].
  destruct (cp_onto s (lookup dst fs1)) as [d|]; [|discriminate].
  destruct (put dst d fs1) as [fs2|] eqn:E2; [|discriminate].
  injection H as <-.
  rewrite (lookup_put_apart _ _ _ _ _ E2 (apart_removelast _ _ Hap)).
  exact (lookup_mkdir_p_apart _ _ _ _ E1 Hap).
Qed.

Lemma cp_in_source (src dst : path) (fs fs' : node) :
  cp_in src dst fs = inr fs' -> exists s, lookup src fs = Some s.
Proof.
  unfold cp_in. destruct (lookup src fs) as [s|]; [now exists s | discriminate].
Qed.

(** * The places of the script *)

Section Places.

Variable __dirname : path.

Local Abbreviation base := (dirname __dirname).
Local Abbreviation cache := (cacheDir __dirname).
Local Abbreviation docs := (docsDir __dirname).
Local Abbreviation dest := (docsPath __dirname).

Lemma cacheDir_segments : cache = base ++ ".cache" :: ["next"].
Proof. unfold cacheDir. cbn. now rewrite <- !app_assoc. Qed.

Lemma cacheDir_not_root : cache <> [].
Proof. rewrite cacheDir_segments. now destruct base. Qed.

Lemma cache_apart_dest : apart cache dest = true.
Proof. now rewrite cacheDir_segments, docsPath_segments, apart_app_same. Qed.

Lemma docs_apart_dest : apart docs dest = true.
Proof. now rewrite docsDir_segments, docsPath_segments, apart_app_same. Qed.

Lemma content_apart_docs : apart (removelast dest) docs = true.
Proof.
  rewrite docsPath_last, removelast_last, docsDir_segments.
  now rewrite apart_app_same.
Qed.

End Places.

(** * The cache reset *)

Section CacheReset.

Variable __dirname : path.

Local Abbreviation cache := (cacheDir __dirname).

Lemma reset_cache_done (w : world) :
  reset_cache __dirname w = (Done tt, snd (reset_cache __dirname w)).
Proof.
  unfold reset_cache.
  rewrite (bind_done _ _ _ _ _ (existsSync_step _ w)).
  now destruct (lookup cache (w_fs w)).
Qed.

Lemma reset_cache_cwd (w : world) :
  w_cwd (snd (reset_cache __dirname w)) = w_cwd w.
Proof.
  unfold reset_cache.
  rewrite (bind_done _ _ _ _ _ (existsSync_step _ w)).
  now destruct (lookup cache (w_fs w)).
Qed.

(** After the cache reset nothing is at the cache path. *)
Lemma reset_cache_clears (w : world) :
  lookup cache (w_fs (snd (reset_cache __dirname w))) = None.
Proof.
  unfold reset_cache.
  rewrite (bind_done _ _ _ _ _ (existsSync_step _ w)).
  destruct (lookup cache (w_fs w)) eqn:E; [|exact E].
  rewrite rmSync_step. apply lookup_remove_self, cacheDir_not_root.
Qed.

(** It changes nothing at a place apart from the cache. *)
Lemma reset_cache_apart (w : world) (q : path) :
  apart cache q = true ->
  lookup q (w_fs (snd (reset_cache __dirname w))) = lookup q (w_fs w).
Proof.
  intros Hq. unfold reset_cache.
  rewrite (bind_done _ _ _ _ _ (existsSync_step _ w)).
  destruct (lookup cache (w_fs w)) eqn:E; [|reflexivity].
  rewrite rmSync_step. cbn [snd w_fs with_fs logged].
  now apply lookup_remove_outside.
Qed.

(** The calls of the reset: the test, and the removal if there is a
    cache. *)
Lemma reset_cache_log (w : world) :
  w_log (snd (reset_cache __dirname w)) = w_log w ++ [EvExists cache]
  \/ w_log (snd (reset_cache __dirname w))
     = w_log w ++ [EvExists cache; EvRm cache].
Proof.
  unfold reset_cache.
  rewrite (bind_done _ _ _ _ _ (existsSync_step _ w)).
  destruct (lookup cache (w_fs w)) eqn:E.
  - right. rewrite rmSync_step. cbn [snd w_log with_fs logged].
    now rewrite <- app_assoc.
  - now left.
Qed.

End CacheReset.

(** * The destination, once published *)

Section Replaced.

Variable __dirname : path.

Local Abbreviation docs := (docsDir __dirname).
Local Abbreviation dest := (docsPath __dirname).

(** When the second half of the script goes through, the destination
    holds the tree that is in the cache, as the renaming left it, and
    nothing of what it held before: it is replaced, not merged. *)
Theorem publish_replaces_destination (fuel : nat) (w w' : world) :
  well_formed (w_fs w) = true ->
  publish __dirname fuel w = (Done tt, w') ->
  exists s,
    lookup docs (w_fs (snd (renameAll fuel docs w))) = Some s
    /\ lookup docs (w_fs w') = Some s
    /\ lookup dest (w_fs w') = Some s.
Proof.
  intros Hwf. unfold publish. unfold bind at 1.
  pose proof (renameAll_well_formed fuel docs w Hwf) as Hwf1.
  destruct (renameAll fuel docs w) as [[[]|e|c|] w1]; try discriminate.
  cbn [snd] in *. intros Hrest.
  (* the copy has a source *)
  pose proof Hrest as Hcp.
  rewrite (bind_done _ _ _ _ _ (existsSync_step _ w1)) in Hcp.
  set (w2 := logged (EvExists dest) w1) in Hcp.
  assert (H3 : exists w3,
             (if match lookup dest (w_fs w1) with
                 | Some _ => true | None => false end
              then rmSync dest else ret tt) w2 = (Done tt, w3)
             /\ lookup docs (w_fs w3) = lookup docs (w_fs w1)).
  { destruct (lookup dest (w_fs w1)).
    - eexists. split; [apply rmSync_step|]. cbn [w_fs with_fs].
      apply lookup_remove_outside. rewrite apart_sym. apply docs_apart_dest.
    - exists w2. now split. }
  destruct H3 as (w3 & E3 & Hsame).
  rewrite (bind_done _ _ _ _ _ E3) in Hcp. apply cpSync_done in Hcp.
  destruct (cp_in_source _ _ _ _ Hcp) as [s Hs].
  exists s. rewrite <- Hsame. split; [exact Hs|]. split.
  - rewrite (cp_in_apart _ _ docs _ _ Hcp (content_apart_docs __dirname)).
    exact Hs.
  - rewrite Hsame in Hs.
    exact (publish_copies __dirname w1 w' s Hs (well_formed_lookup _ _ _ Hwf1 Hs) Hrest).
Qed.

End Replaced.

Lemma publish_replaces_destination_witness :
  let w := snd (fetch script_dir (git_of upstream_docs 0 0) start) in
  let w' := snd (publish script_dir 4 w) in
  exists s,
    lookup (docsDir script_dir) (w_fs (snd (renameAll 4 (docsDir script_dir) w))) = Some s
    /\ lookup (docsDir script_dir) (w_fs w') = Some s
    /\ lookup (docsPath script_dir) (w_fs w') = Some s.
Proof.
  intros w w'.
  apply (publish_replaces_destination script_dir 4 w w').
  - vm_compute. reflexivity.
  - vm_compute. reflexivity.
Defined.

(** * How a run can end *)

Section ExitCodes.

Context {A B : Type}.

Lemma exits_ret (a : A) : exits_with_1 (ret a).
Proof. intros w c H. discriminate H. Qed.

Lemma exits_bind (m : M A) (f : A -> M B) :
  exits_with_1 m -> (forall a, exits_with_1 (f a)) -> exits_with_1 (bind m f).
Proof.
  intros Hm Hf w c. unfold bind. specialize (Hm w).
  destruct (m w) as [[a|e|c'|] w1]; cbn [fst] in *.
  - apply Hf.
  - discriminate.
  - intros [= <-]. now apply Hm.
  - discriminate.
Qed.

End ExitCodes.

Lemma exits_for_each {A : Type} (items : list A) (body : A -> M unit) :
  (forall item, exits_with_1 (body item)) -> exits_with_1 (for_each items body).
Proof.
  intros H. induction items as [|item items IH]; cbn [for_each].
  - apply exits_ret.
  - apply exits_bind; [apply H | intros _; apply IH].
Qed.

Lemma exits_existsSync (p : path) : exits_with_1 (existsSync p).
Proof. intros w c H. discriminate H. Qed.

Lemma exits_rmSync (p : path) : exits_with_1 (rmSync p).
Proof. intros w c H. discriminate H. Qed.

Lemma exits_chdir (p : path) : exits_with_1 (chdir p).
Proof.
  intros w c. unfold chdir, bind, emit, get_fs. cbn.
  destruct (lookup p (w_fs w)) as [[]|]; discriminate.
Qed.

Lemma exits_readdirSync (p : path) : exits_with_1 (readdirSync p).
Proof.
  intros w c. unfold readdirSync, bind, emit, get_fs. cbn.
  destruct (lookup p (w_fs w)) as [[]|]; discriminate.
Qed.

Lemma exits_renameSync (p q : path) : exits_with_1 (renameSync p q).
Proof.
  intros w c. unfold renameSync, bind, emit, get_fs. cbn.
  destruct (rename_in p q (w_fs w)); discriminate.
Qed.

Lemma exits_cpSync (p q : path) : exits_with_1 (cpSync p q).
Proof.
  intros w c. unfold cpSync, bind, emit, get_fs. cbn.
  destruct (cp_in p q (w_fs w)); discriminate.
Qed.

Lemma exits_renameAll (fuel : nat) (d : path) : exits_with_1 (renameAll fuel d).
Proof.
  revert d. induction fuel as [|fuel IH]; intros d; cbn [renameAll].
  - intros w c H. discriminate H.
  - apply exits_bind; [apply exits_readdirSync|]. intros items.
    apply exits_for_each. intros item. apply exits_bind.
    + destruct (negb _); [apply exits_renameSync | apply exits_ret].
    + intros _. destruct (isDirectory item); [apply IH | apply exits_ret].
Qed.

Section RunEnds.

Variable __dirname : path.
Variable spawn_sync :
  string -> list string -> path -> node -> spawn_result * node.

Lemma exits_run (command : string) (args : list string) :
  exits_with_1 (run spawn_sync command args).
Proof.
  intros w c. unfold run, spawn, bind, emit. cbn.
  destruct (spawn_sync command args (w_cwd w) (w_fs w)) as [result fs'].
  destruct (error result); cbn; [now intros [= <-] | discriminate].
Qed.

Lemma exits_main (fuel : nat) : exits_with_1 (main __dirname spawn_sync fuel).
Proof.
  unfold main, fetch, publish.
  apply exits_bind.
  - apply exits_bind; [apply exits_existsSync|]. intros cached.
    apply exits_bind.
    { destruct cached; [apply exits_rmSync | apply exits_ret]. }
    intros _. apply exits_bind; [apply exits_run|].
    intros _. apply exits_bind; [apply exits_chdir|].
    intros _. apply exits_bind; [apply exits_run|].
    intros _. apply exits_run.
  - intros _. apply exits_bind; [apply exits_renameAll|].
    intros _. apply exits_bind; [apply exits_existsSync|]. intros published.
    apply exits_bind; [|intros _; apply exits_cpSync].
    destruct published; [apply exits_rmSync | apply exits_ret].
Qed.

(** Whatever [git] reports and whatever the file system holds, a run of
    the script that ends does so with exit code 0 or 1: the status of a
    command is never passed on. *)
Theorem main_exit_codes (fuel : nat) (w : world) :
  In (exit_code (fst (main __dirname spawn_sync fuel w)))
     [Some 0%Z; Some 1%Z; None].
Proof.
  pose proof (exits_main fuel w) as H.
  destruct (fst (main __dirname spawn_sync fuel w)) as [[]|e|c|]; cbn.
  - now left.
  - right. now left.
  - right. left. now rewrite (H c eq_refl).
  - right. right. now left.
Qed.

End RunEnds.

(** * Nothing to rename *)

Lemma later_nil (w : world) : later [] w = w.
Proof. destruct w. unfold later. cbn. now rewrite app_nil_r. Qed.

Lemma later_later (tr1 tr2 : list event) (w : world) :
  later tr2 (later tr1 w) = later (tr1 ++ tr2) w.
Proof. unfold later. cbn. now rewrite app_assoc. Qed.

Lemma settled_dir es :
  settled (Dir es) = true
  <-> forall k c, In (k, c) es -> has_numeric_prefix k = false /\ settled c = true.
Proof.
  cbn [settled]. rewrite forallb_forall. split.
  - intros H k c Hin. specialize (H _ Hin). cbn in H.
    apply andb_true_iff in H as [H1 H2]. now apply negb_true_iff in H1.
  - intros H [k c] Hin. destruct (H _ _ Hin) as [H1 H2]. cbn.
    now rewrite H1, H2.
Qed.

Section Settled.

Variable fuel : nat.
Hypothesis below :
  forall d T w,
    lookup d (w_fs w) = Some T -> is_dir T = true ->
    well_formed T = true -> proper_names T = true -> settled T = true ->
    depth T <= fuel ->
    exists tr,
      renameAll fuel d w = (Done tt, later tr w)
      /\ existsb is_rename tr = false.

Variable d : path.
Variable es : list (string * node).
Variable w0 : world.
Hypothesis at_d : lookup d (w_fs w0) = Some (Dir es).
Hypothesis es_well_formed : well_formed (Dir es) = true.
Hypothesis es_proper : proper_names (Dir es) = true.
Hypothesis es_settled : settled (Dir es) = true.
Hypothesis es_depth : depth (Dir es) <= S fuel.

Lemma settled_loop (todo : list (string * node)) :
  (forall e, In e todo -> In e es) ->
  forall tr0,
  exists tr,
    for_each (map dirent_of todo) (fun item =>
        let oldPath := path_join d (name item) in
        let newName := stripPrefix (name item) in
        let newPath := path_join d newName in
        (if negb (path_eqb oldPath newPath)
         then renameSync oldPath newPath
         else ret tt) ;;
        (if isDirectory item
         then renameAll fuel newPath
         else ret tt)) (later tr0 w0)
    = (Done tt, later tr (later tr0 w0))
    /\ existsb is_rename tr = false.
Proof.
  induction todo as [|[k c] todo IH]; intros Hin tr0.
  - exists []. now rewrite later_nil.
  - cbn [map for_each dirent_of fst snd name isDirectory]. cbv zeta.
    assert (Hkc : In (k, c) es) by (apply Hin; now left).
    destruct (proj1 (proper_names_dir es) es_proper k c Hkc) as [Hk Hc].
    destruct (proj1 (settled_dir es) es_settled k c Hkc) as [Hk' Hc'].
    destruct (proj1 (well_formed_dir es) es_well_formed) as [Hnd Hwf].
    rewrite (stripPrefix_unprefixed k Hk'), (path_join_proper d k Hk).
    rewrite (proj2 (path_eqb_true (d ++ [k]) (d ++ [k])) eq_refl). cbn [negb].
    rewrite bind_assoc, (bind_done (ret tt) _ _ _ tt eq_refl).
    assert (Hstep : exists tr1,
               (if is_dir c then renameAll fuel (d ++ [k]) else ret tt) (later tr0 w0)
               = (Done tt, later tr1 (later tr0 w0))
               /\ existsb is_rename tr1 = false).
    { destruct (is_dir c) eqn:Hdir.
      - apply (below (d ++ [k]) c); trivial.
        + cbn [later w_fs]. rewrite (lookup_child d k _ es at_d).
          now apply In_assoc.
        + exact (Hwf k c Hkc).
        + exact (depth_child es k c fuel es_depth Hkc).
      - exists []. now rewrite later_nil. }
    destruct Hstep as (tr1 & E1 & Hno1).
    rewrite (bind_done _ _ _ _ _ E1), later_later.
    destruct (IH (fun e H => Hin e (or_intror H)) (tr0 ++ tr1)) as (tr2 & E2 & Hno2).
    cbv zeta in E2. exists (tr1 ++ tr2). rewrite E2, !later_later, <- app_assoc.
    split; [reflexivity|]. rewrite existsb_app, Hno1, Hno2. reflexivity.
Qed.

End Settled.

Lemma renameAll_settled (fuel : nat) :
  forall d T w,
    lookup d (w_fs w) = Some T -> is_dir T = true ->
    well_formed T = true -> proper_names T = true -> settled T = true ->
    depth T <= fuel ->
    exists tr,
      renameAll fuel d w = (Done tt, later tr w)
      /\ existsb is_rename tr = false.
Proof.
  induction fuel as [|fuel IH]; intros d [c|es] w Hd Hdir Hwf Hp Hs Hdepth;
    try discriminate.
  - cbn in Hdepth. lia.
  - cbn [renameAll].
    rewrite (bind_done _ _ _ _ _ (readdirSync_dir d w es Hd)).
    destruct (settled_loop fuel IH d es w Hd Hwf Hp Hs Hdepth es
                (fun e H => H) [EvReaddir d]) as (tr & E & Hno).
    exists (EvReaddir d :: tr).
    change (logged (EvReaddir d) w) with (later [EvReaddir d] w).
    cbv zeta in E. rewrite E, later_later. split; [reflexivity | exact Hno].
Qed.

(** On a directory in which no name carries a numeric prefix, [renameAll]
    goes through, renames nothing, and leaves the file system and the
    working directory as they are. *)
Theorem renameAll_settled_noop (fuel : nat) (dirPath : path) (T : node) (w : world) :
  lookup dirPath (w_fs w) = Some T -> is_dir T = true ->
  well_formed T = true -> proper_names T = true -> settled T = true ->
  depth T <= fuel ->
  exists w',
    renameAll fuel dirPath w = (Done tt, w')
    /\ w_fs w' = w_fs w
    /\ w_cwd w' = w_cwd w
    /\ exists tr, w_log w' = w_log w ++ tr /\ existsb is_rename tr = false.
Proof.
  intros Hd Hdir Hwf Hp Hs Hdepth.
  destruct (renameAll_settled fuel dirPath T w Hd Hdir Hwf Hp Hs Hdepth)
    as (tr & E & Hno).
  exists (later tr w). split; [exact E|].
  split; [reflexivity|]. split; [reflexivity|].
  exists tr. now split.
Qed.

Lemma renameAll_settled_noop_witness :
  let T := Dir [("app", Dir [("index.mdx", File "i"); ("a-1-b.mdx", File "b")]);
                ("readme.md", File "r")] in
  let w := {| w_fs := Dir [("docs", T)]; w_cwd := []; w_log := [] |} in
  exists w',
    renameAll 2 ["docs"] w = (Done tt, w')
    /\ w_fs w' = w_fs w
    /\ w_cwd w' = w_cwd w
    /\ exists tr, w_log w' = w_log w ++ tr /\ existsb is_rename tr = false.
Proof.
  intros T w. apply (renameAll_settled_noop 2 ["docs"] T w).
  - reflexivity.
  - reflexivity.
  - reflexivity.
  - reflexivity.
  - vm_compute. reflexivity.
  - vm_compute. lia.
Defined.

(** * The recursion ends *)

Lemma list_max_bound (l : list nat) (n : nat) :
  list_max l <= n <-> forall x, In x l -> x <= n.
Proof.
  induction l as [|y l IH]; cbn.
  - split; [intros _ x [] | intros _; lia].
  - rewrite Nat.max_lub_iff, IH. split.
    + intros [H1 H2] x [<-|Hx]; auto.
    + intros H. split; [apply H; now left | intros x Hx; apply H; now right].
Qed.

Lemma depth_entry es k c : In (k, c) es -> depth c < depth (Dir es).
Proof.
  intros Hin. cbn [depth]. apply Nat.lt_succ_r.
  apply (proj1 (list_max_bound _ _) (le_n _)).
  apply in_map_iff. now exists (k, c).
Qed.

Lemma depth_entries_le es es' :
  (forall k c, In (k, c) es' -> depth c < depth (Dir es)) ->
  depth (Dir es') <= depth (Dir es).
Proof.
  intros H. cbn [depth]. apply le_n_S. apply list_max_bound.
  intros x Hx. apply in_map_iff in Hx as ([k c] & <- & Hin).
  apply Nat.lt_succ_r. exact (H k c Hin).
Qed.

Lemma depth_set_entry_le k c' es :
  depth c' < depth (Dir es) ->
  depth (Dir (set_entry k c' es)) <= depth (Dir es).
Proof.
  intros H. apply depth_entries_le. intros k0 c0 Hin.
  apply In_set_entry in Hin as [[= -> ->]|Hin]; [exact H|].
  exact (depth_entry es k0 c0 Hin).
Qed.

Lemma depth_remove_entry_le k es :
  depth (Dir (remove_entry k es)) <= depth (Dir es).
Proof.
  apply depth_entries_le. intros k0 c0 Hin.
  apply In_remove_entry in Hin. exact (depth_entry es k0 c0 Hin).
Qed.

Lemma depth_graft_le q X n :
  depth_at q (graft q X n) <= depth_at q n -> depth (graft q X n) <= depth n.
Proof.
  revert n. induction q as [|s q IH]; intros n; [trivial|].
  destruct n as [c|es]; [trivial|].
  cbn [graft]. destruct (assoc s es) as [c|] eqn:E; [|trivial].
  unfold depth_at. cbn [lookup]. rewrite assoc_set_eq, E. intros H.
  apply depth_entries_le. intros k0 c0 Hin.
  apply In_set_entry in Hin as [[= -> ->]|Hin].
  - apply Nat.le_lt_trans with (depth c); [now apply IH|].
    exact (depth_entry es _ c (assoc_In _ _ _ _ E)).
  - exact (depth_entry es k0 c0 Hin).
Qed.

Lemma depth_at_graft_under d q X fs :
  depth_at (d ++ q) (graft (d ++ q) X fs) <= depth_at (d ++ q) fs ->
  depth_at d (graft (d ++ q) X fs) <= depth_at d fs.
Proof.
  destruct (lookup d fs) as [m|] eqn:E.
  - rewrite (graft_app d q X fs m E). unfold depth_at.
    rewrite !lookup_app, E, lookup_graft by congruence.
    apply depth_graft_le.
  - rewrite graft_absent by (now rewrite lookup_app, E). trivial.
Qed.

(** The node below a place is less deep than the place, if it is there. *)
Lemma depth_at_child d k fs :
  depth_at (d ++ [k]) fs = 0 \/ depth_at (d ++ [k]) fs < depth_at d fs.
Proof.
  unfold depth_at. rewrite lookup_app.
  destruct (lookup d fs) as [[c|es]|]; [now left| |now left].
  cbn [lookup]. destruct (assoc k es) as [c|] eqn:E; [|now left].
  right. exact (depth_entry es k c (assoc_In _ _ _ _ E)).
Qed.

Lemma shrinks_refl d fs : proper_names fs = true -> shrinks d fs fs.
Proof. intros H. split; [exact H|]. split; [apply graft_self | apply le_n]. Qed.

Lemma shrinks_trans d fs1 fs2 fs3 :
  shrinks d fs1 fs2 -> shrinks d fs2 fs3 -> shrinks d fs1 fs3.
Proof.
  intros (_ & [X ->] & H1) (Hp & [Y ->] & H2).
  split; [exact Hp|]. split; [exists Y; apply graft_graft | lia].
Qed.

Lemma shrinks_under d q fs fs' : shrinks (d ++ q) fs fs' -> shrinks d fs fs'.
Proof.
  intros (Hp & [X ->] & H). split; [exact Hp|]. split.
  - apply graft_under.
  - now apply depth_at_graft_under.
Qed.

(** A renaming within a directory does not deepen it. *)
Lemma rename_in_shrinks d k k' fs fs' :
  rename_in (d ++ [k]) (d ++ [k']) fs = inr fs' ->
  proper_names fs = true -> proper_name k' = true ->
  shrinks d fs fs'.
Proof.
  intros Hren Hp Hk'.
  destruct (rename_in_sibling d k k' fs fs' Hren) as [Hg Hp'].
  split; [now apply Hp'|]. split; [exact Hg|].
  revert Hren. unfold rename_in.
  destruct (lookup (d ++ [k]) fs) as [src|] eqn:Es; [|discriminate].
  destruct (path_eqb (d ++ [k]) (d ++ [k'])); [now intros [= <-]|].
  destruct (is_dir src && is_prefix (d ++ [k]) (d ++ [k'])); [discriminate|].
  destruct (is_prefix (d ++ [k']) (d ++ [k])); [discriminate|].
  destruct (lookup_child_inv d k fs src Es) as (cur & Hd & Hk).
  assert (G : forall fs1,
             put (d ++ [k']) src (remove (d ++ [k]) fs) = Some fs1 ->
             depth_at d fs1 <= depth_at d fs).
  { intros fs1 Hput.
    rewrite (remove_child d k fs cur Hd) in Hput.
    rewrite (put_child d k' src _ (remove_entry k cur)) in Hput
      by (apply lookup_graft; congruence).
    injection Hput as <-. rewrite graft_graft. unfold depth_at.
    rewrite lookup_graft, Hd by congruence.
    apply depth_entries_le. intros k0 c0 Hin.
    apply In_set_entry in Hin as [[= -> ->]|Hin].
    - exact (depth_entry cur k src (assoc_In _ _ _ _ Hk)).
    - apply In_remove_entry in Hin. exact (depth_entry cur k0 c0 Hin). }
  destruct (lookup (d ++ [k']) fs) as [[x|[|e es]]|], src;
    try discriminate;
    (destruct (put (d ++ [k']) _ (remove (d ++ [k]) fs)) as [fs1|] eqn:Ep;
     [|discriminate]);
    intros [= <-]; now apply G.
Qed.

Section Bounded.

Variable fuel : nat.
Hypothesis below :
  forall d w,
    proper_names (w_fs w) = true -> depth_at d (w_fs w) < fuel ->
    fst (renameAll fuel d w) <> Starved
    /\ shrinks d (w_fs w) (w_fs (snd (renameAll fuel d w))).
Hypothesis some_fuel : 1 <= fuel.

Variable d : path.

Let body (item : Dirent) : M unit :=
  let oldPath := path_join d (name item) in
  let newName := stripPrefix (name item) in
  let newPath := path_join d newName in
  (if negb (path_eqb oldPath newPath)
   then renameSync oldPath newPath
   else ret tt) ;;
  (if isDirectory item
   then renameAll fuel newPath
   else ret tt).

Lemma body_bounded (item : Dirent) (w : world) :
  proper_name (name item) = true ->
  proper_names (w_fs w) = true ->
  depth_at d (w_fs w) <= fuel ->
  fst (body item w) <> Starved
  /\ shrinks d (w_fs w) (w_fs (snd (body item w))).
Proof.
  intros Hk Hw Hdepth. unfold body. cbv zeta.
  rewrite (path_join_proper d _ Hk).
  set (k := name item) in *. set (k' := stripPrefix k).
  destruct (proper_name k') eqn:Hk'.
  - rewrite (path_join_proper d k' Hk').
    assert (HR : exists o w1,
               (if negb (path_eqb (d ++ [k]) (d ++ [k']))
                then renameSync (d ++ [k]) (d ++ [k']) else ret tt) w = (o, w1)
               /\ o <> Starved
               /\ shrinks d (w_fs w) (w_fs w1)).
    { destruct (negb (path_eqb (d ++ [k]) (d ++ [k']))).
      - destruct (rename_in (d ++ [k]) (d ++ [k']) (w_fs w)) as [e|fs1] eqn:E.
        + rewrite (renameSync_throws _ _ _ _ E). do 2 eexists.
          split; [reflexivity|]. split; [discriminate | now apply shrinks_refl].
        + rewrite (renameSync_ok _ _ _ _ E). do 2 eexists.
          split; [reflexivity|]. split; [discriminate|].
          now apply (rename_in_shrinks d k k').
      - exists (Done tt), w. split; [reflexivity|].
        split; [discriminate | now apply shrinks_refl]. }
    destruct HR as (o & w1 & ER & Ho & Hs1).
    unfold bind. rewrite ER.
    destruct o as [[]|e|c|]; cbn [fst snd];
      try (split; [discriminate | exact Hs1]); [|congruence].
    destruct (isDirectory item).
    + destruct Hs1 as (Hp1 & Hg1 & Hd1).
      destruct (below (d ++ [k']) w1 Hp1) as [Hend Hs2].
      { destruct (depth_at_child d k' (w_fs w1)); lia. }
      split; [exact Hend|].
      apply (shrinks_trans d _ (w_fs w1)); [now split|].
      now apply (shrinks_under d [k']).
    + cbn. split; [discriminate | exact Hs1].
  - pose proof (stripPrefix_no_slash k (proper_no_slash k Hk)) as Hslash.
    destruct (improper_join d k k' (improper_cases k' Hslash Hk')) as [Hpre Hne].
    rewrite Hne. cbn [negb].
    destruct (rename_in_onto_ancestor _ _ (w_fs w) Hpre Hne) as [e E].
    rewrite (bind_thrown _ _ _ _ _ (renameSync_throws _ _ _ _ E)).
    cbn. split; [discriminate | now apply shrinks_refl].
Qed.

Lemma for_each_bounded (items : list Dirent) (w : world) :
  Forall (fun item => proper_name (name item) = true) items ->
  proper_names (w_fs w) = true ->
  depth_at d (w_fs w) <= fuel ->
  fst (for_each items body w) <> Starved
  /\ shrinks d (w_fs w) (w_fs (snd (for_each items body w))).
Proof.
  revert w. induction items as [|item items IH]; intros w Hitems Hw Hdepth;
    cbn [for_each].
  - cbn. split; [discriminate | now apply shrinks_refl].
  - inversion Hitems as [|? ? Hitem Hrest]; subst.
    destruct (body_bounded item w Hitem Hw Hdepth) as [Hend Hs1].
    unfold bind.
    destruct (body item w) as [[[]|e|c|] w1]; cbn [fst snd] in *;
      try (split; [discriminate | exact Hs1]); [|congruence].
    destruct Hs1 as (Hp1 & Hg1 & Hd1).
    destruct (IH w1 Hrest Hp1) as [Hend2 Hs2]; [lia|].
    split; [exact Hend2|].
    apply (shrinks_trans d _ (w_fs w1)); [now split | exact Hs2].
Qed.

End Bounded.

Lemma renameAll_bounded (fuel : nat) :
  forall d w,
    proper_names (w_fs w) = true -> depth_at d (w_fs w) < fuel ->
    fst (renameAll fuel d w) <> Starved
    /\ shrinks d (w_fs w) (w_fs (snd (renameAll fuel d w))).
Proof.
  induction fuel as [|fuel IH]; intros d w Hw Hdepth; [lia|].
  cbn [renameAll].
  destruct (lookup d (w_fs w)) as [[c|es]|] eqn:Hd.
  - rewrite (bind_thrown _ _ _ _ _ (readdirSync_file d w c Hd)).
    cbn. split; [discriminate | now apply shrinks_refl].
  - rewrite (bind_done _ _ _ _ _ (readdirSync_dir d w es Hd)).
    assert (Hes : depth_at d (w_fs w) = depth (Dir es))
      by (unfold depth_at; now rewrite Hd).
    refine (for_each_bounded fuel IH _ d _ (logged (EvReaddir d) w) _ Hw _).
    + rewrite Hes in Hdepth. cbn [depth] in Hdepth. lia.
    + pose proof (proper_names_lookup d _ _ Hw Hd) as Hpe.
      rewrite proper_names_dir in Hpe.
      apply Forall_forall. intros item Hin.
      apply in_map_iff in Hin as ([k c] & <- & Hin).
      exact (proj1 (Hpe _ _ Hin)).
    + cbn [logged w_fs]. lia.
  - unfold bind, readdirSync, emit, get_fs. cbn. rewrite Hd. cbn.
    split; [discriminate | now apply shrinks_refl].
Qed.

(** With proper names and more fuel than the directory is deep, no run of
    [renameAll] runs out of fuel, whatever the names clash with: the
    recursion of the source ends on every tree; and the renaming leaves
    the directory no deeper than it was. *)
Theorem renameAll_ends (fuel : nat) (dirPath : path) (w : world) :
  proper_names (w_fs w) = true ->
  depth_at dirPath (w_fs w) < fuel ->
  fst (renameAll fuel dirPath w) <> Starved
  /\ depth_at dirPath (w_fs (snd (renameAll fuel dirPath w)))
     <= depth_at dirPath (w_fs w).
Proof.
  intros Hw Hdepth.
  destruct (renameAll_bounded fuel dirPath w Hw Hdepth) as (H1 & _ & _ & H2).
  now split.
Qed.

Lemma renameAll_ends_witness :
  let w := {| w_fs := Dir [("docs", colliding_docs)]; w_cwd := []; w_log := [] |} in
  fst (renameAll 2 ["docs"] w) <> Starved
  /\ depth_at ["docs"] (w_fs (snd (renameAll 2 ["docs"] w)))
     <= depth_at ["docs"] (w_fs w).
Proof.
  intros w. apply (renameAll_ends 2 ["docs"] w).
  - reflexivity.
  - vm_compute. lia.
Defined.

(** * Where the commands run *)

Section WhereGitRuns.

Variable __dirname : path.
Variable spawn_sync :
  string -> list string -> path -> node -> spawn_result * node.

Local Abbreviation cache := (cacheDir __dirname).

Lemma fetch_after_reset (w : world) :
  fetch __dirname spawn_sync w
  = after_reset __dirname spawn_sync (snd (reset_cache __dirname w)).
Proof.
  transitivity ((reset_cache __dirname ;; after_reset __dirname spawn_sync) w).
  - unfold fetch, reset_cache, after_reset.
    rewrite !bind_assoc.
    rewrite !(bind_done _ _ _ _ _ (existsSync_step _ w)).
    now rewrite ?bind_assoc.
  - exact (bind_done _ (fun _ => after_reset __dirname spawn_sync) _ _ tt
             (reset_cache_done __dirname w)).
Qed.

Lemma run_done (command : string) (args : list string) (w w' : world) :
  run spawn_sync command args w = (Done tt, w') ->
  w' = with_fs (snd (spawn_sync command args (w_cwd w) (w_fs w)))
         (logged (EvSpawn command args) w).
Proof.
  unfold run, spawn, bind, emit. cbn.
  destruct (spawn_sync command args (w_cwd w) (w_fs w)) as [result fs'].
  destruct (error result); cbn; [discriminate | now intros [= <-]].
Qed.

Lemma chdir_done (p : path) (w w' : world) :
  chdir p w = (Done tt, w') ->
  (exists es, lookup p (w_fs w) = Some (Dir es))
  /\ w' = with_cwd p (logged (EvChdir p) w).
Proof.
  unfold chdir, bind, emit, get_fs. cbn.
  destruct (lookup p (w_fs w)) as [[c|es]|]; cbn; try discriminate.
  intros [= <-]. split; [now exists es | reflexivity].
Qed.

Lemma bind_done_inv {A B : Type} (m : M A) (f : A -> M B) (w w' : world) (b : B) :
  bind m f w = (Done b, w') ->
  exists a w1, m w = (Done a, w1) /\ f a w1 = (Done b, w').
Proof.
  unfold bind. destruct (m w) as [[a|e|c|] w1]; try discriminate.
  intros H. now exists a, w1.
Qed.

(** When the first half of the script goes through, the clone has run in
    the directory the script was started in, on a file system without the
    cache; it has left a directory at the cache path; the two other
    commands have run in that directory, one on the result of the other;
    and the process stays in the cache directory. *)
Theorem fetch_runs_git_in_cache (w w' : world) :
  fetch __dirname spawn_sync w = (Done tt, w') ->
  let fs0 := w_fs (snd (reset_cache __dirname w)) in
  let fs1 := snd (spawn_sync "git" (clone_args __dirname) (w_cwd w) fs0) in
  let fs2 := snd (spawn_sync "git" ["sparse-checkout"; "set"; "docs"] cache fs1) in
  let fs3 := snd (spawn_sync "git" ["checkout"] cache fs2) in
  lookup cache fs0 = None
  /\ (exists es, lookup cache fs1 = Some (Dir es))
  /\ w_fs w' = fs3
  /\ w_cwd w' = cache.
Proof.
  rewrite fetch_after_reset. unfold after_reset. intros H.
  apply bind_done_inv in H as ([] & w1 & H1 & H).
  apply bind_done_inv in H as ([] & w2 & H2 & H).
  apply bind_done_inv in H as ([] & w3 & H3 & H4).
  apply run_done in H1, H3, H4. apply chdir_done in H2 as [Hdir H2].
  assert (Hcwd : w_cwd (snd (reset_cache __dirname w)) = w_cwd w).
  { unfold reset_cache.
    rewrite (bind_done _ _ _ _ _ (existsSync_step _ w)).
    now destruct (lookup cache (w_fs w)). }
  assert (Hnone : lookup cache (w_fs (snd (reset_cache __dirname w))) = None).
  { unfold reset_cache.
    rewrite (bind_done _ _ _ _ _ (existsSync_step _ w)).
    destruct (lookup cache (w_fs w)) eqn:E; [|exact E].
    rewrite rmSync_step. apply lookup_remove_self, cacheDir_not_root. }
  cbv zeta. rewrite <- Hcwd. subst w1 w2 w3 w'.
  cbn [w_fs w_cwd with_fs with_cwd logged] in *.
  repeat split; trivial.
Qed.

End WhereGitRuns.

Lemma fetch_runs_git_in_cache_witness :
  let git := git_of upstream_docs 0 0 in
  let w' := snd (fetch script_dir git start) in
  let fs0 := w_fs (snd (reset_cache script_dir start)) in
  let fs1 := snd (git "git" (clone_args script_dir) (w_cwd start) fs0) in
  let fs2 := snd (git "git" ["sparse-checkout"; "set"; "docs"] (cacheDir script_dir) fs1) in
  let fs3 := snd (git "git" ["checkout"] (cacheDir script_dir) fs2) in
  lookup (cacheDir script_dir) fs0 = None
  /\ (exists es, lookup (cacheDir script_dir) fs1 = Some (Dir es))
  /\ w_fs w' = fs3
  /\ w_cwd w' = cacheDir script_dir.
Proof.
  intros git w'.
  apply (fetch_runs_git_in_cache script_dir git start w').
  vm_compute. reflexivity.
Defined.

(** * The first half of the script, step by step *)

Section FetchUnfolded.

Variable __dirname : path.
Variable spawn_sync :
  string -> list string -> path -> node -> spawn_result * node.

Local Abbreviation cache := (cacheDir __dirname).
Local Abbreviation docs := (docsDir __dirname).
Local Abbreviation dest := (docsPath __dirname).
Local Abbreviation clone := (clone_args __dirname).
Local Abbreviation sparse := ["sparse-checkout"; "set"; "docs"].

Lemma run_outcome (command : string) (args : list string) (w : world) :
  run spawn_sync command args w
  = (match error (fst (spawn_sync command args (w_cwd w) (w_fs w))) with
     | Some _ => Exited 1
     | None => Done tt
     end,
     with_fs (snd (spawn_sync command args (w_cwd w) (w_fs w)))
       (logged (EvSpawn command args) w)).
Proof.
  unfold run, spawn, bind, emit. cbn.
  destruct (spawn_sync command args (w_cwd w) (w_fs w)) as [result fs'].
  cbn. now destruct (error result).
Qed.

Lemma chdir_outcome (p : path) (w : world) :
  chdir p w
  = match lookup p (w_fs w) with
    | Some (Dir _) => (Done tt, with_cwd p (logged (EvChdir p) w))
    | Some (File _) => (Thrown ENOTDIR, logged (EvChdir p) w)
    | None => (Thrown ENOENT, logged (EvChdir p) w)
    end.
Proof.
  unfold chdir, bind, emit, get_fs. cbn.
  now destruct (lookup p (w_fs w)) as [[]|].
Qed.

(** The first half of the script, as the results of the commands decide
    it. *)
Lemma fetch_unfolded (w : world) :
  fetch __dirname spawn_sync w
  = let W0 := snd (reset_cache __dirname w) in
    let r1 := spawn_sync "git" clone (w_cwd w) (w_fs W0) in
    let W1 := with_fs (snd r1) (logged (EvSpawn "git" clone) W0) in
    match error (fst r1) with
    | Some _ => (Exited 1, W1)
    | None =>
        match lookup cache (snd r1) with
        | Some (Dir _) =>
            let W2 := with_cwd cache (logged (EvChdir cache) W1) in
            let r2 := spawn_sync "git" sparse cache (snd r1) in
            let W3 := with_fs (snd r2) (logged (EvSpawn "git" sparse) W2) in
            match error (fst r2) with
            | Some _ => (Exited 1, W3)
            | None =>
                let r3 := spawn_sync "git" ["checkout"] cache (snd r2) in
                (match error (fst r3) with
                 | Some _ => Exited 1
                 | None => Done tt
                 end,
                 with_fs (snd r3) (logged (EvSpawn "git" ["checkout"]) W3))
            end
        | Some (File _) => (Thrown ENOTDIR, logged (EvChdir cache) W1)
        | None => (Thrown ENOENT, logged (EvChdir cache) W1)
        end
    end.
Proof.
  rewrite fetch_after_reset. unfold after_reset. cbv zeta.
  set (W0 := snd (reset_cache __dirname w)).
  unfold bind at 1. rewrite run_outcome.
  replace (w_cwd W0) with (w_cwd w) by (symmetry; apply reset_cache_cwd).
  destruct (error (fst (spawn_sync "git" clone (w_cwd w) (w_fs W0))));
    [reflexivity|].
  unfold bind at 1. rewrite chdir_outcome. cbn [w_fs with_fs logged].
  destruct (lookup cache (snd (spawn_sync "git" clone (w_cwd w) (w_fs W0))))
    as [[c|es]|]; try reflexivity.
  unfold bind at 1. rewrite run_outcome. cbn [w_fs w_cwd with_fs with_cwd logged].
  destruct (error (fst (spawn_sync "git" sparse cache
                          (snd (spawn_sync "git" clone (w_cwd w) (w_fs W0))))));
    [reflexivity|].
  rewrite run_outcome. reflexivity.
Qed.

Lemma bind_stops (m : M unit) (f : unit -> M unit) (w0 : world) :
  fst (m w0) <> Done tt -> bind m f w0 = m w0.
Proof.
  unfold bind. destruct (m w0) as [[[]|e|c|] w1]; cbn; congruence.
Qed.

Lemma reset_cache_calls (w : world) :
  spawn_calls (w_log (snd (reset_cache __dirname w))) = spawn_calls (w_log w).
Proof.
  destruct (reset_cache_log __dirname w) as [-> | ->];
    rewrite spawn_calls_app; apply app_nil_r.
Qed.

(** * What a failed clone leaves of the destination *)

(** C2: when the clone fails (it cannot be launched, or it ends with a
    status other than 0) the run ends with exit code 1 before anything is
    done to the destination: what is at the destination path after the
    run is what was there before it, and neither the removal of the
    destination nor the copy is among the calls of the run.  [git] is
    taken as it behaves: a clone that was launched and failed leaves
    nothing at its target, and a clone writes nothing at the
    destination. *)
Theorem failed_clone_keeps_destination (fuel : nat) (w : world) :
  let fs0 := w_fs (snd (reset_cache __dirname w)) in
  let result := spawn_sync "git" clone (w_cwd w) fs0 in
  let r := main __dirname spawn_sync fuel w in
  error (fst result) <> None \/ status (fst result) <> Some 0%Z ->
  (error (fst result) = None -> status (fst result) <> Some 0%Z ->
   lookup cache (snd result) = None) ->
  lookup dest (snd result) = lookup dest fs0 ->
  exit_code (fst r) = Some 1%Z
  /\ lookup dest (w_fs (snd r)) = lookup dest (w_fs w)
  /\ exists tr,
       w_log (snd r) = w_log w ++ tr
       /\ ~ In (EvRm dest) tr
       /\ ~ In (EvCp docs dest) tr.
Proof.
  intros fs0 result r Hfails Hclean Hdest.
  assert (H0 : lookup dest fs0 = lookup dest (w_fs w))
    by (apply reset_cache_apart, cache_apart_dest).
  (* the run ends in the first half *)
  assert (Hr : r = fetch __dirname spawn_sync w
               /\ (r = (Exited 1,
                        with_fs (snd result)
                          (logged (EvSpawn "git" clone)
                             (snd (reset_cache __dirname w))))
                   \/ r = (Thrown ENOENT,
                           logged (EvChdir cache)
                             (with_fs (snd result)
                                (logged (EvSpawn "git" clone)
                                   (snd (reset_cache __dirname w))))))).
  { assert (Hf : fetch __dirname spawn_sync w
                 = (Exited 1,
                    with_fs (snd result)
                      (logged (EvSpawn "git" clone)
                         (snd (reset_cache __dirname w))))
                 \/ fetch __dirname spawn_sync w
                    = (Thrown ENOENT,
                       logged (EvChdir cache)
                         (with_fs (snd result)
                            (logged (EvSpawn "git" clone)
                               (snd (reset_cache __dirname w)))))).
    { rewrite fetch_unfolded. cbv zeta. fold fs0. fold result.
      destruct (error (fst result)) as [e|] eqn:Herr; [now left|].
      rewrite Hclean; [now right | reflexivity|].
      destruct Hfails as [H|H]; [congruence | exact H]. }
    assert (Hstop : r = fetch __dirname spawn_sync w).
    { subst r. unfold main. apply bind_stops.
      destruct Hf as [-> | ->]; discriminate. }
    split; [exact Hstop|]. rewrite Hstop. exact Hf. }
  destruct Hr as [_ Hr].
  assert (Hlog : forall tr,
             (tr = [EvSpawn "git" clone] \/ tr = [EvSpawn "git" clone; EvChdir cache]) ->
             exists tr0,
               w_log (snd (reset_cache __dirname w)) ++ tr = w_log w ++ tr0
               /\ ~ In (EvRm dest) tr0
               /\ ~ In (EvCp docs dest) tr0).
  { intros tr Htr.
    destruct (reset_cache_log __dirname w) as [-> | ->]; rewrite <- app_assoc;
      eexists; (split; [reflexivity|]);
      destruct Htr as [-> | ->]; cbn; split; intros Hin;
      repeat (destruct Hin as [Hin|Hin]; try discriminate Hin; try contradiction);
      injection Hin as Hin; now apply (dest_not_cache __dirname). }
  destruct Hr as [-> | ->]; cbn [fst snd exit_code w_fs w_log with_fs logged].
  - split; [reflexivity|]. split; [congruence|].
    apply Hlog. now left.
  - split; [reflexivity|]. split; [congruence|].
    rewrite <- app_assoc. apply Hlog. now right.
Qed.

(** * The destination before it is reset *)

(** With a [git] whose three runs write nothing at the destination and
    leave a file system with proper names, the destination holds what it
    held at the start until the renaming is over; and a run in which a
    step up to there fails ends in that failure, with the destination as
    it was. *)
Theorem destination_kept_until_published (fuel : nat) (w : world) :
  let fs0 := w_fs (snd (reset_cache __dirname w)) in
  let fs1 := snd (spawn_sync "git" clone (w_cwd w) fs0) in
  let fs2 := snd (spawn_sync "git" sparse cache fs1) in
  let fs3 := snd (spawn_sync "git" ["checkout"] cache fs2) in
  lookup dest fs1 = lookup dest fs0 ->
  lookup dest fs2 = lookup dest fs1 ->
  lookup dest fs3 = lookup dest fs2 ->
  proper_names fs3 = true ->
  let r := before_publishing __dirname spawn_sync fuel w in
  lookup dest (w_fs (snd r)) = lookup dest (w_fs w)
  /\ (fst r <> Done tt -> main __dirname spawn_sync fuel w = r).
Proof.
  intros fs0 fs1 fs2 fs3 H1 H2 H3 Hproper r.
  assert (H0 : lookup dest fs0 = lookup dest (w_fs w))
    by (apply reset_cache_apart, cache_apart_dest).
  split.
  - subst r. unfold before_publishing, bind.
    rewrite fetch_unfolded. cbv zeta. fold fs0. fold fs1.
    destruct (error (fst (spawn_sync "git" clone (w_cwd w) fs0)));
      [cbn [snd w_fs with_fs]; congruence|].
    destruct (lookup cache fs1) as [[c|es]|];
      try (cbn [snd w_fs with_fs logged]; congruence).
    fold fs2.
    destruct (error (fst (spawn_sync "git" sparse cache fs1)));
      [cbn [snd w_fs with_fs]; congruence|].
    fold fs3.
    destruct (error (fst (spawn_sync "git" ["checkout"] cache fs2)));
      [cbn [snd w_fs with_fs]; congruence|].
    match goal with
    | |- lookup _ (w_fs (snd (renameAll _ _ ?W))) = _ =>
        destruct (renameAll_grafts fuel docs W Hproper) as [[new ->] _]
    end.
    rewrite lookup_graft_apart by apply docs_apart_dest.
    cbn [w_fs with_fs]. congruence.
  - subst r. unfold main, publish, before_publishing.
    rewrite <- bind_assoc. apply bind_stops.
Qed.

(** * The commands of a run *)

(** C8: the script runs [git] three times and nothing else: a clone of
    depth 1, without checkout, of the repository URL into the cache
    directory, then [sparse-checkout set docs], then [checkout].  The
    clone is made in every run; the second command is made when the clone
    could be launched and has left a directory at the cache path; the
    third when the second could be launched too; no other command is
    made, and a run that ends normally has made all three. *)
Theorem main_git_invocations (fuel : nat) (w : world) :
  let r := main __dirname spawn_sync fuel w in
  let c1 := ("git", ["clone"; "--depth"; "1"; "--no-checkout";
                     "https://github.com/vercel/next.js"; render cache]) in
  let c2 := ("git", ["sparse-checkout"; "set"; "docs"]) in
  let c3 := ("git", ["checkout"]) in
  let fs0 := w_fs (snd (reset_cache __dirname w)) in
  let r1 := spawn_sync "git" (snd c1) (w_cwd w) fs0 in
  let r2 := spawn_sync "git" (snd c2) cache (snd r1) in
  exists l,
    spawn_calls (w_log (snd r)) = spawn_calls (w_log w) ++ l
    /\ (l = [c1]
        /\ (error (fst r1) <> None
            \/ forall es, lookup cache (snd r1) <> Some (Dir es))
        \/ l = [c1; c2]
           /\ error (fst r1) = None
           /\ (exists es, lookup cache (snd r1) = Some (Dir es))
           /\ error (fst r2) <> None
        \/ l = [c1; c2; c3]
           /\ error (fst r1) = None
           /\ (exists es, lookup cache (snd r1) = Some (Dir es))
           /\ error (fst r2) = None)
    /\ (fst r = Done tt -> l = [c1; c2; c3]).
Proof.
  intros r c1 c2 c3 fs0 r1 r2.
  pose proof (reset_cache_calls w) as Hreset.
  assert (Hmain : (fst (fetch __dirname spawn_sync w) <> Done tt
                   /\ r = fetch __dirname spawn_sync w)
                  \/ (fst (fetch __dirname spawn_sync w) = Done tt
                      /\ spawn_calls (w_log (snd r))
                         = spawn_calls (w_log (snd (fetch __dirname spawn_sync w))))).
  { subst r. unfold main.
    destruct (fetch __dirname spawn_sync w) as [[[]|e|c|] w1] eqn:E;
      try (left; split; [discriminate|];
           rewrite <- E; apply bind_stops; rewrite E; discriminate).
    right. split; [reflexivity|].
    rewrite (bind_done _ _ _ _ _ E). apply (quiet_publish __dirname fuel w1). }
  rewrite fetch_unfolded in Hmain. cbv zeta in Hmain.
  change (clone_args __dirname) with (snd c1) in Hmain.
  fold fs0 in Hmain. fold r1 in Hmain.
  destruct (error (fst r1)) as [e1|] eqn:E1.
  { destruct Hmain as [[_ ->]|[H _]]; [|discriminate H].
    exists [c1]. cbn [fst snd w_log with_fs logged].
    rewrite spawn_calls_app, Hreset.
    split; [reflexivity|]. split; [|discriminate].
    left. split; [reflexivity|]. left. discriminate. }
  destruct (lookup cache (snd r1)) as [[c|es]|] eqn:Ecache.
  1, 3: destruct Hmain as [[_ ->]|[H _]]; [|discriminate H];
    exists [c1]; cbn [fst snd w_log with_fs logged];
    rewrite !spawn_calls_app, Hreset, app_nil_r;
    (split; [reflexivity|]); (split; [|discriminate]);
    left; (split; [reflexivity|]); right; intros es; discriminate.
  change ["sparse-checkout"; "set"; "docs"] with (snd c2) in Hmain.
  fold r2 in Hmain.
  destruct (error (fst r2)) as [e2|] eqn:E2.
  { destruct Hmain as [[_ ->]|[H _]]; [|discriminate H].
    exists [c1; c2]. cbn [fst snd w_log with_fs with_cwd logged].
    rewrite !spawn_calls_app, Hreset, app_nil_r, <- app_assoc.
    split; [reflexivity|]. split; [|discriminate].
    right; left. split; [reflexivity|]. split; [reflexivity|].
    split; [now exists es | discriminate]. }
  exists [c1; c2; c3].
  assert (Hl : spawn_calls (w_log (snd r))
               = spawn_calls (w_log w) ++ [c1; c2; c3]).
  { destruct Hmain as [[_ ->]|[_ ->]];
      cbn [fst snd w_log with_fs with_cwd logged];
      rewrite !spawn_calls_app, Hreset, app_nil_r, <- !app_assoc; reflexivity. }
  split; [exact Hl|]. split; [|reflexivity].
  right; right. split; [reflexivity|]. split; [reflexivity|].
  split; [now exists es | reflexivity].
Qed.

End FetchUnfolded.

Lemma failed_clone_keeps_destination_witness :
  let r := main script_dir unreachable_git 4 start in
  exit_code (fst r) = Some 1%Z
  /\ lookup (docsPath script_dir) (w_fs (snd r))
     = lookup (docsPath script_dir) (w_fs start)
  /\ exists tr,
       w_log (snd r) = w_log start ++ tr
       /\ ~ In (EvRm (docsPath script_dir)) tr
       /\ ~ In (EvCp (docsDir script_dir) (docsPath script_dir)) tr.
Proof.
  apply (failed_clone_keeps_destination script_dir unreachable_git 4 start).
  - right. discriminate.
  - reflexivity.
  - reflexivity.
Defined.

Lemma destination_kept_until_published_witness :
  let git := git_of stray_docs 0 0 in
  let r := before_publishing script_dir git 4 start in
  (lookup (docsPath script_dir) (w_fs (snd r))
   = lookup (docsPath script_dir) (w_fs start)
   /\ (fst r <> Done tt -> main script_dir git 4 start = r))
  /\ lookup (docsPath script_dir) (w_fs start)
     = Some (Dir [("old.mdx", File "old")])
  /\ fst r = Thrown ENOTEMPTY
  /\ In (EvRename (docsDir script_dir ++ ["01-app"]) (docsDir script_dir ++ ["app"]))
        (w_log (snd r)).
Proof.
  intros git r. split.
  - apply (destination_kept_until_published script_dir git 4 start);
      vm_compute; reflexivity.
  - vm_compute. repeat split. auto 20.
Defined.

Lemma main_git_invocations_witness :
  let r := main script_dir (git_of upstream_docs 0 0) 4 start in
  fst r = Done tt
  /\ spawn_calls (w_log (snd r))
     = [("git", ["clone"; "--depth"; "1"; "--no-checkout";
                 "https://github.com/vercel/next.js"; "/proj/.cache/next"]);
        ("git", ["sparse-checkout"; "set"; "docs"]);
        ("git", ["checkout"])].
Proof.
  intros r.
  assert (Hdone : fst r = Done tt) by (vm_compute; reflexivity).
  split; [exact Hdone|].
  pose proof (main_git_invocations script_dir (git_of upstream_docs 0 0) 4 start)
    as H.
  cbv zeta in H. destruct H as (l & Hl & _ & Hall).
  fold r in Hl, Hall. rewrite Hl, (Hall Hdone). reflexivity.
Defined.

(** * Renaming: the order of the calls *)

Section Ordered.

Variable fuel : nat.
Hypothesis below :
  forall dirPath w,
    proper_names (w_fs w) = true ->
    exists tr,
      w_log (snd (renameAll fuel dirPath w)) = w_log w ++ tr
      /\ (tr = [] \/ renames_top_down dirPath tr).

Variable d : path.

Let body (item : Dirent) : M unit :=
  let oldPath := path_join d (name item) in
  let newName := stripPrefix (name item) in
  let newPath := path_join d newName in
  (if negb (path_eqb oldPath newPath)
   then renameSync oldPath newPath
   else ret tt) ;;
  (if isDirectory item
   then renameAll fuel newPath
   else ret tt).

(** The renaming of one entry, if one is needed: it is justified, and
    when it goes through the listing of the new path is. *)
Lemma rename_step_ordered (k : string) (w : world) (h : list event) :
  In (EvReaddir d) h ->
  proper_name k = true ->
  proper_names (w_fs w) = true ->
  exists o w1 tr,
    (if negb (path_eqb (d ++ [k]) (path_join d (stripPrefix k)))
     then renameSync (d ++ [k]) (path_join d (stripPrefix k))
     else ret tt) w = (o, w1)
    /\ w_log w1 = w_log w ++ tr
    /\ top_down h tr
    /\ proper_names (w_fs w1) = true
    /\ (o = Done tt ->
        path_join d (stripPrefix k) = d ++ [stripPrefix k]
        /\ justified (h ++ tr) (EvReaddir (d ++ [stripPrefix k]))).
Proof.
  intros Hd Hk Hw.
  destruct (proper_name (stripPrefix k)) eqn:Hk'.
  - (* the stripped name is a name *)
    pose proof (path_join_proper d _ Hk') as Hnew. rewrite Hnew.
    destruct (String.eqb_spec (stripPrefix k) k) as [E|E].
    + rewrite E. rewrite (proj2 (path_eqb_true (d ++ [k]) (d ++ [k])) eq_refl).
      exists (Done tt), w, []. cbn [negb]. rewrite !app_nil_r.
      repeat split; trivial.
      exists d, k. rewrite E. repeat split; trivial. now left.
    + assert (Hne : path_eqb (d ++ [k]) (d ++ [stripPrefix k]) = false).
      { apply path_eqb_false. intros H. apply app_inj_tail in H as [_ H].
        congruence. }
      rewrite Hne. cbn [negb].
      pose proof (renameSync_log (d ++ [k]) (d ++ [stripPrefix k]) w) as Hlog.
      assert (Hp : proper_names
                     (w_fs (snd (renameSync (d ++ [k]) (d ++ [stripPrefix k]) w)))
                   = true).
      { destruct (rename_in (d ++ [k]) (d ++ [stripPrefix k]) (w_fs w))
          as [e|fs1] eqn:Er.
        - now rewrite (renameSync_throws _ _ _ _ Er).
        - rewrite (renameSync_ok _ _ _ _ Er). cbn [snd w_fs with_fs].
          now apply (rename_in_sibling d k (stripPrefix k) _ _ Er). }
      destruct (renameSync (d ++ [k]) (d ++ [stripPrefix k]) w) as [o w1].
      cbn [snd] in *.
      exists o, w1, [EvRename (d ++ [k]) (d ++ [stripPrefix k])].
      split; [reflexivity|]. split; [exact Hlog|]. split; [|split; [exact Hp|]].
      * cbn. split; [|exact I]. exists d, k. repeat split; trivial.
        now symmetry.
      * intros _. split; [reflexivity|].
        exists d, k. split; [apply in_or_app; now left|].
        repeat split; trivial. right. now exists h.
  - (* it is not: the renaming is attempted, and refused *)
    pose proof (stripPrefix_no_slash k (proper_no_slash k Hk)) as Hslash.
    destruct (improper_join d k _ (improper_cases _ Hslash Hk')) as [Hpre Hne].
    rewrite Hne. cbn [negb].
    destruct (rename_in_onto_ancestor _ _ (w_fs w) Hpre Hne) as [e Er].
    rewrite (renameSync_throws _ _ _ _ Er).
    exists (Thrown e), (logged (EvRename (d ++ [k]) (path_join d (stripPrefix k))) w),
      [EvRename (d ++ [k]) (path_join d (stripPrefix k))].
    split; [reflexivity|]. split; [reflexivity|].
    split; [|split; [exact Hw | discriminate]].
    cbn. split; [|exact I]. exists d, k.
    repeat split; trivial; congruence.
Qed.

Lemma body_ordered (item : Dirent) (w : world) (h : list event) :
  In (EvReaddir d) h ->
  proper_name (name item) = true ->
  proper_names (w_fs w) = true ->
  exists tr,
    w_log (snd (body item w)) = w_log w ++ tr
    /\ top_down h tr
    /\ proper_names (w_fs (snd (body item w))) = true.
Proof.
  intros Hd Hk Hw. unfold body. cbv zeta.
  rewrite (path_join_proper d _ Hk).
  destruct (rename_step_ordered (name item) w h Hd Hk Hw)
    as (o & w1 & trR & ER & HlogR & HtdR & Hp1 & Hnext).
  unfold bind. rewrite ER.
  destruct o as [[]|e|c|]; cbn [snd];
    try (exists trR; split; [exact HlogR | split; [exact HtdR | exact Hp1]]).
  destruct (Hnext eq_refl) as [Hnew Hj]. rewrite Hnew.
  destruct (isDirectory item).
  - destruct (below (d ++ [stripPrefix (name item)]) w1 Hp1)
      as (trD & HlogD & HD).
    exists (trR ++ trD). rewrite HlogD, HlogR, app_assoc.
    split; [reflexivity|]. split.
    + apply top_down_app; [exact HtdR|].
      destruct HD as [->|(tr' & -> & Htd)]; [exact I|].
      cbn. split; [exact Hj|].
      exact (top_down_weaken (h ++ trR) _ _ Htd).
    + now apply renameAll_grafts.
  - exists trR. cbn. split; [exact HlogR | split; [exact HtdR | exact Hp1]].
Qed.

Lemma for_each_ordered (items : list Dirent) (w : world) (h : list event) :
  In (EvReaddir d) h ->
  Forall (fun item => proper_name (name item) = true) items ->
  proper_names (w_fs w) = true ->
  exists tr,
    w_log (snd (for_each items body w)) = w_log w ++ tr
    /\ top_down h tr.
Proof.
  revert w h. induction items as [|item items IH]; intros w h Hd Hitems Hw;
    cbn [for_each].
  - exists []. cbn. now rewrite app_nil_r.
  - inversion Hitems as [|? ? Hitem Hrest]; subst.
    destruct (body_ordered item w h Hd Hitem Hw) as (tr1 & Hlog1 & Htd1 & Hp1).
    unfold bind.
    destruct (body item w) as [[[]|?|?|] w1]; cbn [snd] in *;
      try (exists tr1; split; [exact Hlog1 | exact Htd1]).
    destruct (IH w1 (h ++ tr1)) as (tr2 & Hlog2 & Htd2); trivial.
    { apply in_or_app. now left. }
    exists (tr1 ++ tr2). rewrite Hlog2, Hlog1, app_assoc.
    split; [reflexivity | now apply top_down_app].
Qed.

(** One call of [renameAll] with fuel to start: the listing, then the
    calls of the loop. *)
Lemma renameAll_step_ordered (w : world) :
  proper_names (w_fs w) = true ->
  exists tr,
    w_log (snd (renameAll (S fuel) d w)) = w_log w ++ tr
    /\ renames_top_down d tr.
Proof.
  intros Hw. cbn [renameAll].
  destruct (lookup d (w_fs w)) as [[c|es]|] eqn:Hd.
  - rewrite (bind_thrown _ _ _ _ _ (readdirSync_file d w c Hd)).
    exists [EvReaddir d]. split; [reflexivity|]. now exists [].
  - rewrite (bind_done _ _ _ _ _ (readdirSync_dir d w es Hd)).
    destruct (for_each_ordered (map dirent_of es) (logged (EvReaddir d) w)
                [EvReaddir d]) as (tr & Hlog & Htd).
    + now left.
    + pose proof (proper_names_lookup d _ _ Hw Hd) as Hes.
      rewrite proper_names_dir in Hes.
      apply Forall_forall. intros item Hin.
      apply in_map_iff in Hin as ([k c] & <- & Hin).
      exact (proj1 (Hes _ _ Hin)).
    + exact Hw.
    + exists (EvReaddir d :: tr). split.
      * unfold body in Hlog. cbv zeta in Hlog. rewrite Hlog.
        cbn [logged w_log]. now rewrite <- app_assoc.
      * now exists tr.
  - exists [EvReaddir d]. split; [|now exists []].
    unfold bind, readdirSync, emit, get_fs. cbn. now rewrite Hd.
Qed.

End Ordered.

Lemma renameAll_ordered (fuel : nat) :
  forall dirPath w,
    proper_names (w_fs w) = true ->
    exists tr,
      w_log (snd (renameAll fuel dirPath w)) = w_log w ++ tr
      /\ (tr = [] \/ renames_top_down dirPath tr).
Proof.
  induction fuel as [|fuel IH]; intros dirPath w Hw.
  - exists []. cbn. split; [now rewrite app_nil_r | now left].
  - destruct (renameAll_step_ordered fuel IH dirPath w Hw) as (tr & Hlog & Htd).
    exists tr. split; [exact Hlog | now right].
Qed.

(** C7: renames go top-down.  In every run of [renameAll] on a file
    system with proper names, finished or not, the directory is listed
    first; each renaming takes an entry of a directory listed before from
    its old path to the path of its stripped name; and each directory
    listed after the first is listed under the path of its stripped name,
    either because its name did not change or right after the renaming
    that gave it that very path, never under the old one.  On a tidy tree,
    with fuel for its depth, the run goes through and its calls are those
    of the top-down renaming of the tree, no other and in that order: for
    each entry in turn its renaming, then the calls for its own entries
    under the new path. *)
Theorem renameAll_top_down (fuel : nat) (dirPath : path) (w : world) :
  proper_names (w_fs w) = true ->
  (exists tr,
     w_log (snd (renameAll (S fuel) dirPath w)) = w_log w ++ tr
     /\ renames_top_down dirPath tr)
  /\ (forall T,
        lookup dirPath (w_fs w) = Some T -> is_dir T = true ->
        tidy T = true -> depth T <= S fuel ->
        fst (renameAll (S fuel) dirPath w) = Done tt
        /\ w_log (snd (renameAll (S fuel) dirPath w))
           = w_log w ++ top_down_calls dirPath T).
Proof.
  intros Hw. split.
  - exact (renameAll_step_ordered fuel (renameAll_ordered fuel) dirPath w Hw).
  - intros T Hd Hdir Htidy Hdepth.
    destruct (renameAll_tidy_run (S fuel) dirPath T w Hd Hdir Htidy Hdepth)
      as (w' & E & _ & Hlog).
    rewrite E. now split.
Qed.

Lemma renameAll_top_down_witness :
  let w := {| w_fs := Dir [("docs", upstream_docs)]; w_cwd := []; w_log := [] |} in
  (exists tr,
     w_log (snd (renameAll 3 ["docs"] w)) = tr /\ renames_top_down ["docs"] tr)
  /\ fst (renameAll 3 ["docs"] w) = Done tt
  /\ w_log (snd (renameAll 3 ["docs"] w))
     = [EvReaddir ["docs"];
        EvRename ["docs"; "01-app"] ["docs"; "app"];
        EvReaddir ["docs"; "app"];
        EvRename ["docs"; "app"; "01-getting-started"]
                 ["docs"; "app"; "getting-started"];
        EvReaddir ["docs"; "app"; "getting-started"];
        EvRename ["docs"; "app"; "getting-started"; "01-installation.mdx"]
                 ["docs"; "app"; "getting-started"; "installation.mdx"];
        EvRename ["docs"; "02-pages"] ["docs"; "pages"];
        EvReaddir ["docs"; "pages"];
        EvRename ["docs"; "pages"; "01-routing.mdx"]
                 ["docs"; "pages"; "routing.mdx"]].
Proof.
  intros w.
  destruct (renameAll_top_down 2 ["docs"] w eq_refl) as [Hall Htidy].
  split; [exact Hall|].
  destruct (Htidy upstream_docs eq_refl eq_refl eq_refl
              (proj1 (Nat.leb_le (depth upstream_docs) 3) eq_refl)) as [Hdone Hlog].
  split; [exact Hdone|]. rewrite Hlog. reflexivity.
Defined.

(** Two orders that are not top-down: listing the old path after the
    renaming, and listing the old path before it. *)
Lemma old_path_after_renaming_not_top_down :
  ~ renames_top_down ["docs"]
      [EvReaddir ["docs"];
       EvRename ["docs"; "01-app"] ["docs"; "app"];
       EvReaddir ["docs"; "01-app"]].
Proof.
  intros (tr' & [= <-] & _ & Hlist & _). cbn in Hlist.
  destruct Hlist as (d & k & Hin & _ & _ & Hp & Hlast).
  destruct Hin as [[= <-]|[H|[]]]; [|discriminate H].
  injection Hp as Hp.
  destruct Hlast as [E|[h Hh]].
  - rewrite E in Hp. subst k. discriminate E.
  - change [EvReaddir ["docs"]; EvRename ["docs"; "01-app"] ["docs"; "app"]]
      with ([EvReaddir ["docs"]] ++ [EvRename ["docs"; "01-app"] ["docs"; "app"]])
      in Hh.
    apply app_inj_tail in Hh as [_ Hh]. discriminate Hh.
Qed.

Lemma old_path_before_renaming_not_top_down :
  ~ renames_top_down ["docs"]
      [EvReaddir ["docs"];
       EvReaddir ["docs"; "01-app"];
       EvRename ["docs"; "01-app"] ["docs"; "app"]].
Proof.
  intros (tr' & [= <-] & Hlist & _). cbn in Hlist.
  destruct Hlist as (d & k & Hin & _ & _ & Hp & Hlast).
  destruct Hin as [[= <-]|[]].
  injection Hp as Hp.
  destruct Hlast as [E|[h Hh]].
  - rewrite E in Hp. subst k. discriminate E.
  - destruct h as [|e [|e' h]]; discriminate Hh.
Qed.
